(** * engine262: Array.prototype methods, IsAnonymousFunctionDefinition and
    the command line host, embedded and verified.

    The source under study is
    - [src/intrinsics/ArrayPrototype.mjs]: the methods of %ArrayPrototype%,
    - [src/static-semantics/IsAnonymousFunctionDefinition.mjs],
    - the command line program (module resolution hook and exit status).

    The array methods are written against the engine's abstract operations
    ([ToObject], [Get], [ToLength], [Set], ...), which live in other files.
    They are embedded as trees of requests to those operations: every
    [Q(op(...))] of the source is a node [Vis op k], and a host answers the
    requests.  General results quantify over every host; the two scenarios
    and the termination result run the trees on a heap of data-property
    objects. *)

From Stdlib Require Import ZArith List Lia Bool.
From Stdlib Require Import DecimalString.
From Stdlib Require DecimalZ.
From stdpp Require Import gmap strings.

Local Open Scope string_scope.
Local Open Scope Z_scope.

(** ** Language values *)

(** A Number as the array methods see it: lengths, indices and depths are
    integral doubles or infinities.  Integers are kept in [Z]; the methods
    only add and subtract them inside the range where doubles are exact
    (magnitude at most 2^53, see [MAX_SAFE_INTEGER]).  Doubles with a
    fractional part are outside the model. *)
Inductive Number : Type :=
| NaN
| Int (z : Z)
| PosInfinity
| NegInfinity.

(** The range of [ToInteger]: an integer or an infinity, never NaN. *)
Inductive Integer : Type :=
| Fin (z : Z)
| PInf
| NInf.

Definition PropertyKey : Type := string.

(** Values.  An object is a heap reference.  String, Symbol and BigInt
    values do not take part in the logic of the array methods (elements are
    passed through unread) and are left out; property keys are strings of
    their own type. *)
Inductive Value : Type :=
| Undefined
| Null
| Bool (b : bool)
| Num (n : Number)
| Obj (l : N).

(** The message of an error: none, a literal, or [msg(template, ...args)]. *)
Inductive Message : Type :=
| NoMessage
| RawMessage (s : string)
| msg (template : string) (args : list Value).

(** What an abrupt completion carries: a language value (thrown by user
    code, say), or the error object that [surroundingAgent.Throw(kind,
    message)] has just made, kept by its kind and message.  No array method
    catches a completion, so such an error never comes back as an operand. *)
Inductive AbruptValue : Type :=
| UserValue (v : Value)
| NativeError (kind : string) (m : Message).

Definition is_undefined (v : Value) : bool :=
  match v with Undefined => true | _ => false end.

(** ** Completions *)

Inductive AbruptType : Type := break | continue | return_ | throw.

(** A completion record: normal with a value, or abrupt with its type and
    carried value. *)
Inductive Completion (X : Type) : Type :=
| NormalCompletion (x : X)
| AbruptCompletion (t : AbruptType) (v : AbruptValue).
Arguments NormalCompletion {X} x.
Arguments AbruptCompletion {X} t v.

Definition ThrowCompletion {X} (v : AbruptValue) : Completion X :=
  AbruptCompletion throw v.

(** ** Abstract operations the methods call

    Each constructor is an operation imported from [abstract-ops/all.mjs]
    (or [ArrayPrototypeShared.mjs] for the sort body), indexed by what its
    normal completion carries.  [.numberValue()] of a [ToLength] or
    [ToInteger] result is taken at once: they answer a [Z] / an [Integer].
    [IsCallable] and [ToBoolean] give [Value.true] or [Value.false] and
    never an abrupt completion; the source calls them without [Q]. *)
Inductive Op : Type -> Type :=
| ToObject (argument : Value) : Op Value
| ArraySpeciesCreate (originalArray : Value) (length : Z) : Op Value
| IsConcatSpreadable (O : Value) : Op bool
| Get (O : Value) (P : PropertyKey) : Op Value
| ToLength (argument : Value) : Op Z
| ToInteger (argument : Value) : Op Integer
| HasProperty (O : Value) (P : PropertyKey) : Op bool
| CreateDataPropertyOrThrow (O : Value) (P : PropertyKey) (V : Value) : Op bool
| Set_ (O : Value) (P : PropertyKey) (V : Value) (Throw : bool) : Op bool
| DeletePropertyOrThrow (O : Value) (P : PropertyKey) : Op bool
| IsArray (argument : Value) : Op bool
| IsCallable (argument : Value) : Op bool
| ToBoolean (argument : Value) : Op bool
| Call (F V : Value) (argumentsList : list Value) : Op Value
| ArrayProto_sortBody (obj : Value) (len : Z) (comparefn : Value) : Op Value.

(** Why a tree stops without a completion. *)
Inductive AbortReason : Type :=
| OutOfFuel          (* the recursion budget of the model ran out *)
| AssertionFailed.   (* an [Assert(...)] of the source failed *)

(** A method body: return a value, ask the host for an operation and go on
    with its normal result (an abrupt one is returned at once, as [Q] does),
    return [surroundingAgent.Throw(kind, message)], or stop. *)
Inductive Prog (A : Type) : Type :=
| Ret (a : A)
| Vis {X : Type} (e : Op X) (k : X -> Prog A)
| Throw (kind : string) (m : Message)
| Abort (r : AbortReason).
Arguments Ret {A} a.
Arguments Vis {A X} e k.
Arguments Throw {A} kind m.
Arguments Abort {A} r.

Fixpoint bind {A B : Type} (p : Prog A) (f : A -> Prog B) : Prog B :=
  match p with
  | Ret a => f a
  | Vis e k => Vis e (fun x => bind (k x) f)
  | Throw kind m => Throw kind m
  | Abort r => Abort r
  end.

(** [Q(op)]: perform the operation; ReturnIfAbrupt. *)
Definition Q {X : Type} (e : Op X) : Prog X := Vis e Ret.

(** [Assert(thisArg)] on an optional argument. *)
Definition Assert_present {A : Type} (o : option A) : Prog A :=
  match o with
  | Some a => Ret a
  | None => Abort AssertionFailed
  end.

(** ** Running a method against a host *)

(** A line of the trace: an operation and the completion the host gave. *)
Inductive Event : Type :=
| Performed {X : Type} (e : Op X) (r : Completion X).

(** How a run ends: with a completion record, or without one. *)
Inductive Outcome (A : Type) : Type :=
| Completed (c : Completion A)
| Aborted (r : AbortReason).
Arguments Completed {A} c.
Arguments Aborted {A} r.

Definition Returned {A} (a : A) : Outcome A := Completed (NormalCompletion a).
Definition Thrown {A} (kind : string) (m : Message) : Outcome A :=
  Completed (ThrowCompletion (NativeError kind m)).

Record Run (S A : Type) : Type := mkRun {
  outcome : Outcome A;
  final : S;
  trace : list Event;
}.
Arguments mkRun {S A} outcome final trace.
Arguments outcome {S A} r.
Arguments final {S A} r.
Arguments trace {S A} r.

(** A host answers every operation from its state with a completion. *)
Definition Host (S : Type) : Type := forall X : Type, Op X -> S -> Completion X * S.

Definition log {S A} (ev : Event) (r : Run S A) : Run S A :=
  mkRun (outcome r) (final r) (ev :: trace r).

Fixpoint exec {S A : Type} (host : Host S) (p : Prog A) (s : S) : Run S A :=
  match p with
  | Ret a => mkRun (Returned a) s []
  | Vis e k =>
      match host _ e s with
      | (NormalCompletion x, s') =>
          log (Performed e (NormalCompletion x)) (exec host (k x) s')
      | (AbruptCompletion t v, s') =>
          mkRun (Completed (AbruptCompletion t v)) s'
                [Performed e (AbruptCompletion t v)]
      end
  | Throw kind m => mkRun (Thrown kind m) s []
  | Abort r => mkRun (Aborted r) s []
  end.

(** ** Notation for method bodies *)

Declare Scope prog_scope.
Delimit Scope prog_scope with prog.
Bind Scope prog_scope with Prog.
Notation "x ← y ; z" := (bind y (fun x => z))
  (at level 20, y at level 100, z at level 200, only parsing) : prog_scope.
Notation "' x ← y ; z" := (bind y (fun x => z))
  (at level 20, x pattern, y at level 100, z at level 200, only parsing) : prog_scope.
Notation "y ;; z" := (bind y (fun _ => z))
  (at level 100, z at level 200, only parsing, right associativity) : prog_scope.
Local Open Scope prog_scope.

(** [while] loops of the source whose counter moves by one each turn and
    whose bound is fixed before the loop: the body runs [n] times unless an
    abrupt completion leaves it.  The loop variables are the state [St]. *)
Fixpoint iterate {St : Type} (n : nat) (body : St -> Prog St) (st : St) : Prog St :=
  match n with
  | O => Ret st
  | S n' => st' ← body st; iterate n' body st'
  end.

(** [while (items.length > 0) { const E = items.shift(); ... }] *)
Fixpoint for_each {St : Type} (items : list Value)
    (body : Value -> St -> Prog St) (st : St) : Prog St :=
  match items with
  | [] => Ret st
  | E :: items' => st' ← body E st; for_each items' body st'
  end.

(** ** Numbers, keys and arguments *)

(** [(2 ** 53) - 1].  The comparisons of the source against it are on
    sums of a length (at most 2^53 - 1) and a count: whenever the exact sum
    is above the bound it is at least 2^53, which is a double, so the
    rounded sum is above the bound as well. *)
Definition MAX_SAFE_INTEGER : Z := 2 ^ 53 - 1.

(** [X(ToString(new Value(k)))] for an integral [k]: its decimal digits
    (the indices the methods form stay below 10^21, where ToString of a
    Number switches to exponent notation). *)
Definition ToString (k : Z) : PropertyKey := NilZero.string_of_int (Z.to_int k).

(** [new Value(k)] for an integral JS number. *)
Definition new_Value (k : Z) : Value := Num (Int k).

(** A parameter with default [Value.undefined] of an argument list. *)
Definition arg (args : list Value) (i : nat) : Value := nth i args Undefined.

(** The recurring
    [if (relative < 0) Math.max(len + relative, 0) else Math.min(relative, len)]
    on a [ToInteger] result and a length. *)
Definition relative_to_absolute (relative : Integer) (len : Z) : Z :=
  match relative with
  | Fin r => if r <? 0 then Z.max (len + r) 0 else Z.min r len
  | NInf => 0
  | PInf => len
  end.

(** [Math.min(Math.max(dc, 0), upper)] *)
Definition clamp_count (dc : Integer) (upper : Z) : Z :=
  match dc with
  | Fin d => Z.min (Z.max d 0) upper
  | PInf => upper
  | NInf => Z.min 0 upper
  end.

(** [depth > 0] and [depth - 1] on a [ToInteger] result ([depth - 1] is
    exact for magnitudes up to 2^53, where the model of Numbers stops). *)
Definition Integer_gt0 (d : Integer) : bool :=
  match d with
  | Fin z => 0 <? z
  | PInf => true
  | NInf => false
  end.

Definition Integer_pred (d : Integer) : Integer :=
  match d with
  | Fin z => Fin (z - 1)
  | PInf => PInf
  | NInf => NInf
  end.

(** The recurring block
    [fromPresent = Q(HasProperty(O, from));
     if (fromPresent === Value.true) { fromVal = Q(Get(O, from)); Q(Set(O, to, fromVal, Value.true)); }
     else { Q(DeletePropertyOrThrow(O, to)); }] *)
Definition move_property (O : Value) (from to : PropertyKey) : Prog unit :=
  fromPresent ← Q (HasProperty O from);
  if fromPresent : bool then
    fromVal ← Q (Get O from);
    Q (Set_ O to fromVal true);;
    Ret tt
  else
    Q (DeletePropertyOrThrow O to);;
    Ret tt.

Definition ArrayPastSafeLength : Message := msg "ArrayPastSafeLength" [].
Definition NotAFunction (v : Value) : Message := msg "NotAFunction" [v].

(** ** Array.prototype methods *)

(** One item of the [while (items.length > 0)] loop of concat; [n] is the
    running target index and is returned updated. *)
Definition concat_item (A E : Value) (n : Z) : Prog Z :=
  spreadable ← Q (IsConcatSpreadable E);
  if spreadable : bool then
    lenProp ← Q (Get E "length");
    len ← Q (ToLength lenProp);
    if n + len >? MAX_SAFE_INTEGER then
      Throw "TypeError" ArrayPastSafeLength
    else
      '(_, n) ← iterate (Z.to_nat (len - 0)) (fun '(k, n) =>
          let P := ToString k in
          exists_ ← Q (HasProperty E P);
          (if exists_ : bool then
             subElement ← Q (Get E P);
             let nStr := ToString n in
             Q (CreateDataPropertyOrThrow A nStr subElement);;
             Ret tt
           else Ret tt);;
          Ret (k + 1, n + 1)) (0, n);
      Ret n
  else
    if n >=? MAX_SAFE_INTEGER then
      Throw "TypeError" ArrayPastSafeLength
    else
      let nStr := ToString n in
      Q (CreateDataPropertyOrThrow A nStr E);;
      Ret (n + 1).

(** 22.1.3.1 Array.prototype.concat *)
Definition ArrayProto_concat (args : list Value) (thisValue : Value) : Prog Value :=
  O ← Q (ToObject thisValue);
  A ← Q (ArraySpeciesCreate O 0);
  let items := O :: args in
  n ← for_each items (concat_item A) 0;
  Q (Set_ A "length" (new_Value n) true);;
  Ret A.

(** 22.1.3.3 Array.prototype.copyWithin *)
Definition ArrayProto_copyWithin (args : list Value) (thisValue : Value) : Prog Value :=
  let target := arg args 0 in
  let start := arg args 1 in
  let end_ := arg args 2 in
  O ← Q (ToObject thisValue);
  lenProp ← Q (Get O "length");
  len ← Q (ToLength lenProp);
  relativeTarget ← Q (ToInteger target);
  let to := relative_to_absolute relativeTarget len in
  relativeStart ← Q (ToInteger start);
  let from := relative_to_absolute relativeStart len in
  relativeEnd ← (if is_undefined end_ then Ret (Fin len) else Q (ToInteger end_));
  let final := relative_to_absolute relativeEnd len in
  let count := Z.min (final - from) (len - to) in
  let '(direction, from, to) :=
    if (from <? to) && (to <? from + count)
    then (-1, from + (count - 1), to + (count - 1))
    else (1, from, to) in
  iterate (Z.to_nat count) (fun '(from, to) =>
      let fromKey := ToString from in
      let toKey := ToString to in
      move_property O fromKey toKey;;
      Ret (from + direction, to + direction)) (from, to);;
  Ret O.

(** 22.1.3.6 Array.prototype.fill *)
Definition ArrayProto_fill (args : list Value) (thisValue : Value) : Prog Value :=
  let value := arg args 0 in
  let start := arg args 1 in
  let end_ := arg args 2 in
  O ← Q (ToObject thisValue);
  lenProp ← Q (Get O "length");
  len ← Q (ToLength lenProp);
  relativeStart ← Q (ToInteger start);
  let k := relative_to_absolute relativeStart len in
  relativeEnd ← (if is_undefined end_ then Ret (Fin len) else Q (ToInteger end_));
  let final := relative_to_absolute relativeEnd len in
  iterate (Z.to_nat (final - k)) (fun k =>
      let Pk := ToString k in
      Q (Set_ O Pk value true);;
      Ret (k + 1)) k;;
  Ret O.

(** 22.1.3.7 Array.prototype.filter *)
Definition ArrayProto_filter (args : list Value) (thisValue : Value) : Prog Value :=
  let callbackfn := arg args 0 in
  let thisArg := arg args 1 in
  O ← Q (ToObject thisValue);
  lenProp ← Q (Get O "length");
  len ← Q (ToLength lenProp);
  callable ← Q (IsCallable callbackfn);
  if negb callable then
    Throw "TypeError" (NotAFunction callbackfn)
  else
    let T := thisArg in
    A ← Q (ArraySpeciesCreate O 0);
    iterate (Z.to_nat (len - 0)) (fun '(k, to) =>
        let Pk := ToString k in
        kPresent ← Q (HasProperty O Pk);
        to ← (if kPresent : bool then
                kValue ← Q (Get O Pk);
                result ← Q (Call callbackfn T [kValue; new_Value k; O]);
                selected ← Q (ToBoolean result);
                if selected : bool then
                  Q (CreateDataPropertyOrThrow A (ToString to) kValue);;
                  Ret (to + 1)
                else Ret to
              else Ret to);
        Ret (k + 1, to)) (0, 0);;
    Ret A.

(** FlattenIntoArray.  The recursion follows the elements of the source,
    which no argument bounds, so the embedding carries a budget [fuel] of
    nested calls; [Abort OutOfFuel] marks a call cut off by the budget.
    The two optional parameters are [mapperFunction] and [thisArg]. *)
Fixpoint FlattenIntoArray (fuel : nat) (target source : Value) (sourceLen start : Z)
    (depth : Integer) (mapperFunction thisArg : option Value) {struct fuel} : Prog Z :=
  match fuel with
  | O => Abort OutOfFuel
  | S fuel' =>
      let targetIndex := start in
      let sourceIndex := 0 in
      '(_, targetIndex) ← iterate (Z.to_nat (sourceLen - sourceIndex))
        (fun '(sourceIndex, targetIndex) =>
          let P := ToString sourceIndex in
          exists_ ← Q (HasProperty source P);
          targetIndex ← (if exists_ : bool then
              element ← Q (Get source P);
              element ← match mapperFunction with
                         | Some f =>
                             T ← Assert_present thisArg;
                             Q (Call f T [element; new_Value sourceIndex; source])
                         | None => Ret element
                         end;
              shouldFlatten ← (if Integer_gt0 depth then Q (IsArray element) else Ret false);
              if shouldFlatten : bool then
                lenProp ← Q (Get element "length");
                elementLen ← Q (ToLength lenProp);
                FlattenIntoArray fuel' target element elementLen targetIndex
                                 (Integer_pred depth) None None
              else
                if targetIndex >=? MAX_SAFE_INTEGER then
                  Throw "TypeError" NoMessage
                else
                  Q (CreateDataPropertyOrThrow target (ToString targetIndex) element);;
                  Ret (targetIndex + 1)
            else Ret targetIndex);
          Ret (sourceIndex + 1, targetIndex))
        (sourceIndex, targetIndex);
      Ret targetIndex
  end.

(** Array.prototype.flat *)
Definition ArrayProto_flat (fuel : nat) (args : list Value) (thisValue : Value) : Prog Value :=
  let depth := arg args 0 in
  O ← Q (ToObject thisValue);
  lenProp ← Q (Get O "length");
  sourceLen ← Q (ToLength lenProp);
  depthNum ← (if negb (is_undefined depth) then Q (ToInteger depth) else Ret (Fin 1));
  A ← Q (ArraySpeciesCreate O 0);
  FlattenIntoArray fuel A O sourceLen 0 depthNum None None;;
  Ret A.

(** Array.prototype.flatMap *)
Definition ArrayProto_flatMap (fuel : nat) (args : list Value) (thisValue : Value) : Prog Value :=
  let mapperFunction := arg args 0 in
  let thisArg := arg args 1 in
  O ← Q (ToObject thisValue);
  lenProp ← Q (Get O "length");
  sourceLen ← Q (ToLength lenProp);
  callable ← Q (IsCallable mapperFunction);
  if negb callable then
    Throw "TypeError" NoMessage
  else
    let T := thisArg in
    A ← Q (ArraySpeciesCreate O 0);
    FlattenIntoArray fuel A O sourceLen 0 (Fin 1) (Some mapperFunction) (Some T);;
    Ret A.

(** 22.1.3.16 Array.prototype.map *)
Definition ArrayProto_map (args : list Value) (thisValue : Value) : Prog Value :=
  let callbackfn := arg args 0 in
  let thisArg := arg args 1 in
  O ← Q (ToObject thisValue);
  lenProp ← Q (Get O "length");
  len ← Q (ToLength lenProp);
  callable ← Q (IsCallable callbackfn);
  if negb callable then
    Throw "TypeError" (RawMessage "callbackfn is not callable")
  else
    let T := thisArg in
    A ← Q (ArraySpeciesCreate O len);
    iterate (Z.to_nat (len - 0)) (fun k =>
        let Pk := ToString k in
        kPresent ← Q (HasProperty O Pk);
        (if kPresent : bool then
           kValue ← Q (Get O Pk);
           mappedValue ← Q (Call callbackfn T [kValue; new_Value k; O]);
           Q (CreateDataPropertyOrThrow A Pk mappedValue);;
           Ret tt
         else Ret tt);;
        Ret (k + 1)) 0;;
    Ret A.

(** 22.1.3.17 Array.prototype.pop *)
Definition ArrayProto_pop (args : list Value) (thisValue : Value) : Prog Value :=
  O ← Q (ToObject thisValue);
  lenProp ← Q (Get O "length");
  len ← Q (ToLength lenProp);
  if len =? 0 then
    Q (Set_ O "length" (new_Value 0) true);;
    Ret Undefined
  else
    let newLen := len - 1 in
    let index := ToString newLen in
    element ← Q (Get O index);
    Q (DeletePropertyOrThrow O index);;
    Q (Set_ O "length" (new_Value newLen) true);;
    Ret element.

(** 22.1.3.18 Array.prototype.push *)
Definition ArrayProto_push (items : list Value) (thisValue : Value) : Prog Value :=
  O ← Q (ToObject thisValue);
  lenProp ← Q (Get O "length");
  len ← Q (ToLength lenProp);
  let argCount := Z.of_nat (length items) in
  if len + argCount >? MAX_SAFE_INTEGER then
    Throw "TypeError" ArrayPastSafeLength
  else
    len ← for_each items (fun E len =>
        Q (Set_ O (ToString len) E true);;
        Ret (len + 1)) len;
    Q (Set_ O "length" (new_Value len) true);;
    Ret (new_Value len).

(** 22.1.3.22 Array.prototype.shift *)
Definition ArrayProto_shift (args : list Value) (thisValue : Value) : Prog Value :=
  O ← Q (ToObject thisValue);
  lenProp ← Q (Get O "length");
  len ← Q (ToLength lenProp);
  if len =? 0 then
    Q (Set_ O "length" (new_Value 0) true);;
    Ret Undefined
  else
    first ← Q (Get O "0");
    iterate (Z.to_nat (len - 1)) (fun k =>
        let from := ToString k in
        let to := ToString (k - 1) in
        move_property O from to;;
        Ret (k + 1)) 1;;
    Q (DeletePropertyOrThrow O (ToString (len - 1)));;
    Q (Set_ O "length" (new_Value (len - 1)) true);;
    Ret first.

(** 22.1.3.23 Array.prototype.slice *)
Definition ArrayProto_slice (args : list Value) (thisValue : Value) : Prog Value :=
  let start := arg args 0 in
  let end_ := arg args 1 in
  O ← Q (ToObject thisValue);
  lenProp ← Q (Get O "length");
  len ← Q (ToLength lenProp);
  relativeStart ← Q (ToInteger start);
  let k := relative_to_absolute relativeStart len in
  relativeEnd ← (if is_undefined end_ then Ret (Fin len) else Q (ToInteger end_));
  let final := relative_to_absolute relativeEnd len in
  let count := Z.max (final - k) 0 in
  A ← Q (ArraySpeciesCreate O count);
  '(_, n) ← iterate (Z.to_nat (final - k)) (fun '(k, n) =>
      let Pk := ToString k in
      kPresent ← Q (HasProperty O Pk);
      (if kPresent : bool then
         kValue ← Q (Get O Pk);
         let nStr := ToString n in
         Q (CreateDataPropertyOrThrow A nStr kValue);;
         Ret tt
       else Ret tt);;
      Ret (k + 1, n + 1)) (k, 0);
  Q (Set_ A "length" (new_Value n) true);;
  Ret A.

(** 22.1.3.25 Array.prototype.sort *)
Definition ArrayProto_sort (args : list Value) (thisValue : Value) : Prog Value :=
  let comparefn := arg args 0 in
  reject ← (if negb (is_undefined comparefn)
            then callable ← Q (IsCallable comparefn); Ret (negb callable)
            else Ret false);
  if reject : bool then
    Throw "TypeError" (NotAFunction comparefn)
  else
    obj ← Q (ToObject thisValue);
    lenProp ← Q (Get obj "length");
    len ← Q (ToLength lenProp);
    Q (ArrayProto_sortBody obj len comparefn).

(** [insertCount] and [actualDeleteCount] of splice: the
    [if (args.length === 0) ... else if (args.length === 1) ... else ...]. *)
Definition splice_counts (args : list Value) (len actualStart : Z) : Prog (Z * Z) :=
  let deleteCount := arg args 1 in
  match length args with
  | 0%nat => Ret (0, 0)
  | 1%nat => Ret (0, len - actualStart)
  | _ =>
      dc ← Q (ToInteger deleteCount);
      Ret (Z.of_nat (length args) - 2, clamp_count dc (len - actualStart))
  end.

(** 22.1.3.26 Array.prototype.splice *)
Definition ArrayProto_splice (args : list Value) (thisValue : Value) : Prog Value :=
  let start := arg args 0 in
  let items := skipn 2 args in
  O ← Q (ToObject thisValue);
  lenProp ← Q (Get O "length");
  len ← Q (ToLength lenProp);
  relativeStart ← Q (ToInteger start);
  let actualStart := relative_to_absolute relativeStart len in
  '(insertCount, actualDeleteCount) ← splice_counts args len actualStart;
  if len + insertCount - actualDeleteCount >? MAX_SAFE_INTEGER then
    Throw "TypeError" ArrayPastSafeLength
  else
    A ← Q (ArraySpeciesCreate O actualDeleteCount);
    iterate (Z.to_nat (actualDeleteCount - 0)) (fun k =>
        let from := ToString (actualStart + k) in
        fromPresent ← Q (HasProperty O from);
        (if fromPresent : bool then
           fromValue ← Q (Get O from);
           Q (CreateDataPropertyOrThrow A (ToString k) fromValue);;
           Ret tt
         else Ret tt);;
        Ret (k + 1)) 0;;
    Q (Set_ A "length" (new_Value actualDeleteCount) true);;
    let itemCount := Z.of_nat (length items) in
    (if itemCount <? actualDeleteCount then
       iterate (Z.to_nat (len - actualDeleteCount - actualStart)) (fun k =>
           let from := ToString (k + actualDeleteCount) in
           let to := ToString (k + itemCount) in
           move_property O from to;;
           Ret (k + 1)) actualStart;;
       iterate (Z.to_nat (len - (len - actualDeleteCount + itemCount))) (fun k =>
           Q (DeletePropertyOrThrow O (ToString (k - 1)));;
           Ret (k - 1)) len;;
       Ret tt
     else if itemCount >? actualDeleteCount then
       iterate (Z.to_nat (len - actualDeleteCount - actualStart)) (fun k =>
           let from := ToString (k + actualDeleteCount - 1) in
           let to := ToString (k + itemCount - 1) in
           move_property O from to;;
           Ret (k - 1)) (len - actualDeleteCount);;
       Ret tt
     else Ret tt);;
    for_each items (fun E k =>
        Q (Set_ O (ToString k) E true);;
        Ret (k + 1)) actualStart;;
    Q (Set_ O "length" (new_Value (len - actualDeleteCount + itemCount)) true);;
    Ret A.

(** 22.1.3.29 Array.prototype.unshift *)
Definition ArrayProto_unshift (args : list Value) (thisValue : Value) : Prog Value :=
  O ← Q (ToObject thisValue);
  lenProp ← Q (Get O "length");
  len ← Q (ToLength lenProp);
  let argCount := Z.of_nat (length args) in
  (if argCount >? 0 then
     if len + argCount >? MAX_SAFE_INTEGER then
       Throw "TypeError" ArrayPastSafeLength
     else
       iterate (Z.to_nat (len - 0)) (fun k =>
           let from := ToString (k - 1) in
           let to := ToString (k + argCount - 1) in
           move_property O from to;;
           Ret (k - 1)) len;;
       let items := args in
       for_each items (fun E j =>
           let jStr := ToString j in
           Q (Set_ O jStr E true);;
           Ret (j + 1)) 0;;
       Ret tt
   else Ret tt);;
  Q (Set_ O "length" (new_Value (len + argCount)) true);;
  Ret (new_Value (len + argCount)).

(** The fourteen methods that consult a length, under one name. *)
Inductive Method : Type :=
| M_concat | M_copyWithin | M_fill | M_filter | M_flat | M_flatMap | M_map
| M_pop | M_push | M_shift | M_slice | M_sort | M_splice | M_unshift.

Definition ArrayProto (m : Method) (fuel : nat) : list Value -> Value -> Prog Value :=
  match m with
  | M_concat => ArrayProto_concat
  | M_copyWithin => ArrayProto_copyWithin
  | M_fill => ArrayProto_fill
  | M_filter => ArrayProto_filter
  | M_flat => ArrayProto_flat fuel
  | M_flatMap => ArrayProto_flatMap fuel
  | M_map => ArrayProto_map
  | M_pop => ArrayProto_pop
  | M_push => ArrayProto_push
  | M_shift => ArrayProto_shift
  | M_slice => ArrayProto_slice
  | M_sort => ArrayProto_sort
  | M_splice => ArrayProto_splice
  | M_unshift => ArrayProto_unshift
  end.

(** ** Reading a length, as the specification words it

    "Get-then-ToLength": first [Get(O, "length")], then [ToLength] of the
    value retrieved; an abrupt completion of either step is the result.
    These two definitions follow the specification's words; the theorems
    below compare the methods, embedded from the source, with them. *)
Section Protocol.
Context {S : Type} (host : Host S).

Definition get_length (O : Value) (s : S) : Completion Z * S * list Event :=
  match host _ (Get O "length") s with
  | (AbruptCompletion t v, s1) =>
      (AbruptCompletion t v, s1, [Performed (Get O "length") (AbruptCompletion t v)])
  | (NormalCompletion lenProp, s1) =>
      match host _ (ToLength lenProp) s1 with
      | (AbruptCompletion t v, s2) =>
          (AbruptCompletion t v, s2,
           [Performed (Get O "length") (NormalCompletion lenProp);
            Performed (ToLength lenProp) (AbruptCompletion t v)])
      | (NormalCompletion len, s2) =>
          (NormalCompletion len, s2,
           [Performed (Get O "length") (NormalCompletion lenProp);
            Performed (ToLength lenProp) (NormalCompletion len)])
      end
  end.

(** [ToObject(thisValue)], then the length of the object it gives. *)
Definition read_length (thisValue : Value) (s : S)
    : Completion (Value * Z) * S * list Event :=
  match host _ (ToObject thisValue) s with
  | (AbruptCompletion t v, s1) =>
      (AbruptCompletion t v, s1, [Performed (ToObject thisValue) (AbruptCompletion t v)])
  | (NormalCompletion obj, s1) =>
      match get_length obj s1 with
      | (AbruptCompletion t v, s2, tr) =>
          (AbruptCompletion t v, s2, Performed (ToObject thisValue) (NormalCompletion obj) :: tr)
      | (NormalCompletion len, s2, tr) =>
          (NormalCompletion (obj, len), s2,
           Performed (ToObject thisValue) (NormalCompletion obj) :: tr)
      end
  end.

(** A run [r] starts by reading the length this way: it stops with the
    abrupt completion of the reading, or goes on from the state the
    reading left, with the object and length it gave. *)
Definition starts_with {X A : Type} (reading : Completion X * S * list Event)
    (rest : X -> Prog A) (r : Run S A) : Prop :=
  match reading with
  | (AbruptCompletion t v, s', tr) =>
      r = mkRun (Completed (AbruptCompletion t v)) s' tr
  | (NormalCompletion x, s', tr) =>
      let r' := exec host (rest x) s' in
      r = mkRun (outcome r') (final r') (tr ++ trace r')
  end.
End Protocol.

(** An event that calls a function. *)
Definition is_Call (ev : Event) : bool :=
  match ev with
  | Performed (Call _ _ _) _ => true
  | Performed _ _ => false
  end.

(** An event that writes a property: [Set] or [CreateDataPropertyOrThrow]. *)
Definition is_write (ev : Event) : bool :=
  match ev with
  | Performed (Set_ _ _ _ _) _ => true
  | Performed (CreateDataPropertyOrThrow _ _ _) _ => true
  | Performed _ _ => false
  end.

(** ** Callback checks of filter, map, flatMap and sort *)
Section CallbackCheck.
Context {S : Type} (host : Host S).

(** [f] is not callable: [IsCallable(f)] is [Value.false] in every state. *)
Definition not_callable (f : Value) : Prop :=
  forall s, (host _ (IsCallable f) s).1 = NormalCompletion false.

(** What filter, map and flatMap do with a callback that is not callable:
    the length is read first; then the check throws. *)
Definition rejects_after_length (f thisValue : Value) (s : S) (r : Run S Value) : Prop :=
  match read_length host thisValue s with
  | (AbruptCompletion t v, s', tr) =>
      r = mkRun (Completed (AbruptCompletion t v)) s' tr
  | (NormalCompletion _, s', tr) =>
      exists m, r = mkRun (Thrown "TypeError" m) (host _ (IsCallable f) s').2
                       (tr ++ [Performed (IsCallable f) (NormalCompletion false)])
  end.
End CallbackCheck.

(** ** The bound 2^53 - 1 *)

(** A write of an element at an index of the target below the bound. *)
Definition within_safe_length (ev : Event) : Prop :=
  match ev with
  | Performed (CreateDataPropertyOrThrow _ P _) _ =>
      exists i, 0 <= i < MAX_SAFE_INTEGER /\ P = ToString i
  | Performed _ _ => True
  end.

Definition no_write (tr : list Event) : Prop :=
  forallb (fun ev => negb (is_write ev)) tr = true.

Arguments splice_counts : simpl never.

(** ** Get, then ToLength *)

(** The methods whose first three operations are ToObject, Get "length" and
    ToLength; sort checks its comparefn before them, and concat reads the
    length of each spreadable item, the receiver being the first. *)
Definition methods_reading_length_first : list Method :=
  [M_copyWithin; M_fill; M_filter; M_flat; M_flatMap; M_map;
   M_pop; M_push; M_shift; M_slice; M_splice; M_unshift].

(** * Static semantics: IsAnonymousFunctionDefinition *)
Module StaticSemantics.
Section IsAnonymousFunctionDefinition.
(** Syntax nodes and the two static semantics imported from [./all.mjs]
    are taken as given; both answer a JavaScript boolean. *)
Variable Node : Type.
Variable IsFunctionDefinition_Expression : Node -> bool.
Variable HasName_Expression : Node -> bool.

(** The calls a run makes, in order. *)
Inductive StaticCall : Type :=
| Calls_IsFunctionDefinition_Expression (expr : Node)
| Calls_HasName_Expression (expr : Node).

(** The function, with the calls it made.  The result is a plain
    boolean: there is no completion record in its type. *)
Definition IsAnonymousFunctionDefinition (expr : Node) : bool * list StaticCall :=
  let isFunctionDefinition := IsFunctionDefinition_Expression expr in
  let calls := [Calls_IsFunctionDefinition_Expression expr] in
  if Bool.eqb isFunctionDefinition false then
    (false, calls)
  else
    let hasName := HasName_Expression expr in
    let calls := (calls ++ [Calls_HasName_Expression expr])%list in
    if Bool.eqb hasName true then
      (false, calls)
    else
      (true, calls).
End IsAnonymousFunctionDefinition.
Arguments Calls_IsFunctionDefinition_Expression {Node} expr.
Arguments Calls_HasName_Expression {Node} expr.
End StaticSemantics.

(** * The command line program *)
Module CLI.

(** A result as the program tests it: [instanceof AbruptCompletion], with
    the carried [Value], or anything else. *)
Inductive Result (V X : Type) : Type :=
| IsAbrupt (value : V)
| NotAbrupt (x : X).
Arguments IsAbrupt {V X} value.
Arguments NotAbrupt {V X} x.

(** What the program does to the outside, in order. *)
Inductive Effect (V : Type) : Type :=
| Called (f thisArg : V)        (* Abstract.Call(f, thisArg) *)
| Inspected (value : V)         (* inspect(result, realm) *)
| StderrWrite (text : string)   (* process.stderr.write(text) *)
| ProcessExit (status : nat).   (* process.exit(status) *)
Arguments Called {V} f thisArg.
Arguments Inspected {V} value.
Arguments StderrWrite {V} text.
Arguments ProcessExit {V} status.

(** How the process ends: by [process.exit], or by an exception of the
    host that nothing catches, for which Node ends with status 1. *)
Inductive Ending : Type :=
| Exited (status : nat)
| Uncaught.

Definition exit_status (e : Ending) : nat :=
  match e with
  | Exited status => status
  | Uncaught => 1%nat
  end.

Definition newline : string := String (Ascii.ascii_of_nat 10) EmptyString.

Section RunFile.
(** The engine's API is taken as given. *)
Variable V : Type.                       (* engine values *)
Variable Module Promise : Type.
Variable Abstract_Type : V -> string.    (* Abstract.Type(v) *)
Variable stringValue : V -> option string.  (* v.stringValue(), where v has one *)
(** [realm.realm.Intrinsics['%Error.prototype%'].properties.get('toString').Value];
    the lookups may find nothing, and reading [.Value] then raises. *)
Variable errorToString : option V.
Variable Abstract_Call : V -> V -> Result V V.
Variable inspect : V -> string.   (* inspect(result, realm), by the value carried *)
Variable createSourceTextModule : string -> string -> Result V Module.
Variable Link : Module -> Result V unit.
Variable Evaluate : Module -> Result V Promise.
Variable PromiseState : Promise -> string.
Variable PromiseResult : Promise -> V.
Variable evaluateScript : string -> string -> Result V V.
Variable path_resolve1 : string -> string.   (* path.resolve(lastArg) *)

(** Modelled from the spec: the API helper [Throw(realm, value)], which is
    not among the sources; it gives the throw completion carrying
    [value] ("Uncaught throw completions surface ... carrying the wrapped
    value"). *)
Definition Throw {X : Type} (value : V) : Result V X := IsAbrupt value.

(** The [result] of lines 173-191: module or script evaluation. *)
Definition evaluate_file (asModule : bool) (lastArg source : string) : Result V unit :=
  if asModule then
    match createSourceTextModule (path_resolve1 lastArg) source with
    | IsAbrupt value => IsAbrupt value
    | NotAbrupt module =>
        (* realm.moduleEntry = module *)
        match Link module with
        | IsAbrupt value => IsAbrupt value
        | NotAbrupt _ =>
            match Evaluate module with
            | IsAbrupt value => IsAbrupt value
            | NotAbrupt promise =>
                if String.eqb (PromiseState promise) "rejected"
                then Throw (PromiseResult promise)
                else NotAbrupt tt
            end
        end
    end
  else
    match evaluateScript source (path_resolve1 lastArg) with
    | IsAbrupt value => IsAbrupt value
    | NotAbrupt _ => NotAbrupt tt
    end.

(** [inspected] of lines 193-199, with what was called to get it; [None]
    when the host raises an exception on the way. *)
Definition stringify (value : V) : option string * list (Effect V) :=
  if String.eqb (Abstract_Type value) "Object" then
    match errorToString with
    | None => (None, [])
    | Some f =>
        match Abstract_Call f value with
        | NotAbrupt s => (stringValue s, [Called f value])
        | IsAbrupt _ => (None, [Called f value])
        end
    end
  else (Some (inspect value), [Inspected value]).

(** Lines 192-204. *)
Definition report {X : Type} (result : Result V X) : list (Effect V) * Ending :=
  match result with
  | IsAbrupt value =>
      match stringify value with
      | (Some inspected, effects) =>
          ((effects ++ [StderrWrite (inspected ++ newline); ProcessExit 1%nat])%list,
           Exited 1%nat)
      | (None, effects) => (effects, Uncaught)
      end
  | NotAbrupt _ => ([ProcessExit 0%nat], Exited 0%nat)
  end.

Definition run_file (asModule : bool) (lastArg source : string)
    : list (Effect V) * Ending :=
  report (evaluate_file asModule lastArg source).

(** The text written to stderr, if any, comes right after its
    stringification by [how], and is followed by [process.exit(1)]. *)
Definition writes_after (how : Effect V) (text : string) (effects : list (Effect V)) : Prop :=
  effects = [how; StderrWrite (text ++ newline); ProcessExit 1%nat].
End RunFile.

(** ** The module resolution hook of createRealm *)

(** A module record, as far as the hook is concerned: its identity and its
    specifier. *)
Record Module : Type := mkModule {
  module_id : nat;
  specifier : string;
}.

(** A throw completion: the kind and message of its error. *)
Record ThrowRecord : Type := mkThrow {
  error_kind : string;
  error_message : string;
}.

(** What the hook returns, and what the cache holds. *)
Inductive Resolved : Type :=
| ResolvedModule (m : Module)
| ResolvedThrow (c : ThrowRecord).

(** The state the hook closes over: [realm.moduleEntry], [moduleCache], and
    the count of module records the realm has made so far. *)
Record RealmState : Type := mkRealmState {
  moduleEntry : option Module;
  moduleCache : gmap string Resolved;
  modules_made : nat;
}.

(** The state [createRealm] starts the hook in. *)
Definition createRealm_state : RealmState :=
  mkRealmState None ∅ 0.

Section Resolve.
(** Node's [path] and [fs], and the parser, are taken as given. *)
Variable path_resolve : string -> string -> string.
Variable path_dirname : string -> string.
Variable existsSync : string -> bool.
Variable readFileSync : string -> string.
Variable parse_error : string -> option ThrowRecord.

(** Modelled from the spec: [realm.createSourceTextModule(specifier,
    source)], which is not among the sources: "parse as a module",
    giving a Module or a throw.  A module made is a new record. *)
Definition createSourceTextModule (specifier source : string) (st : RealmState)
    : Resolved * RealmState :=
  match parse_error source with
  | Some c => (ResolvedThrow c, st)
  | None =>
      (ResolvedModule (mkModule (modules_made st) specifier),
       mkRealmState (moduleEntry st) (moduleCache st) (Datatypes.S (modules_made st)))
  end.

(** [resolveImportedModule(referencingModule, specifier)] *)
Definition resolveImportedModule (st : RealmState)
    (referencingModule : Module) (specifier_ : string) : Resolved * RealmState :=
  let resolved := path_resolve (path_dirname (specifier referencingModule)) specifier_ in
  (* realm.moduleEntry && resolved === realm.moduleEntry.specifier *)
  let entry_hit :=
    match moduleEntry st with
    | Some entry => if String.eqb resolved (specifier entry) then Some entry else None
    | None => None
    end in
  match entry_hit with
  | Some entry => (ResolvedModule entry, st)
  | None =>
      match moduleCache st !! resolved with
      | Some m => (m, st)
      | None =>
          if negb (existsSync resolved) then
            (ResolvedThrow (mkThrow "Error" ("Cannot resolve module " ++ specifier_)), st)
          else
            let source := readFileSync resolved in
            let '(m, st') := createSourceTextModule resolved source st in
            (m, mkRealmState (moduleEntry st') (<[resolved := m]> (moduleCache st'))
                   (modules_made st'))
      end
  end.

(** The path a call resolves to, and whether it names the module entry. *)
Definition resolved_path (referencingModule : Module) (specifier_ : string) : string :=
  path_resolve (path_dirname (specifier referencingModule)) specifier_.

Definition names_entry (st : RealmState) (resolved : string) (m : Module) : Prop :=
  moduleEntry st = Some m /\ resolved = specifier m.

(** Every cached path and the entry's path are files on disk. *)
Definition on_disk (st : RealmState) : Prop :=
  (forall p r, moduleCache st !! p = Some r -> existsSync p = true) /\
  (forall e, moduleEntry st = Some e -> existsSync (specifier e) = true).

(** A sequence of calls of the hook; the state after them. *)
Definition resolve_all (st : RealmState) (calls : list (Module * string)) : RealmState :=
  fold_left (fun st call => (resolveImportedModule st call.1 call.2).2) calls st.

(** The call for [resolved] is settled on [m]: the entry, or the cache. *)
Definition settled (st : RealmState) (resolved : string) (m : Module) : Prop :=
  names_entry st resolved m \/
  ((forall e, moduleEntry st = Some e -> resolved <> specifier e) /\
   moduleCache st !! resolved = Some (ResolvedModule m)).
End Resolve.
End CLI.

(** * A heap of objects with data properties

    The abstract operations are not among the sources.  To run the methods
    they are modelled here from the specification, for the objects the
    scenarios need: ordinary objects and arrays whose properties are data
    properties (writable, enumerable, configurable), with no prototype to
    inherit from and no function among them.  "length" of an array is
    kept coherent as the specification asks. *)

Inductive Class : Type := ClassOrdinary | ClassArray.

(** An object: its kind, its own string-keyed data properties, and the value
    of its [@@isConcatSpreadable] property ([Undefined] when it has none;
    the other property keys of the model are strings). *)
Record Object : Type := mkObject {
  class : Class;
  properties : gmap string Value;
  isConcatSpreadable : Value;
}.

Record Heap : Type := mkHeap {
  objects : gmap N Object;
  next_address : N;
}.

Definition empty_object : Object := mkObject ClassOrdinary ∅ Undefined.

Definition lookup_object (h : Heap) (l : N) : Object :=
  default empty_object (objects h !! l).

Definition store_object (h : Heap) (l : N) (o : Object) : Heap :=
  mkHeap (<[l := o]> (objects h)) (next_address h).

Definition allocate (h : Heap) (o : Object) : N * Heap :=
  let l := next_address h in
  (l, mkHeap (<[l := o]> (objects h)) (N.succ l)).

Definition TypeError {X : Type} : Completion X :=
  ThrowCompletion (NativeError "TypeError" NoMessage).
Definition RangeError {X : Type} : Completion X :=
  ThrowCompletion (NativeError "RangeError" NoMessage).

(** Modelled from the spec: ToNumber on the values of the model.  An object
    of this heap has no callable valueOf or toString, so its conversion to
    a primitive is a TypeError. *)
Definition ToNumber (v : Value) : Completion Number :=
  match v with
  | Undefined => NormalCompletion NaN
  | Null => NormalCompletion (Int 0)
  | Bool b => NormalCompletion (Int (if b then 1 else 0))
  | Num n => NormalCompletion n
  | Obj _ => TypeError
  end.

(** Modelled from the spec: ToInteger (NaN becomes 0). *)
Definition host_ToInteger (v : Value) : Completion Integer :=
  match ToNumber v with
  | NormalCompletion NaN => NormalCompletion (Fin 0)
  | NormalCompletion (Int z) => NormalCompletion (Fin z)
  | NormalCompletion PosInfinity => NormalCompletion PInf
  | NormalCompletion NegInfinity => NormalCompletion NInf
  | AbruptCompletion t e => AbruptCompletion t e
  end.

(** Modelled from the spec: "ToLength clamps to [0, 2^53-1]". *)
Definition host_ToLength (v : Value) : Completion Z :=
  match host_ToInteger v with
  | NormalCompletion (Fin z) => NormalCompletion (Z.min (Z.max z 0) MAX_SAFE_INTEGER)
  | NormalCompletion PInf => NormalCompletion MAX_SAFE_INTEGER
  | NormalCompletion NInf => NormalCompletion 0
  | AbruptCompletion t e => AbruptCompletion t e
  end.

(** Modelled from the spec: ToBoolean. *)
Definition host_ToBoolean (v : Value) : bool :=
  match v with
  | Undefined | Null => false
  | Bool b => b
  | Num NaN => false
  | Num (Int z) => negb (z =? 0)
  | Num _ => true
  | Obj _ => true
  end.

(** An array index: the canonical decimal string of an integer in
    [0, 2^32 - 2]. *)
Definition array_index (P : PropertyKey) : option Z :=
  match NilZero.int_of_string P with
  | Some d =>
      let i := Z.of_int d in
      if String.eqb (ToString i) P && (0 <=? i) && (i <? 2 ^ 32 - 1)
      then Some i else None
  | None => None
  end.

Definition array_length (o : Object) : Z :=
  match properties o !! "length" with
  | Some (Num (Int n)) => n
  | _ => 0
  end.

Definition with_property (o : Object) (P : PropertyKey) (V : Value) : Object :=
  mkObject (class o) (<[P := V]> (properties o)) (isConcatSpreadable o).

(** Modelled from the spec: setting "length" of an array to [n] deletes the
    own properties whose index is [n] or more (all are configurable here). *)
Definition below_length (n : Z) (P : PropertyKey) : bool :=
  match array_index P with
  | Some i => i <? n
  | None => true
  end.

Definition set_array_length (o : Object) (n : Z) : Object :=
  mkObject (class o)
    (<["length" := Num (Int n)]>
       (filter (fun kv : PropertyKey * Value => below_length n kv.1 = true) (properties o)))
    (isConcatSpreadable o).

(** Modelled from the spec: [[DefineOwnProperty]] with a value, on an
    ordinary object and on an array ("setting an integer-index property
    beyond current length raises length to index+1"; a length that is not
    an integer in [0, 2^32 - 1] is a RangeError). *)
Definition define_value (o : Object) (P : PropertyKey) (V : Value) : Completion Object :=
  match class o with
  | ClassOrdinary => NormalCompletion (with_property o P V)
  | ClassArray =>
      if String.eqb P "length" then
        match ToNumber V with
        | NormalCompletion (Int n) =>
            if (0 <=? n) && (n <? 2 ^ 32)
            then NormalCompletion (set_array_length o n)
            else RangeError
        | NormalCompletion _ => RangeError
        | AbruptCompletion t e => AbruptCompletion t e
        end
      else
        match array_index P with
        | Some i =>
            let o' := with_property o P V in
            if array_length o <=? i
            then NormalCompletion (with_property o' "length" (Num (Int (i + 1))))
            else NormalCompletion o'
        | None => NormalCompletion (with_property o P V)
        end
  end.

Definition is_array (h : Heap) (v : Value) : bool :=
  match v with
  | Obj l => match class (lookup_object h l) with ClassArray => true | ClassOrdinary => false end
  | _ => false
  end.

Section HeapHost.
(** The body of sort lives in [ArrayPrototypeShared.mjs], which is not
    among the sources: it is taken as given. *)
Variable sortBody : Value -> Z -> Value -> Heap -> Completion Value * Heap.

(** Modelled from the spec: the abstract operations on this heap.  An
    operand that should be an object and is not is answered with a
    TypeError; the methods only pass on what ToObject gave them. *)
Definition heap_host : Host Heap := fun X e =>
  match e in Op X return Heap -> Completion X * Heap with
  | ToObject v => fun h =>
      match v with
      | Undefined | Null => (TypeError, h)
      | Bool _ | Num _ =>
          let '(l, h') := allocate h empty_object in (NormalCompletion (Obj l), h')
      | Obj l => (NormalCompletion (Obj l), h)
      end
  | ArraySpeciesCreate _ len => fun h =>
      if (0 <=? len) && (len <? 2 ^ 32) then
        let '(l, h') :=
          allocate h (mkObject ClassArray {["length" := Num (Int len)]} Undefined) in
        (NormalCompletion (Obj l), h')
      else (RangeError, h)
  | IsConcatSpreadable v => fun h =>
      match v with
      | Obj l =>
          match isConcatSpreadable (lookup_object h l) with
          | Undefined => (NormalCompletion (is_array h v), h)
          | spreadable => (NormalCompletion (host_ToBoolean spreadable), h)
          end
      | _ => (NormalCompletion false, h)
      end
  | Get v P => fun h =>
      match v with
      | Obj l => (NormalCompletion (default Undefined (properties (lookup_object h l) !! P)), h)
      | _ => (TypeError, h)
      end
  | ToLength v => fun h => (host_ToLength v, h)
  | ToInteger v => fun h => (host_ToInteger v, h)
  | HasProperty v P => fun h =>
      match v with
      | Obj l => (NormalCompletion (bool_decide (is_Some (properties (lookup_object h l) !! P))), h)
      | _ => (TypeError, h)
      end
  | CreateDataPropertyOrThrow v P V => fun h =>
      match v with
      | Obj l =>
          let o := lookup_object h l in
          match class o, String.eqb P "length" with
          | ClassArray, true => (TypeError, h)
          | _, _ =>
              match define_value o P V with
              | NormalCompletion o' => (NormalCompletion true, store_object h l o')
              | AbruptCompletion t e => (AbruptCompletion t e, h)
              end
          end
      | _ => (TypeError, h)
      end
  | Set_ v P V _ => fun h =>
      match v with
      | Obj l =>
          match define_value (lookup_object h l) P V with
          | NormalCompletion o' => (NormalCompletion true, store_object h l o')
          | AbruptCompletion t e => (AbruptCompletion t e, h)
          end
      | _ => (TypeError, h)
      end
  | DeletePropertyOrThrow v P => fun h =>
      match v with
      | Obj l =>
          let o := lookup_object h l in
          match class o, String.eqb P "length" with
          | ClassArray, true => (TypeError, h)
          | _, _ =>
              (NormalCompletion true,
               store_object h l (mkObject (class o) (delete P (properties o))
                                          (isConcatSpreadable o)))
          end
      | _ => (TypeError, h)
      end
  | IsArray v => fun h => (NormalCompletion (is_array h v), h)
  | IsCallable _ => fun h => (NormalCompletion false, h)
  | ToBoolean v => fun h => (NormalCompletion (host_ToBoolean v), h)
  | Call _ _ _ => fun h => (TypeError, h)
  | ArrayProto_sortBody obj len comparefn => fun h => sortBody obj len comparefn h
  end.
End HeapHost.

(** ** The scenarios' heaps *)

(** The array with the given elements, as [ArrayCreate] and
    [CreateDataProperty] build it. *)
Definition array_of (elements : list Value) : Object :=
  mkObject ClassArray
    (list_to_map (("length", Num (Int (Z.of_nat (length elements))))
                  :: imap (fun i v => (ToString (Z.of_nat i), v)) elements))
    Undefined.

Definition one (z : Z) : Value := Num (Int z).

(** [let a = [1,2,3]]: the array is the object at address 0. *)
Definition heap_123 : Heap :=
  mkHeap {[ 0%N := array_of [one 1; one 2; one 3] ]} 1.

(** [[[1,2],[3,[4]]]]: the receiver is at address 3; [[1,2]] at 0, [[4]] at
    1 and [[3,[4]]] at 2. *)
Definition heap_nested : Heap :=
  mkHeap {[ 0%N := array_of [one 1; one 2];
            1%N := array_of [one 4];
            2%N := array_of [one 3; Obj 1];
            3%N := array_of [Obj 0; Obj 2] ]} 4.

(** A stand-in for the sort body, for runs that never reach it. *)
Definition no_sort : Value -> Z -> Value -> Heap -> Completion Value * Heap :=
  fun obj _ _ h => (NormalCompletion obj, h).

(** An array-like object of length 2^53 - 1 at address 0, and one that is
    concat-spreadable at address 1; the empty array at address 2. *)
Definition heap_full : Heap :=
  mkHeap {[ 0%N := mkObject ClassOrdinary {["length" := one MAX_SAFE_INTEGER]} Undefined;
            1%N := mkObject ClassOrdinary {["length" := one MAX_SAFE_INTEGER]} (Bool true);
            2%N := array_of [] ]} 3.

(** ** The recursion budget of FlattenIntoArray *)

(** One turn of the [while (sourceIndex < sourceLen)] loop, with the
    recursive call as a parameter: the view of the loop body the proofs
    work with. *)
Definition flatten_turn (recur : Value -> Z -> Z -> Prog Z) (target source : Value)
    (depth : Integer) (mapperFunction thisArg : option Value)
    (st : Z * Z) : Prog (Z * Z) :=
  let '(sourceIndex, targetIndex) := st in
  let P := ToString sourceIndex in
  exists_ ← Q (HasProperty source P);
  targetIndex ← (if exists_ : bool then
      element ← Q (Get source P);
      element ← match mapperFunction with
                 | Some f =>
                     T ← Assert_present thisArg;
                     Q (Call f T [element; new_Value sourceIndex; source])
                 | None => Ret element
                 end;
      shouldFlatten ← (if Integer_gt0 depth then Q (IsArray element) else Ret false);
      if shouldFlatten : bool then
        lenProp ← Q (Get element "length");
        elementLen ← Q (ToLength lenProp);
        recur element elementLen targetIndex
      else
        if targetIndex >=? MAX_SAFE_INTEGER then
          Throw "TypeError" NoMessage
        else
          Q (CreateDataPropertyOrThrow target (ToString targetIndex) element);;
          Ret (targetIndex + 1)
    else Ret targetIndex);
  Ret (sourceIndex + 1, targetIndex).

(** [more_fuel p q]: [q] is [p] with the places where the budget ran out
    filled in. *)
Inductive more_fuel {A : Type} : Prog A -> Prog A -> Prop :=
| more_fuel_cut q : more_fuel (Abort OutOfFuel) q
| more_fuel_Ret a : more_fuel (Ret a) (Ret a)
| more_fuel_Throw kind m : more_fuel (Throw kind m) (Throw kind m)
| more_fuel_Abort r : more_fuel (Abort r) (Abort r)
| more_fuel_Vis {X : Type} (e : Op X) k k' :
    (forall x, more_fuel (k x) (k' x)) -> more_fuel (Vis e k) (Vis e k').

(** A run the budget did not cut. *)
Definition within_budget {S A : Type} (r : Run S A) : Prop :=
  outcome r <> Aborted OutOfFuel.

(** [safe J r]: the run [r] was not cut by the budget, and left a state
    that satisfies [J]. *)
Definition safe {S A : Type} (J : S -> Prop) (r : Run S A) : Prop :=
  within_budget r /\ J (final r).

(** No condition on the state. *)
Definition any_state {S : Type} : S -> Prop := fun _ => True.

(** A depth that counts down to zero within [n] steps. *)
Definition depth_within (depth : Integer) (n : nat) : Prop :=
  match depth with
  | Fin z => z <= Z.of_nat n
  | NInf => True
  | PInf => False
  end.

(** ** On the heap: elements that are arrays *)

(** [nests h l l']: the object at [l] has, at an integer index, an element
    that is the array at [l'] -- an element flattening would descend to. *)
Definition nests (h : Heap) (l l' : N) : Prop :=
  exists i, 0 <= i /\
    properties (lookup_object h l) !! ToString i = Some (Obj l') /\
    is_array h (Obj l') = true.

(** The element structure reachable from [source] is acyclic: no object
    reachable from the source through such elements is nested, however
    deep, in itself.  (It is finite, as the heap is.) *)
Definition acyclic_below (h : Heap) (source : Value) : Prop :=
  match source with
  | Obj src => forall l, rtc (nests h) src l -> ~ tc (nests h) l l
  | _ => True
  end.

(** A sufficient condition that can be checked: every array element is of
    strictly lower rank than the object that holds it. *)
Definition ranked (h : Heap) (rank : N -> nat) : Prop :=
  forall l l', nests h l l' -> (rank l' < rank l)%nat.

(** Flattening with depth Infinity only stores elements that are not
    arrays: a later heap [h] nests no more than the first, [h0], did. *)
Definition no_new_nesting (h0 h : Heap) : Prop :=
  forall l l', nests h l l' -> nests h0 l l'.

(** A heap passes [check_ranks] when every array element of every object
    is of lower rank than the object. *)
Definition check_ranks (h : Heap) (rank : N -> nat) : bool :=
  forallb (fun lo : N * Object =>
    forallb (fun pv : PropertyKey * Value =>
      match pv.2 with
      | Obj l' => if is_array h pv.2 then (rank l' <? rank lo.1)%nat else true
      | _ => true
      end) (map_to_list (properties lo.2)))
    (map_to_list (objects h)).

(** * What a method touches *)

(** [P] is the key of an index in [lo, hi). *)
Definition index_key (lo hi : Z) (P : PropertyKey) : Prop :=
  exists i, lo <= i < hi /\ P = ToString i.

(** What an event does to a property of an object. *)
Inductive Access : Type := Reads | Writes | Deletes.

Definition access (ev : Event) : option (Access * Value * PropertyKey) :=
  match ev with
  | Performed (Get obj P) _ => Some (Reads, obj, P)
  | Performed (HasProperty obj P) _ => Some (Reads, obj, P)
  | Performed (Set_ obj P _ _) _ => Some (Writes, obj, P)
  | Performed (CreateDataPropertyOrThrow obj P _) _ => Some (Writes, obj, P)
  | Performed (DeletePropertyOrThrow obj P) _ => Some (Deletes, obj, P)
  | Performed _ _ => None
  end.

(** An event of a method that works in place on [receiver], whose length
    is [len]: it makes no array and calls no function, and the property it
    touches, if any, is "length" or an index below [len] of the receiver. *)
Definition in_place (receiver : Value) (len : Z) (ev : Event) : Prop :=
  match ev with
  | Performed (ArraySpeciesCreate _ _) _ => False
  | Performed (Call _ _ _) _ => False
  | _ =>
      match access ev with
      | Some (_, obj, P) => obj = receiver /\ (P = "length" \/ index_key 0 len P)
      | None => True
      end
  end.

(** The methods that work in place and never grow the receiver. *)
Definition methods_in_place : list Method := [M_copyWithin; M_fill; M_pop; M_shift].

(** The methods that grow the receiver by the number of their arguments. *)
Definition methods_growing : list Method := [M_push; M_unshift].

(** What an event stores, where: a [Set] or a [CreateDataPropertyOrThrow]. *)
Definition stores (ev : Event) : option (Value * PropertyKey * Value) :=
  match ev with
  | Performed (Set_ obj P V _) _ => Some (obj, P, V)
  | Performed (CreateDataPropertyOrThrow obj P V) _ => Some (obj, P, V)
  | Performed _ _ => None
  end.

(** The stores of a run, in order. *)
Definition stored (tr : list Event) : list (Value * PropertyKey * Value) :=
  omap stores tr.

(** What push is to store on a receiver [obj] of length [len]: the items
    in order from index [len] on, then the new length. *)
Definition push_stores (obj : Value) (len : Z) (items : list Value)
    : list (Value * PropertyKey * Value) :=
  (imap (fun j E => (obj, ToString (len + Z.of_nat j), E)) items
   ++ [(obj, "length", new_Value (len + Z.of_nat (length items)))])%list.

(** ** Elements created in order *)

(** Where an event creates an element: a [CreateDataPropertyOrThrow]. *)
Definition created (ev : Event) : option (Value * PropertyKey) :=
  match ev with
  | Performed (CreateDataPropertyOrThrow obj P _) _ => Some (obj, P)
  | Performed _ _ => None
  end.

(** The places where a run creates elements, in order. *)
Definition creations (tr : list Event) : list (Value * PropertyKey) :=
  omap created tr.

(** The [n] indices of [target] from [start] on. *)
Definition consecutive (target : Value) (start : Z) (n : nat) : list (Value * PropertyKey) :=
  map (fun j => (target, ToString (start + Z.of_nat j))) (seq 0 n).

(** A run fills [target] from index [start] on without a gap, at indices
    that satisfy [ok]; [index] reads, from what the run returns, the index
    after the last element. *)
Definition dense {S A : Type} (target : Value) (start : Z) (ok : Z -> Prop)
    (index : A -> Z) (r : Run S A) : Prop :=
  exists n : nat,
    creations (trace r) = consecutive target start n /\
    (forall j, (j < n)%nat -> ok (start + Z.of_nat j)) /\
    forall a, outcome r = Returned a -> index a = start + Z.of_nat n.

(** A run fills the array it returns from index 0 on, without a gap. *)
Definition gapless {S : Type} (r : Run S Value) : Prop :=
  exists (A : Value) (n : nat),
    creations (trace r) = consecutive A 0 n /\
    forall v, outcome r = Returned v -> v = A.

(** The methods whose result has no hole, whatever the receiver holds. *)
Definition methods_gapless : list Method := [M_filter; M_flat; M_flatMap].

(** ** Methods that copy from the receiver *)

(** An event of a method that copies from [receiver], of length [len],
    into the array [A] that ArraySpeciesCreate gave it: it reads "length" or
    an index below [len] of the receiver, creates elements of [A] at indices
    below [len], sets nothing but the "length" of [A], and deletes nothing. *)
Definition copying (receiver : Value) (len : Z) (A : Value) (ev : Event) : Prop :=
  match ev with
  | Performed e r =>
      match e in Op X return Completion X -> Prop with
      | Get obj P => fun _ => obj = receiver /\ (P = "length" \/ index_key 0 len P)
      | HasProperty obj P => fun _ => obj = receiver /\ (P = "length" \/ index_key 0 len P)
      | CreateDataPropertyOrThrow obj P _ => fun _ => obj = A /\ index_key 0 len P
      | Set_ obj P _ _ => fun _ => obj = A /\ P = "length"
      | DeletePropertyOrThrow _ _ => fun _ => False
      | ArraySpeciesCreate obj _ => fun r =>
          obj = receiver /\ forall A', r = NormalCompletion A' -> A' = A
      | _ => fun _ => True
      end r
  end.

Definition methods_copying : list Method := [M_filter; M_map; M_slice].

(** A run copies from [receiver] into the array it made, and returns it. *)
Definition copies_from {S : Type} (receiver : Value) (len : Z) (r : Run S Value) : Prop :=
  exists A : Value,
    Forall (copying receiver len A) (trace r) /\
    forall v, outcome r = Returned v -> v = A.

(** ** Array.prototype.toString *)

(** 22.1.3.28 Array.prototype.toString.  [ObjProto_toString] is what
    [surroundingAgent.intrinsic('%ObjProto_toString%')] gives; [Call] is
    given no argument list, which is the empty one. *)
Definition ArrayProto_toString (ObjProto_toString : Value)
    (a : list Value) (thisValue : Value) : Prog Value :=
  array ← Q (ToObject thisValue);
  func ← Q (Get array "join");
  callable ← Q (IsCallable func);
  let func := if Bool.eqb callable false then ObjProto_toString else func in
  Q (Call func array []).

(** ** The lengths slice and splice set *)

(** An event of a slice whose result has [count] elements: the array is
    made with that length, and the only value set is that length. *)
Definition slice_count (count : Z) (ev : Event) : Prop :=
  match ev with
  | Performed (ArraySpeciesCreate _ c) _ => c = count
  | Performed (Set_ _ P V _) _ => P = "length" /\ V = new_Value count
  | Performed _ _ => True
  end.

(** An event of a splice of [receiver], of length [len], that removes
    [actualDeleteCount] elements from [actualStart] on and puts [itemCount]
    items in their place; [A] is the array of the removed elements.  The
    receiver is touched from [actualStart] on only, below its old or its new
    length. *)
Definition splicing (receiver : Value) (len actualStart actualDeleteCount itemCount : Z)
    (A : Value) (ev : Event) : Prop :=
  let newLen := len - actualDeleteCount + itemCount in
  match ev with
  | Performed e r =>
      match e in Op X return Completion X -> Prop with
      | Get obj P => fun _ =>
          obj = receiver /\ (P = "length" \/ index_key actualStart len P)
      | HasProperty obj P => fun _ =>
          obj = receiver /\ index_key actualStart len P
      | ArraySpeciesCreate obj c => fun r =>
          obj = receiver /\ c = actualDeleteCount /\
          forall A', r = NormalCompletion A' -> A' = A
      | CreateDataPropertyOrThrow obj P _ => fun _ =>
          obj = A /\ index_key 0 actualDeleteCount P
      | Set_ obj P V _ => fun _ =>
          (obj = A /\ P = "length" /\ V = new_Value actualDeleteCount) \/
          (obj = receiver /\ P = "length" /\ V = new_Value newLen) \/
          (obj = receiver /\ index_key actualStart (Z.max len newLen) P)
      | DeletePropertyOrThrow obj P => fun _ =>
          obj = receiver /\ index_key actualStart (Z.max len newLen) P
      | Call _ _ _ => fun _ => False
      | _ => fun _ => True
      end r
  end.

(** * The command line program: more of createRealm *)
Module CLIRealm.
Import CLI.

(** ** The cache of the module resolution hook *)

(** Every module in the cache sits under its own specifier. *)
Definition cache_by_specifier (st : RealmState) : Prop :=
  forall p m, moduleCache st !! p = Some (ResolvedModule m) -> specifier m = p.

(** ** The global function [print] *)

(** A write to [process.stdout]: of what [ToString] gave, or of a literal. *)
Inductive Written (X : Type) : Type :=
| WroteValue (s : X)
| WroteText (text : string).
Arguments WroteValue {X} s.
Arguments WroteText {X} text.

Section Print.
(** The engine's API is taken as given: [ToString(realm, arg)] answers an
    abrupt completion or something else, which is written as it is. *)
Variable V X : Type.
Variable API_ToString : V -> Result V X.
Variable Value_undefined : V.

(** The [for (const arg of args)] loop of lines 47-54: what it leaves the
    function with, if anything, and what it wrote. *)
Fixpoint print_loop (args : list V) : option V * list (Written X) :=
  match args with
  | [] => (None, [])
  | arg :: args' =>
      match API_ToString arg with
      | IsAbrupt value => (Some value, [])
      | NotAbrupt s =>
          let '(returned, written) := print_loop args' in
          (returned, WroteValue s :: WroteText " " :: written)
      end
  end.

(** Lines 46-57: the function behind the global [print]. *)
Definition print (args : list V) : Result V V * list (Written X) :=
  match print_loop args with
  | (Some value, written) => (IsAbrupt value, written)
  | (None, written) => (NotAbrupt Value_undefined, (written ++ [WroteText newline])%list)
  end.

End Print.
End CLIRealm.

(** * Arrays on the heap *)

(** The data properties of the elements of an array, by index. *)
Definition element_properties (elements : list Value) : gmap string Value :=
  list_to_map (imap (fun i v => (ToString (Z.of_nat i), v)) elements).

(** An array whose "length" is [len] and whose elements, from index 0 on
    without a gap, are [elements]: what [ArraySpeciesCreate(O, len)] gives,
    filled so far.  [array_of elements] is the one whose length is the number
    of its elements. *)
Definition array_with (len : Z) (elements : list Value) : Object :=
  mkObject ClassArray (<["length" := Num (Int len)]> (element_properties elements)) Undefined.

(** A run that returns [a] and leaves the state [s']. *)
Definition runs_to {S A : Type} (host : Host S) (p : Prog A) (s : S) (a : A) (s' : S) : Prop :=
  outcome (exec host p s) = Returned a /\ final (exec host p s) = s'.

(** What concat takes from an item [E] on the heap [h]: the elements of an
    array, or the item itself when it is not an object. *)
Definition spreads (h : Heap) (E : Value) (part : list Value) : Prop :=
  match E with
  | Obj b => objects h !! b = Some (array_of part)
  | _ => part = [E]
  end.

(** ** Arrays with holes *)

(** The data properties of elements given by index, [None] being a hole;
    [i] is the index of the first. *)
Fixpoint sparse_properties (i : nat) (elements : list (option Value)) : gmap string Value :=
  match elements with
  | [] => ∅
  | o :: elements' =>
      let m := sparse_properties (Datatypes.S i) elements' in
      match o with
      | Some v => <[ToString (Z.of_nat i) := v]> m
      | None => m
      end
  end.

(** An array whose "length" is [len] and whose elements are [elements]. *)
Definition sparse_array (len : Z) (elements : list (option Value)) : Object :=
  mkObject ClassArray (<["length" := Num (Int len)]> (sparse_properties 0 elements)) Undefined.

(** The elements [f 0], ..., [f (n - 1)]. *)
Definition table {A : Type} (n : nat) (f : nat -> A) : list A := map f (seq 0 n).

(** * Results *)

(** ** General facts about runs *)
Section Exec.
Context {S : Type} (host : Host S).

Lemma exec_bind {A B : Type} (p : Prog A) (f : A -> Prog B) (s : S) :
  exec host (bind p f) s =
  let r := exec host p s in
  match outcome r with
  | Completed (NormalCompletion a) =>
      let r' := exec host (f a) (final r) in
      mkRun (outcome r') (final r') (trace r ++ trace r')
  | Completed (AbruptCompletion t v) =>
      mkRun (Completed (AbruptCompletion t v)) (final r) (trace r)
  | Aborted why => mkRun (Aborted why) (final r) (trace r)
  end.
Proof.
  revert s. induction p as [a|X e k IH|kind m|why]; intros s; simpl.
  - destruct (exec host (f a) s); reflexivity.
  - destruct (host X e s) as [[x|t v] s']; simpl; [|reflexivity].
    rewrite IH. simpl.
    destruct (outcome (exec host (k x) s')) as [[a|t v]|why]; reflexivity.
  - reflexivity.
  - reflexivity.
Qed.

Lemma exec_Vis_normal {A X : Type} (e : Op X) (k : X -> Prog A) s x s' :
  host _ e s = (NormalCompletion x, s') ->
  exec host (Vis e k) s = log (Performed e (NormalCompletion x)) (exec host (k x) s').
Proof. intros H. simpl. rewrite H. reflexivity. Qed.

Lemma exec_Vis_abrupt {A X : Type} (e : Op X) (k : X -> Prog A) s t v s' :
  host _ e s = (AbruptCompletion t v, s') ->
  exec host (Vis e k) s =
  mkRun (Completed (AbruptCompletion t v)) s' [Performed e (AbruptCompletion t v)].
Proof. intros H. simpl. rewrite H. reflexivity. Qed.

Lemma Run_eta {A : Type} (r : Run S A) : r = mkRun (outcome r) (final r) (trace r).
Proof. destruct r; reflexivity. Qed.

(** Every method that opens with ToObject, Get "length", ToLength starts
    with [read_length]. *)
Lemma starts_with_read_length {A : Type} (k : Value -> Z -> Prog A) thisValue s :
  starts_with host (read_length host thisValue s) (fun '(obj, len) => k obj len)
    (exec host (O ← Q (ToObject thisValue);
                lenProp ← Q (Get O "length");
                len ← Q (ToLength lenProp);
                k O len) s).
Proof.
  unfold starts_with, read_length, get_length. simpl.
  destruct (host _ (ToObject thisValue) s) as [[obj|t v] s1]; [|reflexivity].
  simpl. destruct (host _ (Get obj "length") s1) as [[lenProp|t v] s2]; [|reflexivity].
  simpl. destruct (host _ (ToLength lenProp) s2) as [[len|t v] s3]; [|reflexivity].
  simpl. reflexivity.
Qed.
End Exec.

(** ** Callback checks of filter, map, flatMap and sort *)
Section CallbackCheckFacts.
Context {S : Type} (host : Host S).

Lemma rejects_after_length_intro (f thisValue : Value) (k : Value -> Z -> Prog Value)
    (m : Message) (s : S) :
  not_callable host f ->
  rejects_after_length host f thisValue s
    (exec host (O ← Q (ToObject thisValue);
                lenProp ← Q (Get O "length");
                len ← Q (ToLength lenProp);
                callable ← Q (IsCallable f);
                if negb callable then Throw "TypeError" m else k O len) s).
Proof.
  intros Hf. unfold rejects_after_length, read_length, get_length. simpl.
  destruct (host _ (ToObject thisValue) s) as [[obj|t v] s1]; [|reflexivity].
  simpl. destruct (host _ (Get obj "length") s1) as [[lenProp|t v] s2]; [|reflexivity].
  simpl. destruct (host _ (ToLength lenProp) s2) as [[len|t v] s3]; [|reflexivity].
  simpl. specialize (Hf s3).
  destruct (host _ (IsCallable f) s3) as [c s4]. simpl in Hf. subst c.
  simpl. exists m. reflexivity.
Qed.

Lemma rejects_never_calls (f thisValue : Value) (s : S) (r : Run S Value) :
  rejects_after_length host f thisValue s r ->
  forallb (fun ev => negb (is_Call ev)) (trace r) = true.
Proof.
  unfold rejects_after_length, read_length, get_length.
  destruct (host _ (ToObject thisValue) s) as [[obj|t v] s1];
    [|intros ->; reflexivity].
  destruct (host _ (Get obj "length") s1) as [[lenProp|t v] s2];
    [|intros ->; reflexivity].
  destruct (host _ (ToLength lenProp) s2) as [[len|t v] s3];
    [|intros ->; reflexivity].
  intros [m ->]. reflexivity.
Qed.
End CallbackCheckFacts.

(** C4.  A callback that is not callable makes filter, map and flatMap
    return a throw completion carrying a TypeError, after the receiver's
    length has been read and coerced (an abrupt completion of that reading
    comes first) and without any call; sort, given a comparefn that is
    neither undefined nor callable, throws the TypeError before ToObject:
    the check is the only operation of the run. *)
Theorem noncallable_callback_TypeError :
  forall (S : Type) (host : Host S) (f : Value),
    not_callable host f ->
    forall (fuel : nat) (args : list Value) (thisValue : Value) (s : S),
      arg args 0 = f ->
      (forall m, In m [M_filter; M_map; M_flatMap] ->
         let r := exec host (ArrayProto m fuel args thisValue) s in
         rejects_after_length host f thisValue s r /\
         forallb (fun ev => negb (is_Call ev)) (trace r) = true) /\
      (f <> Undefined ->
         exec host (ArrayProto M_sort fuel args thisValue) s =
         mkRun (Thrown "TypeError" (NotAFunction f)) (host _ (IsCallable f) s).2
               [Performed (IsCallable f) (NormalCompletion false)]).
Proof.
  intros S host f Hf fuel args thisValue s Harg. split.
  - intros m Hm r.
    assert (Hr : rejects_after_length host f thisValue s r).
    { subst r. simpl in Hm.
      destruct Hm as [<-|[<-|[<-|[]]]]; simpl;
        unfold ArrayProto_filter, ArrayProto_map, ArrayProto_flatMap;
        rewrite Harg;
        eapply (rejects_after_length_intro host f thisValue); exact Hf. }
    split; [exact Hr|]. eapply rejects_never_calls; exact Hr.
  - intros Hne. simpl. unfold ArrayProto_sort. rewrite Harg.
    destruct f; try congruence; simpl;
      specialize (Hf s);
      match goal with |- context [host bool ?e s] =>
        destruct (host bool e s) as [c s']; simpl in Hf; subst c end;
      reflexivity.
Qed.

(** ** Properties of traces through loops *)
Section Traces.
Context {S : Type} (host : Host S).

Lemma trace_bind_Forall {A B : Type} (P : Event -> Prop)
    (p : Prog A) (f : A -> Prog B) (s : S) :
  Forall P (trace (exec host p s)) ->
  (forall a, outcome (exec host p s) = Returned a ->
             Forall P (trace (exec host (f a) (final (exec host p s))))) ->
  Forall P (trace (exec host (bind p f) s)).
Proof.
  intros Hp Hf. rewrite exec_bind. simpl.
  destruct (outcome (exec host p s)) as [[a|t v]|why]; simpl; try assumption.
  apply Forall_app. split; [assumption|]. apply Hf. reflexivity.
Qed.

Lemma outcome_bind_Returned {A B : Type} (p : Prog A) (f : A -> Prog B) (s : S) (b : B) :
  outcome (exec host (bind p f) s) = Returned b ->
  exists a, outcome (exec host p s) = Returned a /\
            outcome (exec host (f a) (final (exec host p s))) = Returned b.
Proof.
  rewrite exec_bind. simpl.
  destruct (outcome (exec host p s)) as [[a|t v]|why]; simpl; try discriminate.
  intros H. exists a. split; [reflexivity|assumption].
Qed.

Lemma trace_Q_Forall {X : Type} (P : Event -> Prop) (e : Op X) (s : S) :
  (forall r, P (Performed e r)) ->
  Forall P (trace (exec host (Q e) s)).
Proof.
  intros HP. unfold Q. simpl.
  destruct (host X e s) as [[x|t v] s']; simpl; repeat constructor; apply HP.
Qed.

(** A loop keeps a property of its events when every turn does; [I c st]
    is the invariant with [c] turns left. *)
Lemma iterate_Forall {St : Type} (P : Event -> Prop) (I : nat -> St -> Prop)
    (body : St -> Prog St) :
  (forall c st s, I (Datatypes.S c) st ->
      Forall P (trace (exec host (body st) s)) /\
      forall st', outcome (exec host (body st) s) = Returned st' -> I c st') ->
  forall n st s, I n st ->
    Forall P (trace (exec host (iterate n body st) s)) /\
    forall st', outcome (exec host (iterate n body st) s) = Returned st' -> I 0%nat st'.
Proof.
  intros Hbody. induction n as [|n IH]; intros st s HI; simpl.
  - split; [constructor|]. intros st' [= <-]. assumption.
  - destruct (Hbody n st s HI) as [Ht Hst]. split.
    + apply trace_bind_Forall; [assumption|].
      intros st' Hout. apply IH. apply Hst. assumption.
    + intros st'' Hout. apply outcome_bind_Returned in Hout.
      destruct Hout as (st' & H1 & H2).
      eapply IH; [apply Hst; eassumption|eassumption].
Qed.

Lemma for_each_Forall {St : Type} (P : Event -> Prop) (I : St -> Prop)
    (body : Value -> St -> Prog St) :
  (forall E st s, I st ->
      Forall P (trace (exec host (body E st) s)) /\
      forall st', outcome (exec host (body E st) s) = Returned st' -> I st') ->
  forall items st s, I st ->
    Forall P (trace (exec host (for_each items body st) s)) /\
    forall st', outcome (exec host (for_each items body st) s) = Returned st' -> I st'.
Proof.
  intros Hbody. induction items as [|E items IH]; intros st s HI; simpl.
  - split; [constructor|]. intros st' [= <-]. assumption.
  - destruct (Hbody E st s HI) as [Ht Hst]. split.
    + apply trace_bind_Forall; [assumption|].
      intros st' Hout. apply IH. apply Hst. assumption.
    + intros st'' Hout. apply outcome_bind_Returned in Hout.
      destruct Hout as (st' & H1 & H2).
      eapply IH; [apply Hst; eassumption|eassumption].
Qed.
End Traces.

(** ** pop and shift on an empty receiver *)

(** Splitting a successful [read_length] into the three answers of the host. *)
Lemma read_length_normal {S : Type} (host : Host S) thisValue s obj len s' tr :
  read_length host thisValue s = (NormalCompletion (obj, len), s', tr) ->
  exists lenProp s1 s2,
    host _ (ToObject thisValue) s = (NormalCompletion obj, s1) /\
    host _ (Get obj "length") s1 = (NormalCompletion lenProp, s2) /\
    host _ (ToLength lenProp) s2 = (NormalCompletion len, s') /\
    tr = [Performed (ToObject thisValue) (NormalCompletion obj);
          Performed (Get obj "length") (NormalCompletion lenProp);
          Performed (ToLength lenProp) (NormalCompletion len)].
Proof.
  unfold read_length, get_length.
  destruct (host _ (ToObject thisValue) s) as [[obj'|t v] s1] eqn:E1; [|discriminate].
  destruct (host _ (Get obj' "length") s1) as [[lenProp|t v] s2] eqn:E2; [|discriminate].
  destruct (host _ (ToLength lenProp) s2) as [[len'|t v] s3] eqn:E3; [|discriminate].
  intros H. injection H as -> -> -> <-.
  exists lenProp, s1, s2. repeat split; assumption.
Qed.

(** Step a run through operations whose answers are known. *)
Ltac run_known :=
  repeat (simpl;
          match goal with
          | H : ?host _ ?e ?s = _ |- context [?host _ ?e ?s] => rewrite H
          end);
  simpl.

(** C9.  When the receiver's length coerces to 0, pop and shift still do
    [Set(O, "length", 0, true)]: the run is the reading of the length and
    then that Set, whose abrupt completion is the result; otherwise the
    result is undefined. *)
Theorem pop_shift_empty_sets_length :
  forall (S : Type) (host : Host S) (m : Method) (fuel : nat)
         (args : list Value) (thisValue : Value) (s s1 : S) (obj : Value)
         (tr : list Event),
    In m [M_pop; M_shift] ->
    read_length host thisValue s = (NormalCompletion (obj, 0), s1, tr) ->
    exec host (ArrayProto m fuel args thisValue) s =
    match host _ (Set_ obj "length" (new_Value 0) true) s1 with
    | (NormalCompletion b, s2) =>
        mkRun (Returned Undefined) s2
              (tr ++ [Performed (Set_ obj "length" (new_Value 0) true) (NormalCompletion b)])
    | (AbruptCompletion t v, s2) =>
        mkRun (Completed (AbruptCompletion t v)) s2
              (tr ++ [Performed (Set_ obj "length" (new_Value 0) true) (AbruptCompletion t v)])
    end.
Proof.
  intros S host m fuel args thisValue s s1 obj tr Hm Hread.
  apply read_length_normal in Hread.
  destruct Hread as (lenProp & sa & sb & H1 & H2 & H3 & ->).
  destruct Hm as [<-|[<-|[]]]; simpl;
    unfold ArrayProto_pop, ArrayProto_shift; run_known;
    destruct (host _ (Set_ obj "length" (new_Value 0) true) s1) as [[b|t v] s2];
    reflexivity.
Qed.

(** ** Past the bound 2^53 - 1 *)
Section SafeLength.
Context {S : Type} (host : Host S).

Lemma concat_item_within (A E : Value) (n : Z) (s : S) :
  0 <= n <= MAX_SAFE_INTEGER ->
  Forall within_safe_length (trace (exec host (concat_item A E n) s)) /\
  forall n', outcome (exec host (concat_item A E n) s) = Returned n' ->
             0 <= n' <= MAX_SAFE_INTEGER.
Proof.
  intros Hn. unfold concat_item. simpl.
  destruct (host _ (IsConcatSpreadable E) s) as [[[|]|t v] s1]; simpl.
  - destruct (host _ (Get E "length") s1) as [[lenProp|t v] s2]; simpl.
    2:{ split; [repeat constructor|discriminate]. }
    destruct (host _ (ToLength lenProp) s2) as [[len|t v] s3]; simpl.
    2:{ split; [repeat constructor|discriminate]. }
    destruct (n + len >? MAX_SAFE_INTEGER) eqn:Hcmp; simpl.
    { split; [repeat constructor|discriminate]. }
    assert (Hle : n + len <= MAX_SAFE_INTEGER) by lia.
    pose proof (iterate_Forall host within_safe_length
      (fun c '(_, n0) => 0 <= n0 /\ n0 + Z.of_nat c <= MAX_SAFE_INTEGER)
      (fun '(k, n0) =>
         exists_ ← Q (HasProperty E (ToString k));
         (if exists_ : bool then
            subElement ← Q (Get E (ToString k));
            Q (CreateDataPropertyOrThrow A (ToString n0) subElement);;
            Ret tt
          else Ret tt);;
         Ret (k + 1, n0 + 1))) as Hloop.
    match type of Hloop with ?P -> _ => assert (Hb : P) end.
    { clear. intros c [k n0] s [H0 H1]. simpl.
      destruct (host _ (HasProperty E (ToString k)) s) as [[[|]|t v] s1]; simpl.
      - destruct (host _ (Get E (ToString k)) s1) as [[sub|t v] s2]; simpl.
        2:{ split; [repeat constructor|discriminate]. }
        destruct (host _ (CreateDataPropertyOrThrow A (ToString n0) sub) s2)
          as [[b|t v] s3]; simpl.
        + split.
          * repeat constructor. exists n0. split; [lia|reflexivity].
          * intros [k' n'] [= <- <-]. lia.
        + split; [|discriminate].
          repeat constructor. exists n0. split; [lia|reflexivity].
      - split; [repeat constructor|]. intros [k' n'] [= <- <-]. lia.
      - split; [repeat constructor|discriminate]. }
    specialize (Hloop Hb (Z.to_nat (len - 0)) (0, n) s3).
    match type of Hloop with ?P -> _ => assert (Hi : P) end.
    { simpl. split; [lia|]. lia. }
    destruct (Hloop Hi) as [Htr Hout]. clear Hloop Hb Hi.
    split.
    + repeat (constructor; [exact I|]).
      apply trace_bind_Forall; [exact Htr|].
      intros [k' n'] _. simpl. constructor.
    + intros n' Hn'.
      apply outcome_bind_Returned in Hn'. destruct Hn' as ([k' n''] & Ha & Hb).
      simpl in Hb. injection Hb as <-.
      specialize (Hout _ Ha). simpl in Hout. lia.
  - destruct (n >=? MAX_SAFE_INTEGER) eqn:Hcmp; simpl.
    { split; [repeat constructor|discriminate]. }
    destruct (host _ (CreateDataPropertyOrThrow A (ToString n) E) s1)
      as [[b|t v] s2]; simpl.
    + split.
      * repeat constructor. exists n. split; [lia|reflexivity].
      * intros n' [= <-]. lia.
    + split; [|discriminate].
      repeat constructor. exists n. split; [lia|reflexivity].
  - split; [repeat constructor|discriminate].
Qed.

Lemma concat_within (args : list Value) (thisValue : Value) (s : S) :
  Forall within_safe_length (trace (exec host (ArrayProto_concat args thisValue) s)).
Proof.
  unfold ArrayProto_concat.
  apply trace_bind_Forall; [apply trace_Q_Forall; intros r; exact I|].
  intros obj _.
  apply trace_bind_Forall; [apply trace_Q_Forall; intros r; exact I|].
  intros A _.
  apply trace_bind_Forall.
  - apply (for_each_Forall host within_safe_length
             (fun n => 0 <= n <= MAX_SAFE_INTEGER) (concat_item A)).
    + intros E st s' Hst. apply concat_item_within. exact Hst.
    + unfold MAX_SAFE_INTEGER. lia.
  - intros n _.
    apply trace_bind_Forall; [apply trace_Q_Forall; intros r; exact I|].
    intros b _. simpl. constructor.
Qed.
End SafeLength.

Lemma get_length_normal {S : Type} (host : Host S) obj s len s' tr :
  get_length host obj s = (NormalCompletion len, s', tr) ->
  exists lenProp s1,
    host _ (Get obj "length") s = (NormalCompletion lenProp, s1) /\
    host _ (ToLength lenProp) s1 = (NormalCompletion len, s') /\
    tr = [Performed (Get obj "length") (NormalCompletion lenProp);
          Performed (ToLength lenProp) (NormalCompletion len)].
Proof.
  unfold get_length.
  destruct (host _ (Get obj "length") s) as [[lenProp|t v] s1] eqn:E1; [|discriminate].
  destruct (host _ (ToLength lenProp) s1) as [[len'|t v] s2] eqn:E2; [|discriminate].
  intros H. injection H as -> -> <-.
  exists lenProp, s1. repeat split; assumption.
Qed.


(** ** Get, then ToLength: the methods against the specification's words *)

Lemma starts_with_get_length {S A : Type} (host : Host S) (k : Z -> Prog A) obj s :
  starts_with host (get_length host obj s) k
    (exec host (lenProp ← Q (Get obj "length");
                len ← Q (ToLength lenProp);
                k len) s).
Proof.
  unfold starts_with, get_length. simpl.
  destruct (host _ (Get obj "length") s) as [[lenProp|t v] s2]; [|reflexivity].
  simpl. destruct (host _ (ToLength lenProp) s2) as [[len|t v] s3]; reflexivity.
Qed.

(** C5.  Every method that consults a length does [Get(O, "length")] and
    then [ToLength] of the value retrieved, in that order, and returns the
    abrupt completion of either step at once: its run starts with
    [read_length] (after the comparefn check for sort; for concat, with
    [get_length] of the receiver once it is found spreadable). *)
Theorem length_is_Get_then_ToLength :
  forall (fuel : nat) (args : list Value) (thisValue : Value),
    (forall m, In m methods_reading_length_first ->
       exists rest, forall (S : Type) (host : Host S) (s : S),
         starts_with host (read_length host thisValue s) rest
           (exec host (ArrayProto m fuel args thisValue) s)) /\
    (exists rest, forall (S : Type) (host : Host S) (s : S),
       (arg args 0 = Undefined ->
        starts_with host (read_length host thisValue s) rest
          (exec host (ArrayProto M_sort fuel args thisValue) s)) /\
       (arg args 0 <> Undefined ->
        forall s1, host _ (IsCallable (arg args 0)) s = (NormalCompletion true, s1) ->
        exists r,
          exec host (ArrayProto M_sort fuel args thisValue) s =
          log (Performed (IsCallable (arg args 0)) (NormalCompletion true)) r /\
          starts_with host (read_length host thisValue s1) rest r)) /\
    (forall (S : Type) (host : Host S) (s s1 s2 s3 : S) (obj A : Value),
       host _ (ToObject thisValue) s = (NormalCompletion obj, s1) ->
       host _ (ArraySpeciesCreate obj 0) s1 = (NormalCompletion A, s2) ->
       host _ (IsConcatSpreadable obj) s2 = (NormalCompletion true, s3) ->
       exists rest r,
         exec host (ArrayProto M_concat fuel args thisValue) s =
         log (Performed (ToObject thisValue) (NormalCompletion obj))
           (log (Performed (ArraySpeciesCreate obj 0) (NormalCompletion A))
              (log (Performed (IsConcatSpreadable obj) (NormalCompletion true)) r)) /\
         starts_with host (get_length host obj s3) rest r).
Proof.
  intros fuel args thisValue. split; [|split].
  - intros m Hm. unfold methods_reading_length_first in Hm. simpl in Hm.
    destruct Hm as [<-|[<-|[<-|[<-|[<-|[<-|[<-|[<-|[<-|[<-|[<-|[<-|[]]]]]]]]]]]]];
      cbv beta iota zeta delta
        [ArrayProto ArrayProto_copyWithin ArrayProto_fill ArrayProto_filter
         ArrayProto_flat ArrayProto_flatMap ArrayProto_map ArrayProto_pop
         ArrayProto_push ArrayProto_shift ArrayProto_slice ArrayProto_splice
         ArrayProto_unshift];
      eexists; intros S host s; eapply starts_with_read_length.
  - exists (fun '(obj, len) => Q (ArrayProto_sortBody obj len (arg args 0))).
    intros S host s. split.
    + intros Hu. cbv beta iota zeta delta [ArrayProto ArrayProto_sort].
      rewrite Hu. simpl negb. cbv iota.
      apply (starts_with_read_length host
               (fun obj len => Q (ArrayProto_sortBody obj len Undefined))).
    + intros Hd s1 Hc. cbv beta iota zeta delta [ArrayProto ArrayProto_sort].
      destruct (arg args 0) as [| |b|n|l] eqn:Harg; try congruence;
        simpl negb; cbv iota;
        (eexists; split;
         [ apply (exec_Vis_normal host _ _ _ _ _ Hc)
         | apply (starts_with_read_length host
                    (fun obj len => Q (ArrayProto_sortBody obj len _))) ]).
  - intros S host s s1 s2 s3 obj A H1 H2 H3.
    cbv beta iota zeta delta [ArrayProto ArrayProto_concat].
    eexists. eexists. split.
    + etransitivity; [apply (exec_Vis_normal host _ _ _ _ _ H1)|]. f_equal.
      etransitivity; [apply (exec_Vis_normal host _ _ _ _ _ H2)|]. f_equal.
      apply (exec_Vis_normal host _ _ _ _ _ H3).
    + cbv beta iota. eapply starts_with_get_length.
Qed.

(** ** Static semantics *)
Module StaticSemanticsFacts.
Import StaticSemantics.

(** C10.  IsAnonymousFunctionDefinition(expr) is true exactly when
    IsFunctionDefinition_Expression(expr) is true and
    HasName_Expression(expr) is false; its result is a boolean; and when
    expr is not a function definition HasName_Expression is not called. *)
Theorem IsAnonymousFunctionDefinition_spec :
  forall (Node : Type) (IsFunctionDefinition_Expression HasName_Expression : Node -> bool)
         (expr : Node),
    let run := IsAnonymousFunctionDefinition Node IsFunctionDefinition_Expression
                 HasName_Expression expr in
    (run.1 = true <->
       IsFunctionDefinition_Expression expr = true /\ HasName_Expression expr = false) /\
    (exists b : bool, run.1 = b) /\
    (IsFunctionDefinition_Expression expr = false ->
       run.2 = [Calls_IsFunctionDefinition_Expression expr]) /\
    (IsFunctionDefinition_Expression expr = true ->
       run.2 = [Calls_IsFunctionDefinition_Expression expr; Calls_HasName_Expression expr]).
Proof.
  intros Node isFn hasName expr run. subst run. unfold IsAnonymousFunctionDefinition.
  destruct (isFn expr), (hasName expr); simpl;
    repeat split; try discriminate; try reflexivity;
    try (intros [? ?]; discriminate); eauto.
Qed.

Lemma IsAnonymousFunctionDefinition_spec_witness :
  (IsAnonymousFunctionDefinition bool (fun expr => expr) (fun _ => false) false).2 =
    [Calls_IsFunctionDefinition_Expression false] /\
  (IsAnonymousFunctionDefinition bool (fun expr => expr) (fun _ => false) true).1 = true.
Proof.
  destruct (IsAnonymousFunctionDefinition_spec bool (fun expr => expr) (fun _ => false) false)
    as (_ & _ & Hcalls & _).
  destruct (IsAnonymousFunctionDefinition_spec bool (fun expr => expr) (fun _ => false) true)
    as (Htrue & _).
  split; [apply Hcalls; reflexivity|apply Htrue; split; reflexivity].
Defined.
End StaticSemanticsFacts.

(** ** The command line program *)
Module CLIFacts.
Import CLI.



(** ** The module resolution hook *)
Section ResolveFacts.
Variable path_resolve : string -> string -> string.
Variable path_dirname : string -> string.
Variable existsSync : string -> bool.
Variable readFileSync : string -> string.
Variable parse_error : string -> option ThrowRecord.

Local Abbreviation resolveImportedModule :=
  (CLI.resolveImportedModule path_resolve path_dirname existsSync readFileSync parse_error).
Local Abbreviation resolved_path := (CLI.resolved_path path_resolve path_dirname).
Local Abbreviation on_disk := (CLI.on_disk existsSync).
Local Abbreviation resolve_all :=
  (CLI.resolve_all path_resolve path_dirname existsSync readFileSync parse_error).

Lemma resolve_entry_unchanged st ref spec :
  moduleEntry (resolveImportedModule st ref spec).2 = moduleEntry st.
Proof.
  unfold CLI.resolveImportedModule.
  destruct (moduleEntry st) as [entry|] eqn:He.
  - destruct (String.eqb _ (specifier entry)); [exact He|].
    destruct (moduleCache st !! _); [exact He|].
    destruct (negb _); [exact He|].
    unfold createSourceTextModule. destruct (parse_error _); simpl; exact He.
  - destruct (moduleCache st !! _); [exact He|].
    destruct (negb _); [exact He|].
    unfold createSourceTextModule. destruct (parse_error _); simpl; exact He.
Qed.

Lemma resolve_cache_kept st ref spec p r :
  moduleCache st !! p = Some r ->
  moduleCache (resolveImportedModule st ref spec).2 !! p = Some r.
Proof.
  intros Hp. unfold CLI.resolveImportedModule.
  set (resolved := path_resolve _ _).
  assert (Hins : moduleCache st !! resolved = None ->
                 forall m, <[resolved := m]> (moduleCache st) !! p = Some r).
  { intros Hnone m. rewrite lookup_insert_ne; [exact Hp|]. congruence. }
  destruct (match moduleEntry st with Some _ => _ | None => _ end); [exact Hp|].
  destruct (moduleCache st !! resolved) eqn:Hc; [exact Hp|].
  destruct (negb _); [exact Hp|].
  unfold createSourceTextModule. destruct (parse_error _); simpl; apply Hins; reflexivity.
Qed.

Lemma settled_resolves st ref spec m :
  settled st (resolved_path ref spec) m ->
  resolveImportedModule st ref spec = (ResolvedModule m, st).
Proof.
  unfold settled, names_entry, CLI.resolved_path, CLI.resolveImportedModule.
  intros [[He Hs]|[Hne Hc]].
  - rewrite He. rewrite Hs. rewrite String.eqb_refl. reflexivity.
  - destruct (moduleEntry st) as [entry|].
    + destruct (String.eqb _ (specifier entry)) eqn:Heq.
      * apply String.eqb_eq in Heq. exfalso. eapply Hne; [reflexivity|exact Heq].
      * rewrite Hc. reflexivity.
    + rewrite Hc. reflexivity.
Qed.

Lemma settled_kept st ref spec resolved m :
  settled st resolved m ->
  settled (resolveImportedModule st ref spec).2 resolved m.
Proof.
  unfold settled, names_entry. rewrite resolve_entry_unchanged.
  intros [H|[Hne Hc]]; [left; exact H|right].
  split; [exact Hne|]. apply resolve_cache_kept. exact Hc.
Qed.

Lemma settled_kept_all calls st resolved m :
  settled st resolved m -> settled (resolve_all st calls) resolved m.
Proof.
  revert st. induction calls as [|call calls IH]; intros st H; simpl; [exact H|].
  apply IH. apply settled_kept. exact H.
Qed.

(** A call that returns a module leaves it settled. *)
Lemma resolved_module_settled st ref spec m :
  (resolveImportedModule st ref spec).1 = ResolvedModule m ->
  settled (resolveImportedModule st ref spec).2 (resolved_path ref spec) m.
Proof.
  unfold settled, names_entry, CLI.resolved_path, CLI.resolveImportedModule.
  set (resolved := path_resolve _ _).
  destruct (moduleEntry st) as [entry|] eqn:He.
  - destruct (String.eqb resolved (specifier entry)) eqn:Heq.
    + apply String.eqb_eq in Heq. simpl. intros [= <-]. left. split; assumption.
    + apply String.eqb_neq in Heq.
      assert (Hne : forall e, Some entry = Some e -> resolved <> specifier e)
        by (intros e [= <-]; exact Heq).
      destruct (moduleCache st !! resolved) as [r|] eqn:Hc.
      * simpl. intros ->. right. rewrite He. split; assumption.
      * destruct (negb (existsSync resolved)); [discriminate|].
        unfold createSourceTextModule.
        destruct (parse_error _); simpl; [discriminate|].
        intros [= <-]. right. rewrite He. split; [exact Hne|]. apply lookup_insert_eq.
  - assert (Hne : forall e, @None Module = Some e -> resolved <> specifier e)
      by (intros e; discriminate).
    destruct (moduleCache st !! resolved) as [r|] eqn:Hc.
    + simpl. intros ->. right. rewrite He. split; assumption.
    + destruct (negb (existsSync resolved)); [discriminate|].
      unfold createSourceTextModule.
      destruct (parse_error _); simpl; [discriminate|].
      intros [= <-]. right. rewrite He. split; [exact Hne|]. apply lookup_insert_eq.
Qed.

Lemma on_disk_createRealm : on_disk createRealm_state.
Proof.
  split; simpl; intros ? ?; [rewrite lookup_empty|]; discriminate.
Qed.

Lemma on_disk_kept st ref spec :
  on_disk st -> on_disk (resolveImportedModule st ref spec).2.
Proof.
  intros [Hc He]. split.
  2:{ rewrite resolve_entry_unchanged. exact He. }
  unfold CLI.resolveImportedModule. set (resolved := path_resolve _ _).
  destruct (match moduleEntry st with Some _ => _ | None => _ end); [exact Hc|].
  destruct (moduleCache st !! resolved) eqn:Hl; [exact Hc|].
  destruct (existsSync resolved) eqn:Hex; simpl; [|exact Hc].
  assert (Hins : forall m p r,
            <[resolved := m]> (moduleCache st) !! p = Some r -> existsSync p = true).
  { intros m p r. destruct (decide (resolved = p)) as [<-|Hne].
    - intros _. exact Hex.
    - rewrite lookup_insert_ne by exact Hne. apply Hc. }
  unfold createSourceTextModule. destruct (parse_error _); simpl; apply Hins.
Qed.

Lemma missing_file_throws st ref spec :
  on_disk st ->
  existsSync (resolved_path ref spec) = false ->
  resolveImportedModule st ref spec =
  (ResolvedThrow (mkThrow "Error" ("Cannot resolve module " ++ spec)), st).
Proof.
  intros [Hc He] Hex. unfold CLI.resolveImportedModule. fold (resolved_path ref spec).
  destruct (moduleEntry st) as [entry|] eqn:Hentry.
  - destruct (String.eqb _ (specifier entry)) eqn:Heq.
    + apply String.eqb_eq in Heq. rewrite Heq in Hex.
      rewrite (He entry eq_refl) in Hex. discriminate.
    + destruct (moduleCache st !! _) as [r|] eqn:Hl.
      * rewrite (Hc _ _ Hl) in Hex. discriminate.
      * rewrite Hex. reflexivity.
  - destruct (moduleCache st !! _) as [r|] eqn:Hl.
    + rewrite (Hc _ _ Hl) in Hex. discriminate.
    + rewrite Hex. reflexivity.
Qed.

End ResolveFacts.

End CLIFacts.

(** ** The recursion budget *)

Lemma FlattenIntoArray_unfold fuel target source sourceLen start depth mapperFunction thisArg :
  FlattenIntoArray (S fuel) target source sourceLen start depth mapperFunction thisArg =
  ('(_, targetIndex) ←
     iterate (Z.to_nat (sourceLen - 0))
       (flatten_turn
          (fun element elementLen targetIndex =>
             FlattenIntoArray fuel target element elementLen targetIndex
                              (Integer_pred depth) None None)
          target source depth mapperFunction thisArg)
       (0, start);
   Ret targetIndex).
Proof. reflexivity. Qed.

Lemma more_fuel_refl {A : Type} (p : Prog A) : more_fuel p p.
Proof. induction p; constructor; auto. Qed.

Lemma more_fuel_bind {A B : Type} (p p' : Prog A) (f f' : A -> Prog B) :
  more_fuel p p' -> (forall a, more_fuel (f a) (f' a)) ->
  more_fuel (bind p f) (bind p' f').
Proof.
  intros Hp Hf. induction Hp; simpl; try constructor; auto.
Qed.

Lemma more_fuel_iterate {St : Type} (body body' : St -> Prog St) :
  (forall st, more_fuel (body st) (body' st)) ->
  forall n st, more_fuel (iterate n body st) (iterate n body' st).
Proof.
  intros Hb. induction n as [|n IH]; intros st; simpl.
  - constructor.
  - apply more_fuel_bind; auto.
Qed.

Lemma flatten_turn_more_fuel recur recur' target source depth mapperFunction thisArg st :
  (forall element elementLen targetIndex,
      more_fuel (recur element elementLen targetIndex) (recur' element elementLen targetIndex)) ->
  more_fuel (flatten_turn recur target source depth mapperFunction thisArg st)
            (flatten_turn recur' target source depth mapperFunction thisArg st).
Proof.
  intros Hr. destruct st as [sourceIndex targetIndex]. unfold flatten_turn.
  apply more_fuel_bind; [apply more_fuel_refl|]. intros exists_.
  apply more_fuel_bind; [|intros; apply more_fuel_refl].
  destruct exists_; [|apply more_fuel_refl].
  apply more_fuel_bind; [apply more_fuel_refl|]. intros element.
  apply more_fuel_bind; [apply more_fuel_refl|]. intros element'.
  apply more_fuel_bind; [apply more_fuel_refl|]. intros shouldFlatten.
  destruct shouldFlatten; [|apply more_fuel_refl].
  apply more_fuel_bind; [apply more_fuel_refl|]. intros lenProp.
  apply more_fuel_bind; [apply more_fuel_refl|]. intros elementLen.
  apply Hr.
Qed.

Lemma FlattenIntoArray_more_fuel fuel fuel' :
  (fuel <= fuel')%nat ->
  forall target source sourceLen start depth mapperFunction thisArg,
    more_fuel
      (FlattenIntoArray fuel target source sourceLen start depth mapperFunction thisArg)
      (FlattenIntoArray fuel' target source sourceLen start depth mapperFunction thisArg).
Proof.
  revert fuel'. induction fuel as [|fuel IH]; intros fuel' Hle; intros.
  - apply more_fuel_cut.
  - destruct fuel' as [|fuel']; [lia|].
    rewrite !FlattenIntoArray_unfold.
    apply more_fuel_bind; [|intros [? ?]; apply more_fuel_refl].
    apply more_fuel_iterate. intros st.
    apply flatten_turn_more_fuel. intros. apply IH. lia.
Qed.

Lemma exec_more_fuel {S A : Type} (host : Host S) (p q : Prog A) :
  more_fuel p q ->
  forall s, within_budget (exec host p s) -> exec host q s = exec host p s.
Proof.
  unfold within_budget.
  induction 1 as [q|a|kind m|r|X e k k' Hk IH]; intros s Hw; simpl in *;
    try reflexivity; try congruence.
  destruct (host X e s) as [[x|t v] s']; simpl in *; [|reflexivity].
  rewrite IH; [reflexivity|exact Hw].
Qed.

Lemma ArrayProto_flat_more_fuel fuel fuel' args thisValue :
  (fuel <= fuel')%nat ->
  more_fuel (ArrayProto_flat fuel args thisValue) (ArrayProto_flat fuel' args thisValue).
Proof.
  intros Hle. unfold ArrayProto_flat.
  apply more_fuel_bind; [apply more_fuel_refl|]. intros obj.
  apply more_fuel_bind; [apply more_fuel_refl|]. intros lenProp.
  apply more_fuel_bind; [apply more_fuel_refl|]. intros sourceLen.
  apply more_fuel_bind; [apply more_fuel_refl|]. intros depthNum.
  apply more_fuel_bind; [apply more_fuel_refl|]. intros A.
  apply more_fuel_bind; [|intros; apply more_fuel_refl].
  apply FlattenIntoArray_more_fuel. exact Hle.
Qed.

(** ** The two scenarios *)

(** C1.  On [a = [1,2,3]]: [a.push(4)] returns 4 and leaves [a] of length
    4, with 4 at "3"; then [a.pop()] returns 4, deletes "3" and leaves [a]
    of length 3. *)
Theorem push_then_pop_scenario :
  forall (sortBody : Value -> Z -> Value -> Heap -> Completion Value * Heap),
    let host := heap_host sortBody in
    let a := Obj 0 in
    let pushed := exec host (ArrayProto_push [one 4] a) heap_123 in
    let popped := exec host (ArrayProto_pop [] a) (final pushed) in
    outcome pushed = Returned (one 4) /\
    properties (lookup_object (final pushed) 0) !! "length" = Some (one 4) /\
    lookup_object (final pushed) 0 = array_of [one 1; one 2; one 3; one 4] /\
    outcome popped = Returned (one 4) /\
    properties (lookup_object (final popped) 0) !! "length" = Some (one 3) /\
    properties (lookup_object (final popped) 0) !! "3" = None /\
    In (Performed (DeletePropertyOrThrow a "3") (NormalCompletion true)) (trace popped) /\
    lookup_object (final popped) 0 = array_of [one 1; one 2; one 3].
Proof.
  intros sortBody host a pushed popped.
  repeat split; try (vm_compute; reflexivity).
  vm_compute. tauto.
Qed.

(** C2.  On [[[1,2],[3,[4]]]]: [flat()] returns a new array [1,2,3,[4]]
    and [flat(Infinity)] a new array [1,2,3,4]; nothing else in the heap
    changes, the receiver included.  Any budget of three nested calls or
    more gives this. *)
Theorem flat_scenario :
  forall (sortBody : Value -> Z -> Value -> Heap -> Completion Value * Heap)
         (fuel : nat),
    (3 <= fuel)%nat ->
    let host := heap_host sortBody in
    let receiver := Obj 3 in
    let flat1 := exec host (ArrayProto_flat fuel [] receiver) heap_nested in
    let flatInf := exec host (ArrayProto_flat fuel [Num PosInfinity] receiver) heap_nested in
    objects heap_nested !! 4%N = None /\
    outcome flat1 = Returned (Obj 4) /\
    final flat1 =
      mkHeap (<[4%N := array_of [one 1; one 2; one 3; Obj 1]]> (objects heap_nested)) 5 /\
    outcome flatInf = Returned (Obj 4) /\
    final flatInf =
      mkHeap (<[4%N := array_of [one 1; one 2; one 3; one 4]]> (objects heap_nested)) 5.
Proof.
  intros sortBody fuel Hfuel host receiver flat1 flatInf.
  assert (H1 : flat1 = exec host (ArrayProto_flat 3 [] receiver) heap_nested).
  { apply exec_more_fuel; [apply ArrayProto_flat_more_fuel; exact Hfuel|].
    unfold within_budget. vm_compute. discriminate. }
  assert (H2 : flatInf = exec host (ArrayProto_flat 3 [Num PosInfinity] receiver) heap_nested).
  { apply exec_more_fuel; [apply ArrayProto_flat_more_fuel; exact Hfuel|].
    unfold within_budget. vm_compute. discriminate. }
  rewrite H1, H2. repeat split; vm_compute; reflexivity.
Qed.

Lemma flat_scenario_witness :
  (3 <= 3)%nat /\
  outcome (exec (heap_host (fun obj _ _ h => (NormalCompletion obj, h)))
             (ArrayProto_flat 3 [Num PosInfinity] (Obj 3)) heap_nested)
  = Returned (Obj 4).
Proof.
  split; [lia|].
  apply (flat_scenario (fun obj _ _ h => (NormalCompletion obj, h)) 3%nat). lia.
Defined.

(** ** Termination of FlattenIntoArray *)

Section Budget.
Context {S : Type} (host : Host S).

Lemma safe_Ret {A : Type} (J : S -> Prop) (a : A) (s : S) :
  J s -> safe J (exec host (Ret a) s).
Proof. intros HJ. split; [discriminate|exact HJ]. Qed.

Lemma safe_Throw {A : Type} (J : S -> Prop) kind m (s : S) :
  J s -> safe J (exec host (Throw (A:=A) kind m) s).
Proof. intros HJ. split; [discriminate|exact HJ]. Qed.

Lemma safe_bind {A B : Type} (J : S -> Prop) (p : Prog A) (f : A -> Prog B) (s : S) :
  safe J (exec host p s) ->
  (forall a s', J s' -> safe J (exec host (f a) s')) ->
  safe J (exec host (bind p f) s).
Proof.
  unfold safe, within_budget. intros [Hw HJ] Hf. rewrite exec_bind. simpl.
  revert Hw. destruct (outcome (exec host p s)) as [[a|t v]|why]; simpl; intros Hw.
  - apply Hf. exact HJ.
  - split; [discriminate|exact HJ].
  - split; [|exact HJ]. intros [= ->]. apply Hw. reflexivity.
Qed.

Lemma safe_bind_Q {X A : Type} (J : S -> Prop) (e : Op X) (k : X -> Prog A) (s : S) :
  (forall x s', host _ e s = (NormalCompletion x, s') -> safe J (exec host (k x) s')) ->
  (forall t v s', host _ e s = (AbruptCompletion t v, s') -> J s') ->
  safe J (exec host (bind (Q e) k) s).
Proof.
  unfold safe, within_budget. intros Hn Ha. simpl.
  destruct (host X e s) as [[x|t v] s'] eqn:He; simpl.
  - apply Hn. reflexivity.
  - split; [discriminate|]. eapply Ha. reflexivity.
Qed.

Lemma safe_iterate {St : Type} (J : S -> Prop) (body : St -> Prog St) :
  (forall st s, J s -> safe J (exec host (body st) s)) ->
  forall n st s, J s -> safe J (exec host (iterate n body st) s).
Proof.
  intros Hb. induction n as [|n IH]; intros st s HJ; simpl.
  - apply safe_Ret. exact HJ.
  - apply safe_bind; [apply Hb; exact HJ|].
    intros st' s' HJ'. apply IH. exact HJ'.
Qed.

(** One turn of the loop stays within the budget when the recursive call
    does, whatever the host answers. *)
Lemma flatten_turn_within_budget recur target source depth mapperFunction thisArg st s :
  (Integer_gt0 depth = true ->
   forall element elementLen targetIndex s',
     safe any_state (exec host (recur element elementLen targetIndex) s')) ->
  safe any_state
    (exec host (flatten_turn recur target source depth mapperFunction thisArg st) s).
Proof.
  intros Hrec. destruct st as [sourceIndex targetIndex]. unfold flatten_turn.
  apply safe_bind_Q; [|intros; exact I].
  intros exists_ s1 _.
  apply safe_bind; [|intros; apply safe_Ret; exact I].
  destruct exists_; [|apply safe_Ret; exact I].
  apply safe_bind_Q; [|intros; exact I].
  intros element s2 _.
  apply safe_bind.
  { destruct mapperFunction as [f|]; [|apply safe_Ret; exact I].
    destruct thisArg as [T|]; simpl.
    - apply (safe_bind_Q any_state _ Ret); [intros; apply safe_Ret; exact I|intros; exact I].
    - split; [discriminate|exact I]. }
  intros element' s3 _.
  destruct (Integer_gt0 depth) eqn:Hd.
  - apply safe_bind_Q; [|intros; exact I].
    intros shouldFlatten s4 _. destruct shouldFlatten.
    + apply safe_bind_Q; [|intros; exact I]. intros lenProp s5 _.
      apply safe_bind_Q; [|intros; exact I]. intros elementLen s6 _.
      apply Hrec. reflexivity.
    + destruct (targetIndex >=? MAX_SAFE_INTEGER); [apply safe_Throw; exact I|].
      apply safe_bind_Q; [|intros; exact I]. intros b s5 _. apply safe_Ret. exact I.
  - simpl.
    destruct (targetIndex >=? MAX_SAFE_INTEGER); [apply safe_Throw; exact I|].
    apply safe_bind_Q; [|intros; exact I]. intros b s5 _. apply safe_Ret. exact I.
Qed.

(** With a finite depth the recursion is no deeper than the depth: a budget
    of [depth] + 1 nested calls is never used up, whatever the host and the
    objects are. *)
Lemma FlattenIntoArray_finite_depth (n : nat) :
  forall depth, depth_within depth n ->
  forall target source sourceLen start mapperFunction thisArg s,
    within_budget
      (exec host (FlattenIntoArray (Datatypes.S n) target source sourceLen start depth
                                   mapperFunction thisArg) s).
Proof.
  induction n as [|n IH]; intros depth Hd target source sourceLen start mapperFunction thisArg s;
    rewrite FlattenIntoArray_unfold.
  - apply (safe_bind any_state); [|intros [? ?] ? ?; apply safe_Ret; exact I].
    apply safe_iterate; [|exact I]. intros st s' _.
    apply flatten_turn_within_budget. intros Hgt.
    destruct depth as [z| |]; simpl in *; try discriminate; try contradiction.
    apply Z.ltb_lt in Hgt. lia.
  - apply (safe_bind any_state); [|intros [? ?] ? ?; apply safe_Ret; exact I].
    apply safe_iterate; [|exact I]. intros st s' _.
    apply flatten_turn_within_budget. intros Hgt element elementLen targetIndex s''.
    split; [|exact I]. apply IH.
    destruct depth as [z| |]; simpl in *; try discriminate; try contradiction.
    lia.
Qed.
End Budget.

(** A ranked heap is acyclic below every source. *)
Lemma ranked_acyclic h rank source :
  ranked h rank -> acyclic_below h source.
Proof.
  intros Hrank. destruct source as [| |b|n|src]; try exact I.
  intros l _ Hcycle.
  assert (Hlt : forall a b, tc (nests h) a b -> (rank b < rank a)%nat).
  { induction 1 as [a b Hab|a b c Hab Hbc IH].
    - apply Hrank. exact Hab.
    - pose proof (Hrank a b Hab). lia. }
  specialize (Hlt l l Hcycle). lia.
Qed.

Lemma define_value_class o P V o' :
  define_value o P V = NormalCompletion o' -> class o' = class o.
Proof.
  unfold define_value. destruct (class o) eqn:Hc.
  - intros [= <-]. exact Hc.
  - destruct (String.eqb P "length").
    + destruct (ToNumber V) as [[|n| |]|]; try discriminate.
      destruct ((0 <=? n) && (n <? 2 ^ 32)); [|discriminate].
      intros [= <-]. exact Hc.
    + destruct (array_index P) as [i|].
      * destruct (array_length o <=? i); intros [= <-]; exact Hc.
      * intros [= <-]. exact Hc.
Qed.

(** A property of the object after a definition is the value defined, a
    number (the length), or a property the object had. *)
Lemma define_value_properties o P V o' K v :
  define_value o P V = NormalCompletion o' ->
  properties o' !! K = Some v ->
  v = V \/ (exists n, v = Num n) \/ properties o !! K = Some v.
Proof.
  assert (Hwith : forall o1 P1 V1,
            properties (with_property o1 P1 V1) !! K = Some v ->
            v = V1 \/ properties o1 !! K = Some v).
  { intros o1 P1 V1. unfold with_property. simpl.
    destruct (decide (P1 = K)) as [->|Hne].
    - rewrite lookup_insert_eq. intros [= <-]. left. reflexivity.
    - rewrite lookup_insert_ne by exact Hne. intros H. right. exact H. }
  unfold define_value. destruct (class o).
  - intros [= <-] H. apply Hwith in H. tauto.
  - destruct (String.eqb P "length").
    + destruct (ToNumber V) as [[|n| |]|]; try discriminate.
      destruct ((0 <=? n) && (n <? 2 ^ 32)); [|discriminate].
      intros [= <-]. unfold set_array_length. simpl.
      destruct (decide ("length" = K)) as [<-|Hne].
      * rewrite lookup_insert_eq. intros [= <-]. right. left. eauto.
      * rewrite lookup_insert_ne by exact Hne.
        intros H. apply map_lookup_filter_Some in H. tauto.
    + destruct (array_index P) as [i|].
      * destruct (array_length o <=? i); intros [= <-] H.
        -- apply Hwith in H. destruct H as [->|H]; [right; left; eauto|].
           apply Hwith in H. tauto.
        -- apply Hwith in H. tauto.
      * intros [= <-] H. apply Hwith in H. tauto.
Qed.

Lemma lookup_object_store h l o l' :
  lookup_object (store_object h l o) l' = if decide (l = l') then o else lookup_object h l'.
Proof.
  unfold lookup_object, store_object. simpl.
  destruct (decide (l = l')) as [->|Hne].
  - rewrite lookup_insert_eq. reflexivity.
  - rewrite lookup_insert_ne by exact Hne. reflexivity.
Qed.

Lemma is_array_store h l o v :
  class o = class (lookup_object h l) ->
  is_array (store_object h l o) v = is_array h v.
Proof.
  intros Hc. destruct v as [| |b|n|l']; try reflexivity.
  unfold is_array. rewrite lookup_object_store.
  destruct (decide (l = l')) as [->|Hne]; [rewrite Hc|]; reflexivity.
Qed.

Section HeapTermination.
Variable sortBody : Value -> Z -> Value -> Heap -> Completion Value * Heap.
Let host : Host Heap := heap_host sortBody.

(** What the operations of a turn answer on the heap. *)
Lemma heap_HasProperty v P h c h' :
  host _ (HasProperty v P) h = (c, h') ->
  h' = h /\ forall b, c = NormalCompletion b -> exists l, v = Obj l.
Proof.
  unfold host. simpl. destruct v; intros [= <- <-]; split; try reflexivity;
    intros b' Hb; try discriminate. eauto.
Qed.

Lemma heap_Get v P h c h' :
  host _ (Get v P) h = (c, h') ->
  h' = h /\
  forall x, c = NormalCompletion x ->
    exists l, v = Obj l /\ x = default Undefined (properties (lookup_object h l) !! P).
Proof.
  unfold host. simpl. destruct v; intros [= <- <-]; split; try reflexivity;
    intros x Hx; try discriminate. injection Hx as <-. eauto.
Qed.

Lemma heap_IsArray v h c h' :
  host _ (IsArray v) h = (c, h') -> h' = h /\ c = NormalCompletion (is_array h v).
Proof. unfold host. simpl. intros [= <- <-]. split; reflexivity. Qed.

Lemma heap_ToLength v h c h' :
  host _ (ToLength v) h = (c, h') -> h' = h.
Proof. unfold host. simpl. intros [= _ <-]. reflexivity. Qed.

Lemma heap_Call f T args h c h' :
  host _ (Call f T args) h = (c, h') -> h' = h /\ c = TypeError.
Proof. unfold host. simpl. intros [= <- <-]. split; reflexivity. Qed.

Lemma heap_CreateDataPropertyOrThrow v P V h c h' :
  host _ (CreateDataPropertyOrThrow v P V) h = (c, h') ->
  h' = h \/
  exists l o', v = Obj l /\
    define_value (lookup_object h l) P V = NormalCompletion o' /\
    h' = store_object h l o'.
Proof.
  unfold host. simpl. destruct v as [| |b|n|l]; try (intros [= <- <-]; left; reflexivity).
  destruct (class (lookup_object h l)), (String.eqb P "length");
    try (intros [= <- <-]; left; reflexivity);
    destruct (define_value (lookup_object h l) P V) as [o'|t e] eqn:Hd;
    intros [= <- <-]; try (left; reflexivity); right; eauto.
Qed.

(** The heap at the call and the object flattening starts from, below
    which the elements are acyclic. *)
Variable h0 : Heap.
Variable src0 : N.
Hypothesis acyclic : forall l, rtc (nests h0) src0 l -> ~ tc (nests h0) l l.

Lemma no_new_nesting_store h l P V o' :
  (no_new_nesting h0) h ->
  is_array h V = false ->
  define_value (lookup_object h l) P V = NormalCompletion o' ->
  (no_new_nesting h0) (store_object h l o').
Proof.
  intros Hinv HV Hdef a b (i & Hi & Hprop & Harr).
  pose proof (define_value_class _ _ _ _ Hdef) as Hclass.
  rewrite is_array_store in Harr by exact Hclass.
  rewrite lookup_object_store in Hprop.
  destruct (decide (l = a)) as [->|Hne].
  - destruct (define_value_properties _ _ _ _ _ _ Hdef Hprop) as [<-|[[n Hn]|Hold]].
    + congruence.
    + discriminate.
    + apply Hinv. exists i. auto.
  - apply Hinv. exists i. auto.
Qed.

Lemma flatten_turn_returns_next recur target source depth mapperFunction thisArg
    sourceIndex targetIndex h st' :
  outcome (exec host (flatten_turn recur target source depth mapperFunction thisArg
                        (sourceIndex, targetIndex)) h) = Returned st' ->
  st'.1 = sourceIndex + 1.
Proof.
  unfold flatten_turn. intros H.
  apply outcome_bind_Returned in H. destruct H as (exists_ & _ & H).
  apply outcome_bind_Returned in H. destruct H as (targetIndex' & _ & H).
  simpl in H. injection H as <-. reflexivity.
Qed.

(** One turn over the object at [cur], depth Infinity, no mapper. *)
Lemma flatten_turn_heap fuel cur target sourceIndex targetIndex h :
  rtc (nests h0) src0 cur ->
  (forall l', nests h0 cur l' ->
     forall elementLen start h', (no_new_nesting h0) h' ->
       safe (no_new_nesting h0)
         (exec host (FlattenIntoArray fuel target (Obj l') elementLen start PInf None None) h')) ->
  0 <= sourceIndex ->
  (no_new_nesting h0) h ->
  safe (no_new_nesting h0)
    (exec host
       (flatten_turn
          (fun element elementLen targetIndex =>
             FlattenIntoArray fuel target element elementLen targetIndex PInf None None)
          target (Obj cur) PInf None None (sourceIndex, targetIndex)) h).
Proof.
  intros Hreach Hrec Hidx Hinv. unfold flatten_turn.
  apply safe_bind_Q.
  2:{ intros t v h1 H1. apply heap_HasProperty in H1. destruct H1 as [-> _]. exact Hinv. }
  intros exists_ h1 H1. apply heap_HasProperty in H1. destruct H1 as [-> _].
  apply safe_bind; [|intros; apply safe_Ret; assumption].
  destruct exists_; [|apply safe_Ret; exact Hinv].
  apply safe_bind_Q.
  2:{ intros t v h2 H2. apply heap_Get in H2. destruct H2 as [-> _]. exact Hinv. }
  intros element h2 H2. apply heap_Get in H2. destruct H2 as [-> H2].
  destruct (H2 element eq_refl) as (l & [= <-] & Helement). clear H2.
  change (bind (Ret element) ?k) with (k element). cbv beta.
  simpl Integer_gt0. cbv iota.
  apply safe_bind_Q.
  2:{ intros t v h3 H3. apply heap_IsArray in H3. destruct H3 as [-> _]. exact Hinv. }
  intros shouldFlatten h3 H3. apply heap_IsArray in H3. destruct H3 as [-> [= ->]].
  destruct (is_array h element) eqn:Harr.
  - assert (Hnest : exists l', element = Obj l' /\ nests h0 cur l').
    { destruct element as [| |b|n|l']; try discriminate.
      exists l'. split; [reflexivity|]. apply Hinv. exists sourceIndex.
      split; [exact Hidx|]. split; [|exact Harr].
      destruct (properties (lookup_object h cur) !! ToString sourceIndex) as [v|];
        simpl in Helement; [congruence|discriminate]. }
    destruct Hnest as (l' & -> & Hnest).
    apply safe_bind_Q.
    2:{ intros t v h4 H4. apply heap_Get in H4. destruct H4 as [-> _]. exact Hinv. }
    intros lenProp h4 H4. apply heap_Get in H4. destruct H4 as [-> _].
    apply safe_bind_Q.
    2:{ intros t v h5 H5. apply heap_ToLength in H5. subst h5. exact Hinv. }
    intros elementLen h5 H5. apply heap_ToLength in H5. subst h5.
    apply Hrec; assumption.
  - destruct (targetIndex >=? MAX_SAFE_INTEGER); [apply safe_Throw; exact Hinv|].
    assert (Hcreate : forall c h', host _ (CreateDataPropertyOrThrow target
                        (ToString targetIndex) element) h = (c, h') -> (no_new_nesting h0) h').
    { intros c h' Hc. apply heap_CreateDataPropertyOrThrow in Hc.
      destruct Hc as [->|(l & o' & _ & Hdef & ->)]; [exact Hinv|].
      eapply no_new_nesting_store; eassumption. }
    apply safe_bind_Q; [|intros; eapply Hcreate; eassumption].
    intros b h4 H4. apply safe_Ret. eapply Hcreate; eassumption.
Qed.

Lemma flatten_loop_heap fuel cur target :
  rtc (nests h0) src0 cur ->
  (forall l', nests h0 cur l' ->
     forall elementLen start h', (no_new_nesting h0) h' ->
       safe (no_new_nesting h0)
         (exec host (FlattenIntoArray fuel target (Obj l') elementLen start PInf None None) h')) ->
  forall n sourceIndex targetIndex h,
    0 <= sourceIndex ->
    (no_new_nesting h0) h ->
    safe (no_new_nesting h0)
      (exec host
         (iterate n
            (flatten_turn
               (fun element elementLen targetIndex =>
                  FlattenIntoArray fuel target element elementLen targetIndex PInf None None)
               target (Obj cur) PInf None None)
            (sourceIndex, targetIndex)) h).
Proof.
  intros Hreach Hrec. induction n as [|n IH]; intros sourceIndex targetIndex h Hidx Hinv.
  - apply safe_Ret. exact Hinv.
  - cbn [iterate].
    pose proof (flatten_turn_heap fuel cur target sourceIndex targetIndex h
                  Hreach Hrec Hidx Hinv) as [Hw Hfinal].
    unfold safe, within_budget in *. rewrite exec_bind. cbv zeta.
    destruct (outcome (exec host _ h)) as [[[sourceIndex' targetIndex']|t v]|why] eqn:Hout;
      cbn [outcome final trace].
    + apply flatten_turn_returns_next in Hout. simpl in Hout. subst sourceIndex'.
      apply IH; [lia|exact Hfinal].
    + split; [discriminate|exact Hfinal].
    + split; [|exact Hfinal]. intros [= ->]. apply Hw. reflexivity.
Qed.

(** An object that holds an element is allocated. *)
Lemma nests_allocated l l' : nests h0 l l' -> l ∈ dom (objects h0).
Proof.
  intros (i & _ & Hprop & _). apply elem_of_dom.
  unfold lookup_object in Hprop.
  destruct (objects h0 !! l) as [o|]; [eauto|].
  simpl in Hprop. rewrite lookup_empty in Hprop. discriminate.
Qed.

(** With depth Infinity the recursion never comes back to an object it is
    already in: [visited] holds the objects on the way down to [cur], and a
    budget of one call per object not yet visited is never used up. *)
Lemma FlattenIntoArray_heap_infinite (k : nat) :
  forall cur (visited : gset N),
    rtc (nests h0) src0 cur ->
    (forall a, a ∈ visited -> tc (nests h0) a cur) ->
    visited ⊆ dom (objects h0) ->
    (size (dom (objects h0) ∖ visited) <= k)%nat ->
    forall target sourceLen start h,
      (no_new_nesting h0) h ->
      safe (no_new_nesting h0)
        (exec host (FlattenIntoArray (Datatypes.S k) target (Obj cur) sourceLen start
                                     PInf None None) h).
Proof.
  induction k as [|k IH];
    intros cur visited Hreach Hanc Hsub Hsize target sourceLen start h Hinv;
    rewrite FlattenIntoArray_unfold;
    (apply safe_bind; [|intros [? ?] ? ?; apply safe_Ret; assumption]);
    apply flatten_loop_heap; try assumption; try lia;
    intros l' Hnest elementLen start' h' Hinv';
    assert (Hcur : cur ∈ dom (objects h0) ∖ visited)
      by (apply elem_of_difference; split;
          [eapply nests_allocated; eassumption
          |intros Hin; apply (acyclic cur Hreach); apply Hanc; exact Hin]).
  - exfalso. assert (size (dom (objects h0) ∖ visited) <> 0%nat); [|lia].
    intros Hzero. apply size_empty_iff in Hzero.
    apply (not_elem_of_empty (C := gset N) cur). rewrite <- Hzero. exact Hcur.
  - apply (IH l' (visited ∪ {[cur]})).
    + eapply rtc_r; eassumption.
    + intros a Ha. apply elem_of_union in Ha. destruct Ha as [Ha|Ha].
      * eapply tc_r; [apply Hanc; exact Ha|exact Hnest].
      * apply elem_of_singleton in Ha. subst a. apply tc_once. exact Hnest.
    + apply elem_of_difference in Hcur. destruct Hcur as [Hdom _].
      apply union_subseteq. split; [exact Hsub|].
      apply singleton_subseteq_l. exact Hdom.
    + assert (Hlt : (size (dom (objects h0) ∖ (visited ∪ {[cur]}))
                     < size (dom (objects h0) ∖ visited))%nat); [|lia].
      apply subset_size. split.
      * intros x Hx. apply elem_of_difference in Hx. destruct Hx as [Hx1 Hx2].
        apply elem_of_difference. split; [exact Hx1|].
        intros Hv. apply Hx2. apply elem_of_union. left. exact Hv.
      * intros Hsubset. specialize (Hsubset cur Hcur).
        apply elem_of_difference in Hsubset. destruct Hsubset as [_ Hnot].
        apply Hnot. apply elem_of_union. right. apply elem_of_singleton. reflexivity.
    + exact Hinv'.
Qed.
End HeapTermination.

(** A turn with a mapper function, or over a source that is no object,
    never reaches the recursive call on this heap: no object of the heap
    is callable, and HasProperty needs an object. *)
Lemma flatten_turn_heap_stops sortBody recur target source depth mapperFunction thisArg st h :
  mapperFunction <> None \/ (forall l, source <> Obj l) ->
  safe any_state
    (exec (heap_host sortBody)
       (flatten_turn recur target source depth mapperFunction thisArg st) h).
Proof.
  intros Hstop. destruct st as [sourceIndex targetIndex]. unfold flatten_turn.
  apply safe_bind_Q; [|intros; exact I].
  intros exists_ h1 H1. apply heap_HasProperty in H1. destruct H1 as [-> H1].
  destruct (H1 exists_ eq_refl) as [l ->]. clear H1.
  destruct Hstop as [Hmapper|Hsource]; [|exfalso; eapply Hsource; reflexivity].
  apply safe_bind; [|intros; apply safe_Ret; exact I].
  destruct exists_; [|apply safe_Ret; exact I].
  apply safe_bind_Q; [|intros; exact I].
  intros element h2 _.
  destruct mapperFunction as [f|]; [|congruence].
  destruct thisArg as [T|].
  - change (bind (bind (Assert_present (Some T)) ?k1) ?k2) with (bind (Q (Call f T [element; new_Value sourceIndex; Obj l])) k2).
    apply safe_bind_Q; [|intros; exact I].
    intros x h3 H3. apply heap_Call in H3. destruct H3 as [_ H3]. discriminate.
  - split; [discriminate|exact I].
Qed.

(** C8.  FlattenIntoArray terminates on every heap of data-property
    objects where the elements below the source are acyclic, for every
    target, length, start and depth, Infinity included: some budget of
    nested calls is enough, and so is every larger one. *)
Theorem FlattenIntoArray_terminates :
  forall (sortBody : Value -> Z -> Value -> Heap -> Completion Value * Heap)
         (h : Heap) (target source : Value) (sourceLen start : Z) (depth : Integer)
         (mapperFunction thisArg : option Value),
    acyclic_below h source ->
    exists fuel0, forall fuel, (fuel0 <= fuel)%nat ->
      within_budget
        (exec (heap_host sortBody)
           (FlattenIntoArray fuel target source sourceLen start depth
                             mapperFunction thisArg) h).
Proof.
  intros sortBody h target source sourceLen start depth mapperFunction thisArg Hwell.
  assert (Hmono : forall fuel0,
    within_budget (exec (heap_host sortBody)
       (FlattenIntoArray fuel0 target source sourceLen start depth
                         mapperFunction thisArg) h) ->
    forall fuel, (fuel0 <= fuel)%nat ->
    within_budget (exec (heap_host sortBody)
       (FlattenIntoArray fuel target source sourceLen start depth
                         mapperFunction thisArg) h)).
  { intros fuel0 Hw fuel Hle.
    rewrite (exec_more_fuel _ _ _ (FlattenIntoArray_more_fuel fuel0 fuel Hle _ _ _ _ _ _ _) h Hw).
    exact Hw. }
  assert (Hstops : mapperFunction <> None \/ (forall l, source <> Obj l) ->
    within_budget (exec (heap_host sortBody)
       (FlattenIntoArray 1 target source sourceLen start depth
                         mapperFunction thisArg) h)).
  { intros Hstop. rewrite FlattenIntoArray_unfold.
    apply (safe_bind (heap_host sortBody) any_state);
      [|intros [? ?] ? ?; apply safe_Ret; exact I].
    apply safe_iterate; [|exact I]. intros st s' _.
    apply flatten_turn_heap_stops. exact Hstop. }
  destruct depth as [z| |].
  - exists (Datatypes.S (Z.to_nat z)). apply Hmono.
    apply FlattenIntoArray_finite_depth. simpl. lia.
  - destruct mapperFunction as [f|].
    { exists 1%nat. apply Hmono. apply Hstops. left. discriminate. }
    destruct source as [| |b|n|src];
      try (exists 1%nat; apply Hmono; apply Hstops; right; discriminate).
    exists (Datatypes.S (size (dom (objects h)))). apply Hmono.
    apply (FlattenIntoArray_heap_infinite sortBody h src Hwell
             (size (dom (objects h))) src ∅).
    + apply rtc_refl.
    + intros a Ha. apply not_elem_of_empty in Ha. contradiction.
    + apply empty_subseteq.
    + apply subseteq_size. apply subseteq_difference_l. reflexivity.
    + intros l l' H. exact H.
  - exists 1%nat. apply Hmono. apply (FlattenIntoArray_finite_depth _ 0). exact I.
Qed.

Lemma check_ranks_ranked h rank :
  check_ranks h rank = true -> ranked h rank.
Proof.
  intros Hcheck l l' (i & _ & Hprop & Harr).
  unfold check_ranks in Hcheck. rewrite forallb_forall in Hcheck.
  unfold lookup_object in Hprop.
  destruct (objects h !! l) as [o|] eqn:Hl; simpl in Hprop.
  2:{ rewrite lookup_empty in Hprop. discriminate. }
  apply elem_of_map_to_list in Hl. apply list_elem_of_In in Hl.
  specialize (Hcheck _ Hl). simpl in Hcheck. rewrite forallb_forall in Hcheck.
  apply elem_of_map_to_list in Hprop. apply list_elem_of_In in Hprop.
  specialize (Hcheck _ Hprop). cbn [snd] in Hcheck.
  rewrite Harr in Hcheck. apply Nat.ltb_lt in Hcheck. exact Hcheck.
Qed.

Lemma FlattenIntoArray_terminates_witness :
  acyclic_below heap_nested (Obj 3) /\
  exists fuel0, forall fuel, (fuel0 <= fuel)%nat ->
    within_budget
      (exec (heap_host (fun obj _ _ h => (NormalCompletion obj, h)))
         (FlattenIntoArray fuel (Obj 4) (Obj 3) 2 0 PInf None None) heap_nested).
Proof.
  assert (H : acyclic_below heap_nested (Obj 3)).
  { apply (ranked_acyclic heap_nested
             (fun l => match l with 3%N => 2%nat | 0%N | 2%N => 1%nat | _ => 0%nat end)).
    apply check_ranks_ranked. vm_compute. reflexivity. }
  split; [exact H|].
  apply (FlattenIntoArray_terminates _ heap_nested (Obj 4) (Obj 3) 2 0 PInf None None H).
Defined.

(** ** The general results at concrete inputs *)


Lemma noncallable_callback_TypeError_witness :
  not_callable (heap_host no_sort) (one 5) /\
  rejects_after_length (heap_host no_sort) (one 5) (Obj 0) heap_123
    (exec (heap_host no_sort) (ArrayProto_filter [one 5] (Obj 0)) heap_123) /\
  exec (heap_host no_sort) (ArrayProto_sort [one 5] (Obj 0)) heap_123 =
    mkRun (Thrown "TypeError" (NotAFunction (one 5))) heap_123
      [Performed (IsCallable (one 5)) (NormalCompletion false)].
Proof.
  assert (Hnc : not_callable (heap_host no_sort) (one 5)) by (intros s; reflexivity).
  destruct (noncallable_callback_TypeError Heap (heap_host no_sort) (one 5) Hnc
              0%nat [one 5] (Obj 0) heap_123 eq_refl) as [Hmethods Hsort].
  split; [exact Hnc|]. split.
  - apply (Hmethods M_filter). simpl. tauto.
  - apply Hsort. discriminate.
Defined.

Lemma pop_shift_empty_sets_length_witness :
  exec (heap_host no_sort) (ArrayProto_shift [] (Obj 2)) heap_full =
    mkRun (Returned Undefined) heap_full
      [Performed (ToObject (Obj 2)) (NormalCompletion (Obj 2));
       Performed (Get (Obj 2) "length") (NormalCompletion (one 0));
       Performed (ToLength (one 0)) (NormalCompletion 0);
       Performed (Set_ (Obj 2) "length" (new_Value 0) true) (NormalCompletion true)].
Proof.
  refine (eq_trans
    (pop_shift_empty_sets_length Heap (heap_host no_sort) M_shift 0%nat [] (Obj 2)
       heap_full heap_full (Obj 2) _ _ _) _).
  - simpl. tauto.
  - vm_compute. reflexivity.
  - vm_compute. reflexivity.
Defined.

Lemma length_is_Get_then_ToLength_witness :
  exists rest r,
    exec (heap_host no_sort) (ArrayProto_concat [] (Obj 0)) heap_123 =
    log (Performed (ToObject (Obj 0)) (NormalCompletion (Obj 0)))
      (log (Performed (ArraySpeciesCreate (Obj 0) 0) (NormalCompletion (Obj 1)))
         (log (Performed (IsConcatSpreadable (Obj 0)) (NormalCompletion true)) r)) /\
    starts_with (heap_host no_sort)
      (get_length (heap_host no_sort) (Obj 0)
         (mkHeap (<[1%N := array_of []]> (objects heap_123)) 2)) rest r.
Proof.
  destruct (length_is_Get_then_ToLength 0%nat [] (Obj 0)) as (_ & _ & Hconcat).
  apply (Hconcat Heap (heap_host no_sort) heap_123 heap_123
           (mkHeap (<[1%N := array_of []]> (objects heap_123)) 2)
           (mkHeap (<[1%N := array_of []]> (objects heap_123)) 2)
           (Obj 0) (Obj 1)); vm_compute; reflexivity.
Defined.

(** * Further results *)

(** ** Clamping of relative indices *)

Lemma relative_to_absolute_range (relative : Integer) (len : Z) :
  0 <= len -> 0 <= relative_to_absolute relative len <= len.
Proof. intros Hlen. destruct relative as [r| |]; simpl; [destruct (r <? 0) eqn:E|..]; lia. Qed.

(** ** Methods that work in place *)
Section InPlace.
Context {S : Type} (host : Host S).

(** The run of a method after a successful reading of the length. *)
Lemma exec_after_read_length {A : Type} (k : Value -> Z -> Prog A) thisValue s obj len s1 tr :
  read_length host thisValue s = (NormalCompletion (obj, len), s1, tr) ->
  exec host (O ← Q (ToObject thisValue);
             lenProp ← Q (Get O "length");
             len ← Q (ToLength lenProp);
             k O len) s =
  mkRun (outcome (exec host (k obj len) s1)) (final (exec host (k obj len) s1))
        (tr ++ trace (exec host (k obj len) s1)).
Proof.
  intros Hread.
  pose proof (starts_with_read_length host k thisValue s) as H.
  unfold starts_with in H. rewrite Hread in H. exact H.
Qed.

Lemma after_read_length_Forall {A : Type} (P : Event -> Prop)
    (k : Value -> Z -> Prog A) thisValue s obj len s1 tr :
  read_length host thisValue s = (NormalCompletion (obj, len), s1, tr) ->
  Forall P tr ->
  Forall P (trace (exec host (k obj len) s1)) ->
  Forall P (trace (exec host (O ← Q (ToObject thisValue);
                              lenProp ← Q (Get O "length");
                              len ← Q (ToLength lenProp);
                              k O len) s)).
Proof.
  intros Hread Htr Hk. rewrite (exec_after_read_length k _ _ _ _ _ _ Hread). simpl.
  apply Forall_app. split; assumption.
Qed.

Lemma after_read_length_outcome {A : Type} (k : Value -> Z -> Prog A)
    thisValue s obj len s1 tr :
  read_length host thisValue s = (NormalCompletion (obj, len), s1, tr) ->
  outcome (exec host (O ← Q (ToObject thisValue);
                      lenProp ← Q (Get O "length");
                      len ← Q (ToLength lenProp);
                      k O len) s) =
  outcome (exec host (k obj len) s1).
Proof.
  intros Hread. rewrite (exec_after_read_length k _ _ _ _ _ _ Hread). reflexivity.
Qed.

Lemma trace_bind_Q_Forall {X B : Type} (P : Event -> Prop) (e : Op X)
    (f : X -> Prog B) (s : S) :
  (forall r, P (Performed e r)) ->
  (forall x s', host _ e s = (NormalCompletion x, s') ->
                Forall P (trace (exec host (f x) s'))) ->
  Forall P (trace (exec host (bind (Q e) f) s)).
Proof.
  intros HP Hf. unfold Q. simpl.
  destruct (host X e s) as [[x|t v] s'] eqn:E; simpl.
  - constructor; [apply HP|]. apply (Hf x s'). reflexivity.
  - repeat constructor. apply HP.
Qed.

Lemma exec_bind_Q_normal {X B : Type} (e : Op X) (f : X -> Prog B) s x s' :
  host _ e s = (NormalCompletion x, s') ->
  exec host (bind (Q e) f) s = log (Performed e (NormalCompletion x)) (exec host (f x) s').
Proof. intros H. unfold Q. simpl. rewrite H. reflexivity. Qed.

Lemma exec_bind_Q_abrupt {X B : Type} (e : Op X) (f : X -> Prog B) s t v s' :
  host _ e s = (AbruptCompletion t v, s') ->
  exec host (bind (Q e) f) s =
  mkRun (Completed (AbruptCompletion t v)) s' [Performed e (AbruptCompletion t v)].
Proof. intros H. unfold Q. simpl. rewrite H. reflexivity. Qed.

Lemma trace_Ret_Forall {A : Type} (P : Event -> Prop) (a : A) (s : S) :
  Forall P (trace (exec host (Ret a) s)).
Proof. constructor. Qed.

Lemma read_length_in_place thisValue s obj len s1 tr :
  read_length host thisValue s = (NormalCompletion (obj, len), s1, tr) ->
  Forall (in_place obj len) tr.
Proof.
  intros Hread. apply read_length_normal in Hread.
  destruct Hread as (lenProp & sa & sb & _ & _ & _ & ->).
  repeat constructor; simpl; auto.
Qed.

Lemma move_property_in_place obj len from to s :
  index_key 0 len from -> index_key 0 len to ->
  Forall (in_place obj len) (trace (exec host (move_property obj from to) s)).
Proof.
  intros Hfrom Hto. unfold move_property.
  apply trace_bind_Q_Forall; [intros r; simpl; auto|].
  intros [|] s' _.
  - apply trace_bind_Q_Forall; [intros r; simpl; auto|]. intros fromVal s2 _.
    apply trace_bind_Q_Forall; [intros r; simpl; auto|]. intros _ s3 _.
    constructor.
  - apply trace_bind_Q_Forall; [intros r; simpl; auto|]. intros _ s3 _.
    constructor.
Qed.

Lemma ToInteger_end_Forall {B : Type} (P : Event -> Prop) (end_ : Value) (len : Z)
    (f : Integer -> Prog B) (s : S) :
  (forall v r, P (Performed (ToInteger v) r)) ->
  (forall x s', Forall P (trace (exec host (f x) s'))) ->
  Forall P (trace (exec host
    (bind (if is_undefined end_ then Ret (Fin len) else Q (ToInteger end_)) f) s)).
Proof.
  intros HP Hf. destruct (is_undefined end_).
  - simpl. apply Hf.
  - apply trace_bind_Q_Forall; [apply HP|]. intros x s' _. apply Hf.
Qed.

Lemma fill_in_place args obj len s :
  0 <= len ->
  Forall (in_place obj len) (trace (exec host
    (let value := arg args 0 in
     let start := arg args 1 in
     let end_ := arg args 2 in
     relativeStart ← Q (ToInteger start);
     let k := relative_to_absolute relativeStart len in
     relativeEnd ← (if is_undefined end_ then Ret (Fin len) else Q (ToInteger end_));
     let final := relative_to_absolute relativeEnd len in
     iterate (Z.to_nat (final - k)) (fun k =>
         let Pk := ToString k in
         Q (Set_ obj Pk value true);;
         Ret (k + 1)) k;;
     Ret obj) s)).
Proof.
  intros Hlen. cbv zeta.
  apply trace_bind_Q_Forall; [intros r; exact I|]. intros relativeStart s1 _.
  apply ToInteger_end_Forall; [intros v r; exact I|]. intros relativeEnd s2.
  pose proof (relative_to_absolute_range relativeStart len Hlen) as Hk.
  pose proof (relative_to_absolute_range relativeEnd len Hlen) as Hfinal.
  set (k := relative_to_absolute relativeStart len) in *.
  set (final := relative_to_absolute relativeEnd len) in *.
  apply trace_bind_Forall; [|intros; constructor].
  apply (iterate_Forall host (in_place obj len)
           (fun c k => 0 <= k /\ k + Z.of_nat c <= len)); [|lia].
  intros c k' s' [Hk0 Hkc]. split.
  - apply trace_bind_Q_Forall; [|intros; constructor].
    intros r. simpl. split; [reflexivity|]. right. exists k'. split; [lia|reflexivity].
  - intros st' Hout. apply outcome_bind_Returned in Hout.
    destruct Hout as (b & _ & Hret). simpl in Hret. injection Hret as <-. lia.
Qed.

Lemma outcome_then_Ret {A B : Type} (p : Prog A) (b v : B) (s : S) :
  outcome (exec host (p ;; Ret b) s) = Returned v -> v = b.
Proof.
  intros H. apply outcome_bind_Returned in H. destruct H as (a & _ & H).
  simpl in H. injection H as <-. reflexivity.
Qed.

(** A property of the values a run can return. *)
Lemma bind_Q_outcome {X B : Type} (e : Op X) (f : X -> Prog B) (s : S) (R : B -> Prop) :
  (forall x s' b, outcome (exec host (f x) s') = Returned b -> R b) ->
  forall b, outcome (exec host (bind (Q e) f) s) = Returned b -> R b.
Proof.
  intros Hf b. unfold Q. simpl.
  destruct (host X e s) as [[x|t v] s']; simpl; [apply Hf|discriminate].
Qed.

Lemma ToInteger_end_outcome {B : Type} (end_ : Value) (len : Z)
    (f : Integer -> Prog B) (s : S) (R : B -> Prop) :
  (forall x s' b, outcome (exec host (f x) s') = Returned b -> R b) ->
  forall b, outcome (exec host
    (bind (if is_undefined end_ then Ret (Fin len) else Q (ToInteger end_)) f) s)
    = Returned b -> R b.
Proof.
  intros Hf. destruct (is_undefined end_).
  - simpl. apply Hf.
  - apply bind_Q_outcome. apply Hf.
Qed.

Lemma copyWithin_in_place args obj len s :
  0 <= len ->
  Forall (in_place obj len) (trace (exec host
    (let target := arg args 0 in
     let start := arg args 1 in
     let end_ := arg args 2 in
     relativeTarget ← Q (ToInteger target);
     let to := relative_to_absolute relativeTarget len in
     relativeStart ← Q (ToInteger start);
     let from := relative_to_absolute relativeStart len in
     relativeEnd ← (if is_undefined end_ then Ret (Fin len) else Q (ToInteger end_));
     let final := relative_to_absolute relativeEnd len in
     let count := Z.min (final - from) (len - to) in
     let '(direction, from, to) :=
       if (from <? to) && (to <? from + count)
       then (-1, from + (count - 1), to + (count - 1))
       else (1, from, to) in
     iterate (Z.to_nat count) (fun '(from, to) =>
         let fromKey := ToString from in
         let toKey := ToString to in
         move_property obj fromKey toKey;;
         Ret (from + direction, to + direction)) (from, to);;
     Ret obj) s)).
Proof.
  intros Hlen. cbv zeta.
  apply trace_bind_Q_Forall; [intros r; exact I|]. intros relativeTarget s1 _.
  apply trace_bind_Q_Forall; [intros r; exact I|]. intros relativeStart s2 _.
  apply ToInteger_end_Forall; [intros v r; exact I|]. intros relativeEnd s3.
  pose proof (relative_to_absolute_range relativeTarget len Hlen) as Hto.
  pose proof (relative_to_absolute_range relativeStart len Hlen) as Hfrom.
  pose proof (relative_to_absolute_range relativeEnd len Hlen) as Hfinal.
  set (to := relative_to_absolute relativeTarget len) in *.
  set (from := relative_to_absolute relativeStart len) in *.
  set (final := relative_to_absolute relativeEnd len) in *.
  set (count := Z.min (final - from) (len - to)).
  assert (Hcount : count <= len - from /\ count <= len - to) by (unfold count; lia).
  destruct ((from <? to) && (to <? from + count)) eqn:Hdir.
  - (* backwards *)
    apply andb_true_iff in Hdir. destruct Hdir as [H1 H2].
    apply Z.ltb_lt in H1, H2.
    apply trace_bind_Forall; [|intros; constructor].
    apply (iterate_Forall host (in_place obj len)
             (fun c '(f, t) => Z.of_nat c <= f + 1 /\ f < len /\
                               Z.of_nat c <= t + 1 /\ t < len)); [|lia].
    intros c [f t] s' (Hf1 & Hf2 & Ht1 & Ht2). split.
    + apply trace_bind_Forall; [|intros; constructor].
      apply move_property_in_place; [exists f|exists t]; split; lia || reflexivity.
    + intros [f' t'] Hout. apply outcome_bind_Returned in Hout.
      destruct Hout as (b & _ & Hret). simpl in Hret. injection Hret as <- <-. lia.
  - apply trace_bind_Forall; [|intros; constructor].
    apply (iterate_Forall host (in_place obj len)
             (fun c '(f, t) => 0 <= f /\ f + Z.of_nat c <= len /\
                               0 <= t /\ t + Z.of_nat c <= len)); [|lia].
    intros c [f t] s' (Hf1 & Hf2 & Ht1 & Ht2). split.
    + apply trace_bind_Forall; [|intros; constructor].
      apply move_property_in_place; [exists f|exists t]; split; lia || reflexivity.
    + intros [f' t'] Hout. apply outcome_bind_Returned in Hout.
      destruct Hout as (b & _ & Hret). simpl in Hret. injection Hret as <- <-. lia.
Qed.

Lemma pop_in_place obj len s :
  0 <= len ->
  Forall (in_place obj len) (trace (exec host
    (if len =? 0 then
       Q (Set_ obj "length" (new_Value 0) true);;
       Ret Undefined
     else
       let newLen := len - 1 in
       let index := ToString newLen in
       element ← Q (Get obj index);
       Q (DeletePropertyOrThrow obj index);;
       Q (Set_ obj "length" (new_Value newLen) true);;
       Ret element) s)).
Proof.
  intros Hlen. destruct (len =? 0) eqn:E.
  - apply trace_bind_Q_Forall; [intros r; simpl; auto|]. intros; constructor.
  - apply Z.eqb_neq in E. cbv zeta.
    assert (Hkey : index_key 0 len (ToString (len - 1)))
      by (exists (len - 1); split; [lia|reflexivity]).
    apply trace_bind_Q_Forall; [intros r; simpl; auto|]. intros element s1 _.
    apply trace_bind_Q_Forall; [intros r; simpl; auto|]. intros _ s2 _.
    apply trace_bind_Q_Forall; [intros r; simpl; auto|]. intros; constructor.
Qed.

Lemma shift_in_place obj len s :
  0 <= len ->
  Forall (in_place obj len) (trace (exec host
    (if len =? 0 then
       Q (Set_ obj "length" (new_Value 0) true);;
       Ret Undefined
     else
       first ← Q (Get obj "0");
       iterate (Z.to_nat (len - 1)) (fun k =>
           let from := ToString k in
           let to := ToString (k - 1) in
           move_property obj from to;;
           Ret (k + 1)) 1;;
       Q (DeletePropertyOrThrow obj (ToString (len - 1)));;
       Q (Set_ obj "length" (new_Value (len - 1)) true);;
       Ret first) s)).
Proof.
  intros Hlen. destruct (len =? 0) eqn:E.
  - apply trace_bind_Q_Forall; [intros r; simpl; auto|]. intros; constructor.
  - apply Z.eqb_neq in E. cbv zeta.
    apply trace_bind_Q_Forall.
    { intros r. simpl. split; [reflexivity|]. right. exists 0. split; [lia|reflexivity]. }
    intros first s1 _.
    apply trace_bind_Forall.
    { apply (iterate_Forall host (in_place obj len)
               (fun c k => 1 <= k /\ k + Z.of_nat c <= len)); [|lia].
      intros c k s' [Hk1 Hk2]. split.
      - apply trace_bind_Forall; [|intros; constructor].
        apply move_property_in_place; [exists k|exists (k - 1)]; split; lia || reflexivity.
      - intros k' Hout. apply outcome_bind_Returned in Hout.
        destruct Hout as (b & _ & Hret). simpl in Hret. injection Hret as <-. lia. }
    intros k' _.
    apply trace_bind_Q_Forall.
    { intros r. simpl. split; [reflexivity|]. right. exists (len - 1).
      split; [lia|reflexivity]. }
    intros _ s2 _.
    apply trace_bind_Q_Forall; [intros r; simpl; auto|]. intros; constructor.
Qed.
End InPlace.

(** X1.  copyWithin, fill, pop and shift work in place: after the length
    [len] of the receiver has been read, every property they read, write or
    delete is "length" or an index below [len] of the receiver itself; they
    make no array and call no function; and copyWithin and fill return the
    receiver. *)
Theorem in_place_methods_stay_within_length :
  forall (S : Type) (host : Host S) (m : Method) (fuel : nat)
         (args : list Value) (thisValue : Value) (s s1 : S)
         (obj : Value) (len : Z) (tr : list Event),
    In m methods_in_place ->
    read_length host thisValue s = (NormalCompletion (obj, len), s1, tr) ->
    0 <= len ->
    let r := exec host (ArrayProto m fuel args thisValue) s in
    Forall (in_place obj len) (trace r) /\
    (In m [M_copyWithin; M_fill] -> forall v, outcome r = Returned v -> v = obj).
Proof.
  intros S host m fuel args thisValue s s1 obj len tr Hm Hread Hlen r.
  pose proof (read_length_in_place host _ _ _ _ _ _ Hread) as Hprefix.
  subst r. unfold methods_in_place in Hm.
  destruct Hm as [<-|[<-|[<-|[<-|[]]]]];
    cbv beta iota zeta delta [ArrayProto ArrayProto_copyWithin ArrayProto_fill
                              ArrayProto_pop ArrayProto_shift];
    (split; [eapply after_read_length_Forall; [exact Hread|exact Hprefix|]|]).
  - apply (copyWithin_in_place host args obj len s1 Hlen).
  - intros _. erewrite after_read_length_outcome by exact Hread.
    repeat first [apply (bind_Q_outcome host _ _ _ (fun b => b = obj)); intros ? ?
                 |apply (ToInteger_end_outcome host _ _ _ _ (fun b => b = obj)); intros ? ?].
    intros v. cbv zeta.
    match goal with |- context [if ?b then (-1, _, _) else _] => destruct b end;
      apply outcome_then_Ret.
  - apply (fill_in_place host args obj len s1 Hlen).
  - intros _. erewrite after_read_length_outcome by exact Hread.
    repeat first [apply (bind_Q_outcome host _ _ _ (fun b => b = obj)); intros ? ?
                 |apply (ToInteger_end_outcome host _ _ _ _ (fun b => b = obj)); intros ? ?].
    intros v. apply outcome_then_Ret.
  - apply (pop_in_place host obj len s1 Hlen).
  - intros [[=]|[[=]|[]]].
  - apply (shift_in_place host obj len s1 Hlen).
  - intros [[=]|[[=]|[]]].
Qed.

Section Growing.
Context {S : Type} (host : Host S).

(** [for_each] keeps a property of its events when every turn does;
    [I c st] is the invariant with [c] items left. *)
Lemma for_each_Forall_left {St : Type} (P : Event -> Prop) (I : nat -> St -> Prop)
    (body : Value -> St -> Prog St) :
  (forall c E st s, I (Datatypes.S c) st ->
      Forall P (trace (exec host (body E st) s)) /\
      forall st', outcome (exec host (body E st) s) = Returned st' -> I c st') ->
  forall items st s, I (length items) st ->
    Forall P (trace (exec host (for_each items body st) s)) /\
    forall st', outcome (exec host (for_each items body st) s) = Returned st' -> I 0%nat st'.
Proof.
  intros Hbody. induction items as [|E items IH]; intros st s HI; simpl.
  - split; [constructor|]. intros st' [= <-]. assumption.
  - destruct (Hbody (length items) E st s HI) as [Ht Hst]. split.
    + apply trace_bind_Forall; [assumption|].
      intros st' Hout. apply IH. apply Hst. assumption.
    + intros st'' Hout. apply outcome_bind_Returned in Hout.
      destruct Hout as (st' & H1 & H2).
      eapply IH; [apply Hst; eassumption|eassumption].
Qed.

Lemma in_place_mono obj lo hi ev : lo <= hi -> in_place obj lo ev -> in_place obj hi ev.
Proof.
  intros Hle.
  assert (Hkey : forall P, P = "length" \/ index_key 0 lo P ->
                           P = "length" \/ index_key 0 hi P).
  { intros P [->|(i & Hi & ->)]; [left; reflexivity|].
    right. exists i. split; [lia|reflexivity]. }
  destruct ev as [X e r]. destruct e; simpl; auto; intros [-> H]; split; auto.
Qed.

Lemma push_in_place items obj len s :
  0 <= len ->
  let n := len + Z.of_nat (length items) in
  let r := exec host
    (let argCount := Z.of_nat (length items) in
     if len + argCount >? MAX_SAFE_INTEGER then
       Throw "TypeError" ArrayPastSafeLength
     else
       len ← for_each items (fun E len =>
           Q (Set_ obj (ToString len) E true);;
           Ret (len + 1)) len;
       Q (Set_ obj "length" (new_Value len) true);;
       Ret (new_Value len)) s in
  Forall (in_place obj (Z.min n MAX_SAFE_INTEGER)) (trace r) /\
  forall v, outcome r = Returned v -> v = new_Value n /\ n <= MAX_SAFE_INTEGER.
Proof.
  intros Hlen n r. subst r. cbv zeta. fold n.
  destruct (n >? MAX_SAFE_INTEGER) eqn:Hbig.
  { split; [constructor|]. intros v [=]. }
  assert (Hn : n <= MAX_SAFE_INTEGER) by lia.
  rewrite Z.min_l by assumption.
  pose proof (for_each_Forall_left (in_place obj n)
                (fun c k => 0 <= k /\ k + Z.of_nat c = n)
                (fun E len0 => Q (Set_ obj (ToString len0) E true);; Ret (len0 + 1)))
    as Hloop.
  destruct (Hloop) with (items := items) (st := len) (s := s) as [Htr Hst].
  { intros c E k s' [Hk0 Hkc]. split.
    - apply trace_bind_Q_Forall; [|intros; constructor].
      intros r. simpl. split; [reflexivity|]. right. exists k. split; [lia|reflexivity].
    - intros st' Hout. apply outcome_bind_Returned in Hout.
      destruct Hout as (b & _ & Hret). simpl in Hret. injection Hret as <-. lia. }
  { unfold n. lia. }
  split.
  - apply trace_bind_Forall; [exact Htr|]. intros k Hk.
    apply trace_bind_Q_Forall; [intros r; simpl; auto|]. intros; constructor.
  - intros v Hv. apply outcome_bind_Returned in Hv. destruct Hv as (k & Hk & Hv).
    apply Hst in Hk. destruct Hk as [_ Hk]. rewrite Z.add_0_r in Hk. subst k.
    apply outcome_then_Ret in Hv. auto.
Qed.

Lemma unshift_in_place args obj len s :
  0 <= len <= MAX_SAFE_INTEGER ->
  let n := len + Z.of_nat (length args) in
  let r := exec host
    (let argCount := Z.of_nat (length args) in
     (if argCount >? 0 then
        if len + argCount >? MAX_SAFE_INTEGER then
          Throw "TypeError" ArrayPastSafeLength
        else
          iterate (Z.to_nat (len - 0)) (fun k =>
              let from := ToString (k - 1) in
              let to := ToString (k + argCount - 1) in
              move_property obj from to;;
              Ret (k - 1)) len;;
          let items := args in
          for_each items (fun E j =>
              let jStr := ToString j in
              Q (Set_ obj jStr E true);;
              Ret (j + 1)) 0;;
          Ret tt
      else Ret tt);;
     Q (Set_ obj "length" (new_Value (len + argCount)) true);;
     Ret (new_Value (len + argCount))) s in
  Forall (in_place obj (Z.min n MAX_SAFE_INTEGER)) (trace r) /\
  forall v, outcome r = Returned v -> v = new_Value n /\ n <= MAX_SAFE_INTEGER.
Proof.
  intros Hlen n r. subst r. cbv zeta. fold n.
  assert (Hrest : forall s',
    Forall (in_place obj (Z.min n MAX_SAFE_INTEGER))
      (trace (exec host (Q (Set_ obj "length" (new_Value n) true);;
                         Ret (new_Value n)) s'))).
  { intros s'. apply trace_bind_Q_Forall; [intros r; simpl; auto|]. intros; constructor. }
  destruct (Z.of_nat (length args) >? 0) eqn:Hargs.
  2:{ simpl bind at 1. split; [apply Hrest|].
      intros v Hv. apply outcome_bind_Returned in Hv. destruct Hv as (b & _ & Hv).
      apply outcome_then_Ret in Hv. subst v. split; [reflexivity|]. unfold n. lia. }
  destruct (n >? MAX_SAFE_INTEGER) eqn:Hbig.
  { split; [constructor|]. intros v [=]. }
  assert (Hn : n <= MAX_SAFE_INTEGER) by lia.
  rewrite Z.min_l in * by assumption.
  split.
  - apply trace_bind_Forall; [|intros; apply Hrest].
    apply trace_bind_Forall.
    { apply (iterate_Forall host (in_place obj n)
               (fun c k => k = Z.of_nat c /\ k <= len)); [|lia].
      intros c k s' [Hk1 Hk2]. split.
      - apply trace_bind_Forall; [|intros; constructor].
        apply move_property_in_place;
          [exists (k - 1)|exists (k + Z.of_nat (length args) - 1)];
          (split; [unfold n; lia|reflexivity]).
      - intros k' Hout. apply outcome_bind_Returned in Hout.
        destruct Hout as (b & _ & Hret). simpl in Hret. injection Hret as <-. lia. }
    intros k _. apply trace_bind_Forall; [|intros; constructor].
    apply (for_each_Forall_left (in_place obj n)
             (fun c j => 0 <= j /\ j + Z.of_nat c = Z.of_nat (length args)));
      [|lia].
    intros c E j s' [Hj1 Hj2]. split.
    + apply trace_bind_Q_Forall; [|intros; constructor].
      intros r. simpl. split; [reflexivity|]. right. exists j.
      split; [unfold n; lia|reflexivity].
    + intros j' Hout. apply outcome_bind_Returned in Hout.
      destruct Hout as (b & _ & Hret). simpl in Hret. injection Hret as <-. lia.
  - intros v Hv. apply outcome_bind_Returned in Hv. destruct Hv as (b & _ & Hv).
    apply outcome_then_Ret in Hv. subst v. auto.
Qed.
End Growing.

(** X2.  push and unshift touch only the receiver, at "length" or at an
    index below the new length [len + argCount] and below 2^53 - 1; they make
    no array and call no function; what they return is the new length, which
    is at most 2^53 - 1. *)
Theorem growing_methods_stay_within_new_length :
  forall (S : Type) (host : Host S) (m : Method) (fuel : nat)
         (args : list Value) (thisValue : Value) (s s1 : S)
         (obj : Value) (len : Z) (tr : list Event),
    In m methods_growing ->
    read_length host thisValue s = (NormalCompletion (obj, len), s1, tr) ->
    0 <= len <= MAX_SAFE_INTEGER ->
    let n := len + Z.of_nat (length args) in
    let r := exec host (ArrayProto m fuel args thisValue) s in
    Forall (in_place obj (Z.min n MAX_SAFE_INTEGER)) (trace r) /\
    forall v, outcome r = Returned v -> v = new_Value n /\ n <= MAX_SAFE_INTEGER.
Proof.
  intros S host m fuel args thisValue s s1 obj len tr Hm Hread Hlen n r.
  assert (Hprefix : Forall (in_place obj (Z.min n MAX_SAFE_INTEGER)) tr).
  { apply read_length_normal in Hread.
    destruct Hread as (lenProp & sa & sb & _ & _ & _ & ->).
    repeat constructor; simpl; auto. }
  subst r. unfold methods_growing in Hm.
  destruct Hm as [<-|[<-|[]]];
    cbv beta iota zeta delta [ArrayProto ArrayProto_push ArrayProto_unshift].
  - destruct (push_in_place host args obj len s1 (proj1 Hlen)) as [Htr Hv].
    split; [eapply after_read_length_Forall; [exact Hread|exact Hprefix|exact Htr]|].
    erewrite after_read_length_outcome by exact Hread. exact Hv.
  - destruct (unshift_in_place host args obj len s1 Hlen) as [Htr Hv].
    split; [eapply after_read_length_Forall; [exact Hread|exact Hprefix|exact Htr]|].
    erewrite after_read_length_outcome by exact Hread. exact Hv.
Qed.

Section PushOrder.
Context {S : Type} (host : Host S).

Lemma stored_app tr1 tr2 : stored (tr1 ++ tr2) = (stored tr1 ++ stored tr2)%list.
Proof. apply omap_app. Qed.

Lemma push_loop_stored obj items : forall len s,
  let r := exec host (for_each items (fun E len =>
                        Q (Set_ obj (ToString len) E true);;
                        Ret (len + 1)) len) s in
  let expected := imap (fun j E => (obj, ToString (len + Z.of_nat j), E)) items in
  stored (trace r) `prefix_of` expected /\
  forall k, outcome r = Returned k ->
            k = len + Z.of_nat (length items) /\ stored (trace r) = expected.
Proof.
  induction items as [|E items IH]; intros len s; cbv zeta.
  - simpl. split; [reflexivity|]. intros k [= <-]. split; [lia|reflexivity].
  - assert (Htail : imap (fun j E0 => (obj, ToString (len + Z.of_nat j), E0)) (E :: items)
             = (obj, ToString len, E) ::
               imap (fun j E0 => (obj, ToString (len + 1 + Z.of_nat j), E0)) items).
    { simpl. rewrite Z.add_0_r. f_equal. apply imap_ext. intros j x _. simpl.
      do 2 f_equal. f_equal. lia. }
    rewrite Htail. simpl.
    destruct (host bool (Set_ obj (ToString len) E true) s) as [[b|t v] s'].
    + destruct (IH (len + 1) s') as [Hp Hk]. simpl. split.
      * apply prefix_cons. exact Hp.
      * intros k Hout. apply Hk in Hout. destruct Hout as [-> Heq].
        split; [lia|]. f_equal. exact Heq.
    + simpl. split; [|discriminate].
      apply prefix_cons. apply prefix_nil.
Qed.
End PushOrder.

(** X3.  push stores its items in the order given, at the indices [len],
    [len + 1], ... of the receiver, and then the new length; a run that stops
    early has stored a prefix of that, and a run that returns has stored all
    of it and returns the new length. *)
Theorem push_stores_items_in_order :
  forall (S : Type) (host : Host S) (items : list Value) (thisValue : Value)
         (s s1 : S) (obj : Value) (len : Z) (tr : list Event),
    read_length host thisValue s = (NormalCompletion (obj, len), s1, tr) ->
    len + Z.of_nat (length items) <= MAX_SAFE_INTEGER ->
    let r := exec host (ArrayProto_push items thisValue) s in
    stored (trace r) `prefix_of` push_stores obj len items /\
    forall v, outcome r = Returned v ->
      stored (trace r) = push_stores obj len items /\
      v = new_Value (len + Z.of_nat (length items)).
Proof.
  intros S host items thisValue s s1 obj len tr Hread Hbound r. subst r.
  unfold ArrayProto_push. cbv zeta.
  erewrite exec_after_read_length by exact Hread.
  assert (Htr : stored tr = []).
  { apply read_length_normal in Hread.
    destruct Hread as (lenProp & sa & sb & _ & _ & _ & ->). reflexivity. }
  cbn [trace outcome]. rewrite stored_app, Htr. cbn [app].
  destruct (len + Z.of_nat (length items) >? MAX_SAFE_INTEGER) eqn:Hbig; [lia|].
  rewrite exec_bind. cbv zeta.
  destruct (push_loop_stored host obj items len s1) as [Hp Hk].
  cbv zeta in Hp, Hk.
  set (loop := exec host (for_each items _ len) s1) in *.
  unfold push_stores.
  destruct (outcome loop) as [[k|t v]|why] eqn:Hloop; cbn [trace outcome].
  - destruct (Hk k eq_refl) as [-> Heq].
    rewrite stored_app, Heq. simpl.
    destruct (host bool _ (final loop)) as [[b|t v] s2]; simpl.
    + split; [reflexivity|]. intros v [= <-]. split; reflexivity.
    + split; [reflexivity|]. discriminate.
  - split; [|discriminate]. apply prefix_app_r. exact Hp.
  - split; [|discriminate]. apply prefix_app_r. exact Hp.
Qed.

(** ** Results without gaps: FlattenIntoArray and filter *)

Lemma consecutive_app target start n m :
  consecutive target start (n + m) =
  (consecutive target start n ++ consecutive target (start + Z.of_nat n) m)%list.
Proof.
  unfold consecutive. rewrite seq_app, map_app. f_equal. simpl.
  replace (seq n m) with (seq (n + 0) m) by (f_equal; lia).
  rewrite <- (fmap_add_seq n 0 m).
  change (@fmap list _ nat nat (Nat.add n) (seq 0 m)) with (map (Nat.add n) (seq 0 m)).
  rewrite map_map. apply map_ext. intros j.
  rewrite Nat2Z.inj_add, Z.add_assoc. reflexivity.
Qed.

Lemma creations_cons ev tr :
  creations (ev :: tr) =
  match created ev with Some c => c :: creations tr | None => creations tr end.
Proof. reflexivity. Qed.

Section Dense.
Context {S : Type} (host : Host S).
Variable target : Value.
Variable ok : Z -> Prop.

Lemma dense_Ret {A : Type} start (index : A -> Z) (a : A) (s : S) :
  index a = start -> dense target start ok index (exec host (Ret a) s).
Proof.
  intros Ha. exists 0%nat. simpl. split; [reflexivity|]. split; [lia|].
  intros a' [= <-]. lia.
Qed.

Lemma dense_stop {A : Type} start (index : A -> Z) (r : Run S A) :
  trace r = [] -> (forall a, outcome r <> Returned a) -> dense target start ok index r.
Proof.
  intros Htr Hout. exists 0%nat. rewrite Htr. split; [reflexivity|]. split; [lia|].
  intros a Ha. destruct (Hout a Ha).
Qed.

Lemma dense_bind {A B : Type} start (index1 : A -> Z) (index : B -> Z)
    (p : Prog A) (f : A -> Prog B) (s : S) :
  dense target start ok index1 (exec host p s) ->
  (forall a s', dense target (index1 a) ok index (exec host (f a) s')) ->
  dense target start ok index (exec host (bind p f) s).
Proof.
  intros (n & Hn & Hbound & Hret) Hf. rewrite exec_bind. cbv zeta.
  destruct (outcome (exec host p s)) as [[a|t v]|why] eqn:Hout.
  - destruct (Hf a (final (exec host p s))) as (m & Hm & Hbound' & Hret').
    rewrite (Hret a eq_refl) in Hm, Hbound', Hret'.
    exists (n + m)%nat. cbn [trace outcome]. unfold creations in *.
    rewrite omap_app, Hn, Hm, consecutive_app. split; [reflexivity|]. split.
    + intros j Hj. destruct (Nat.lt_ge_cases j n) as [Hlt|Hge]; [auto|].
      replace (start + Z.of_nat j) with (start + Z.of_nat n + Z.of_nat (j - n)) by lia.
      apply Hbound'. lia.
    + intros b Hb. rewrite (Hret' b Hb). lia.
  - exists n. cbn [trace outcome]. split; [assumption|]. split; [assumption|].
    discriminate.
  - exists n. cbn [trace outcome]. split; [assumption|]. split; [assumption|].
    discriminate.
Qed.

Lemma dense_Q {X B : Type} start (index : B -> Z) (e : Op X)
    (f : X -> Prog B) (s : S) :
  (forall r, created (Performed e r) = None) ->
  (forall x s', dense target start ok index (exec host (f x) s')) ->
  dense target start ok index (exec host (bind (Q e) f) s).
Proof.
  intros He Hf. unfold Q. simpl.
  destruct (host X e s) as [[x|t v] s'].
  - destruct (Hf x s') as (n & Hn & Hbound & Hret).
    exists n. cbn [log trace outcome].
    rewrite creations_cons, (He (NormalCompletion x)). tauto.
  - exists 0%nat. cbn [trace outcome].
    rewrite creations_cons, (He (AbruptCompletion t v)).
    split; [reflexivity|]. split; [lia|]. discriminate.
Qed.

Lemma dense_create {B : Type} start (index : B -> Z) (V : Value)
    (f : bool -> Prog B) (s : S) :
  ok start ->
  (forall x s', dense target (start + 1) ok index (exec host (f x) s')) ->
  dense target start ok index
    (exec host (bind (Q (CreateDataPropertyOrThrow target (ToString start) V)) f) s).
Proof.
  intros Hstart Hf. unfold Q. simpl.
  destruct (host bool _ s) as [[x|t v] s'].
  - destruct (Hf x s') as (n & Hn & Hbound & Hret).
    exists (Datatypes.S n). cbn [log trace outcome].
    rewrite creations_cons. cbn [created].
    rewrite Hn. change (Datatypes.S n) with (1 + n)%nat. rewrite consecutive_app.
    split; [unfold consecutive at 1; simpl; rewrite Z.add_0_r; reflexivity|].
    split.
    + intros [|j] Hj; [rewrite Z.add_0_r; assumption|].
      replace (start + Z.of_nat (Datatypes.S j)) with (start + 1 + Z.of_nat j) by lia.
      apply Hbound. lia.
    + intros b Hb. rewrite (Hret b Hb). lia.
  - exists 1%nat. cbn [trace outcome]. rewrite creations_cons. cbn [created].
    split; [unfold consecutive; simpl; rewrite Z.add_0_r; reflexivity|].
    split; [|discriminate].
    intros [|j] Hj; [rewrite Z.add_0_r; assumption|lia].
Qed.

Lemma dense_iterate {St : Type} (index : St -> Z) (body : St -> Prog St) :
  (forall st s, dense target (index st) ok index (exec host (body st) s)) ->
  forall n st s, dense target (index st) ok index (exec host (iterate n body st) s).
Proof.
  intros Hbody. induction n as [|n IH]; intros st s; simpl.
  - apply dense_Ret. reflexivity.
  - eapply dense_bind; [apply Hbody|]. intros st' s'. apply IH.
Qed.
End Dense.

Section DenseFlatten.
Context {S : Type} (host : Host S).
Variable target : Value.

Local Abbreviation below_bound := (fun i : Z => i < MAX_SAFE_INTEGER).

Lemma flatten_turn_dense recur source depth mapperFunction thisArg st s :
  (forall element elementLen targetIndex s',
     dense target targetIndex below_bound (fun ti => ti)
       (exec host (recur element elementLen targetIndex) s')) ->
  dense target st.2 below_bound snd
    (exec host (flatten_turn recur target source depth mapperFunction thisArg st) s).
Proof.
  intros Hrecur. destruct st as [sourceIndex targetIndex]. unfold flatten_turn.
  cbn [snd]. cbv zeta.
  apply dense_Q; [reflexivity|]. intros exists_ s1.
  apply (dense_bind host target _ targetIndex (fun ti => ti));
    [|intros ti s'; apply dense_Ret; reflexivity].
  destruct exists_; [|apply dense_Ret; reflexivity].
  apply dense_Q; [reflexivity|]. intros element s2.
  apply (dense_bind host target _ targetIndex (fun _ => targetIndex)).
  { destruct mapperFunction as [f|]; [|apply dense_Ret; reflexivity].
    destruct thisArg as [T|]; simpl Assert_present.
    - apply dense_Q; [reflexivity|]. intros x s'. apply dense_Ret. reflexivity.
    - apply dense_stop; [reflexivity|discriminate]. }
  intros element' s3.
  apply (dense_bind host target _ targetIndex (fun _ => targetIndex)).
  { destruct (Integer_gt0 depth); [|apply dense_Ret; reflexivity].
    apply dense_Q; [reflexivity|]. intros x s'. apply dense_Ret. reflexivity. }
  intros [|] s4.
  - apply dense_Q; [reflexivity|]. intros lenProp s5.
    apply dense_Q; [reflexivity|]. intros elementLen s6.
    apply Hrecur.
  - destruct (targetIndex >=? MAX_SAFE_INTEGER) eqn:E.
    + apply dense_stop; [reflexivity|discriminate].
    + apply dense_create; [lia|]. intros x s'. apply dense_Ret. reflexivity.
Qed.

Lemma FlattenIntoArray_dense : forall fuel source sourceLen start depth
    mapperFunction thisArg s,
  dense target start below_bound (fun ti => ti)
    (exec host (FlattenIntoArray fuel target source sourceLen start depth
                  mapperFunction thisArg) s).
Proof.
  induction fuel as [|fuel IH]; intros.
  - apply dense_stop; [reflexivity|discriminate].
  - rewrite FlattenIntoArray_unfold.
    apply (dense_bind host target _ start snd).
    + refine (dense_iterate host target _ snd _ _ _ (0, start) s).
      intros st s'. apply flatten_turn_dense. intros. apply IH.
    + intros [si ti] s'. apply dense_Ret. reflexivity.
Qed.
End DenseFlatten.

(** X4.  FlattenIntoArray fills its target without a gap: the elements it
    creates are at the indices [start], [start + 1], ... of [target], in
    that order and all below 2^53 - 1, whatever the nesting of the source;
    the index it returns is the one after the last element created. *)
Theorem FlattenIntoArray_fills_consecutively :
  forall (S : Type) (host : Host S) (fuel : nat) (target source : Value)
         (sourceLen start : Z) (depth : Integer)
         (mapperFunction thisArg : option Value) (s : S),
    let r := exec host (FlattenIntoArray fuel target source sourceLen start depth
                          mapperFunction thisArg) s in
    exists n : nat,
      creations (trace r) = consecutive target start n /\
      (forall j, (j < n)%nat -> start + Z.of_nat j < MAX_SAFE_INTEGER) /\
      forall targetIndex, outcome r = Returned targetIndex ->
                          targetIndex = start + Z.of_nat n.
Proof.
  intros. apply (FlattenIntoArray_dense host target).
Qed.

Section Gapless.
Context {S : Type} (host : Host S).

Lemma gapless_Q {X : Type} (e : Op X) (f : X -> Prog Value) (s : S) :
  (forall r, created (Performed e r) = None) ->
  (forall x s', gapless (exec host (f x) s')) ->
  gapless (exec host (bind (Q e) f) s).
Proof.
  intros He Hf. unfold Q. simpl.
  destruct (host X e s) as [[x|t v] s'].
  - destruct (Hf x s') as (A & n & Hn & Hret).
    exists A, n. cbn [log trace outcome].
    rewrite creations_cons, (He (NormalCompletion x)). tauto.
  - exists Undefined, 0%nat. cbn [trace outcome].
    rewrite creations_cons, (He (AbruptCompletion t v)).
    split; [reflexivity|]. discriminate.
Qed.

Lemma gapless_dense {A : Type} (p : Prog A) ok (index : A -> Z) (target : Value) (s : S) :
  dense target 0 ok index (exec host p s) ->
  gapless (exec host (p ;; Ret target) s).
Proof.
  intros (n & Hn & _ & _). exists target, n. split.
  - rewrite exec_bind. cbv zeta.
    destruct (outcome (exec host p s)) as [[a|t v]|why]; cbn [trace];
      [|assumption..].
    simpl. rewrite app_nil_r. assumption.
  - intros v Hv. apply outcome_then_Ret in Hv. assumption.
Qed.

Lemma gapless_Throw kind m (s : S) : gapless (exec host (Throw kind m) s).
Proof. exists Undefined, 0%nat. split; [reflexivity|]. discriminate. Qed.

Lemma filter_gapless args thisValue s :
  gapless (exec host (ArrayProto_filter args thisValue) s).
Proof.
  unfold ArrayProto_filter. cbv zeta.
  apply gapless_Q; [reflexivity|]. intros obj s1.
  apply gapless_Q; [reflexivity|]. intros lenProp s2.
  apply gapless_Q; [reflexivity|]. intros len s3.
  apply gapless_Q; [reflexivity|]. intros callable s4.
  destruct callable; simpl negb; cbv iota; [|apply gapless_Throw].
  apply gapless_Q; [reflexivity|]. intros A s5.
  apply (gapless_dense _ (fun _ => True) snd).
  refine (dense_iterate host A _ snd _ _ _ (0, 0) s5).
  intros [k to] s'. cbn [snd]. cbv zeta.
  apply dense_Q; [reflexivity|]. intros kPresent s6.
  apply (dense_bind host A _ to (fun to => to));
    [|intros to' s7; apply dense_Ret; reflexivity].
  destruct kPresent; [|apply dense_Ret; reflexivity].
  apply dense_Q; [reflexivity|]. intros kValue s7.
  apply dense_Q; [reflexivity|]. intros result s8.
  apply dense_Q; [reflexivity|]. intros selected s9.
  destruct selected; [|apply dense_Ret; reflexivity].
  apply dense_create; [exact I|]. intros x s10. apply dense_Ret. reflexivity.
Qed.

Lemma flat_gapless fuel args thisValue s :
  gapless (exec host (ArrayProto_flat fuel args thisValue) s).
Proof.
  unfold ArrayProto_flat. cbv zeta.
  apply gapless_Q; [reflexivity|]. intros obj s1.
  apply gapless_Q; [reflexivity|]. intros lenProp s2.
  apply gapless_Q; [reflexivity|]. intros sourceLen s3.
  destruct (negb (is_undefined (arg args 0))).
  - apply gapless_Q; [reflexivity|]. intros depthNum s4.
    apply gapless_Q; [reflexivity|]. intros A s5.
    eapply gapless_dense. apply FlattenIntoArray_dense.
  - simpl bind at 1.
    apply gapless_Q; [reflexivity|]. intros A s5.
    eapply gapless_dense. apply FlattenIntoArray_dense.
Qed.

Lemma flatMap_gapless fuel args thisValue s :
  gapless (exec host (ArrayProto_flatMap fuel args thisValue) s).
Proof.
  unfold ArrayProto_flatMap. cbv zeta.
  apply gapless_Q; [reflexivity|]. intros obj s1.
  apply gapless_Q; [reflexivity|]. intros lenProp s2.
  apply gapless_Q; [reflexivity|]. intros sourceLen s3.
  apply gapless_Q; [reflexivity|]. intros callable s4.
  destruct callable; simpl negb; cbv iota; [|apply gapless_Throw].
  apply gapless_Q; [reflexivity|]. intros A s5.
  eapply gapless_dense. apply FlattenIntoArray_dense.
Qed.
End Gapless.

(** X5.  filter, flat and flatMap give a result without holes: the elements
    they create are at the indices 0, 1, 2, ... of one array, in that order,
    whatever holes the receiver has and whatever the callback rejects; that
    array is what they return. *)
Theorem results_without_holes :
  forall (S : Type) (host : Host S) (m : Method) (fuel : nat)
         (args : list Value) (thisValue : Value) (s : S),
    In m methods_gapless ->
    let r := exec host (ArrayProto m fuel args thisValue) s in
    exists (A : Value) (n : nat),
      creations (trace r) = consecutive A 0 n /\
      forall v, outcome r = Returned v -> v = A.
Proof.
  intros S host m fuel args thisValue s Hm. unfold methods_gapless in Hm.
  destruct Hm as [<-|[<-|[<-|[]]]].
  - apply filter_gapless.
  - apply flat_gapless.
  - apply flatMap_gapless.
Qed.

(** ** Methods that copy from the receiver *)
Section Copying.
Context {S : Type} (host : Host S).
Variable receiver : Value.
Variable len : Z.

Lemma copies_Q {X : Type} (e : Op X) (f : X -> Prog Value) (s : S) :
  (forall r A, copying receiver len A (Performed e r)) ->
  (forall x s', copies_from receiver len (exec host (f x) s')) ->
  copies_from receiver len (exec host (bind (Q e) f) s).
Proof.
  intros He Hf. unfold Q. simpl.
  destruct (host X e s) as [[x|t v] s'].
  - destruct (Hf x s') as (A & Htr & Hret).
    exists A. cbn [log trace outcome]. split; [|assumption].
    constructor; [apply He|assumption].
  - exists Undefined. cbn [trace outcome]. split; [|discriminate].
    repeat constructor. apply He.
Qed.

Lemma copies_ToInteger_end (end_ : Value) (f : Integer -> Prog Value) (s : S) :
  (forall x s', copies_from receiver len (exec host (f x) s')) ->
  copies_from receiver len (exec host
    (bind (if is_undefined end_ then Ret (Fin len) else Q (ToInteger end_)) f) s).
Proof.
  intros Hf. destruct (is_undefined end_).
  - simpl. apply Hf.
  - apply copies_Q; [intros; exact I|]. apply Hf.
Qed.

Lemma copies_Throw kind m (s : S) : copies_from receiver len (exec host (Throw kind m) s).
Proof. exists Undefined. split; [constructor|discriminate]. Qed.

Lemma copies_create (count : Z) (f : Value -> Prog Value) (s : S) :
  (forall A s', Forall (copying receiver len A) (trace (exec host (f A) s')) /\
                forall v, outcome (exec host (f A) s') = Returned v -> v = A) ->
  copies_from receiver len
    (exec host (bind (Q (ArraySpeciesCreate receiver count)) f) s).
Proof.
  intros Hf. unfold Q. simpl.
  destruct (host Value (ArraySpeciesCreate receiver count) s) as [[A|t v] s'].
  - exists A. cbn [log trace outcome]. destruct (Hf A s') as [Htr Hret].
    split; [|assumption].
    constructor; [|assumption].
    simpl. split; [reflexivity|]. intros A' [= <-]. reflexivity.
  - exists Undefined. cbn [trace outcome]. split; [|discriminate].
    repeat constructor. intros A' [=].
Qed.

Lemma after_read_length_copies (k : Value -> Z -> Prog Value) thisValue s s1 tr :
  read_length host thisValue s = (NormalCompletion (receiver, len), s1, tr) ->
  copies_from receiver len (exec host (k receiver len) s1) ->
  copies_from receiver len
    (exec host (O ← Q (ToObject thisValue);
                lenProp ← Q (Get O "length");
                len ← Q (ToLength lenProp);
                k O len) s).
Proof.
  intros Hread (A & Htr & Hret). exists A. split.
  - eapply after_read_length_Forall; [exact Hread| |exact Htr].
    apply read_length_normal in Hread.
    destruct Hread as (lenProp & sa & sb & _ & _ & _ & ->).
    repeat constructor; simpl; auto.
  - erewrite after_read_length_outcome by exact Hread. exact Hret.
Qed.

Hypothesis Hlen : 0 <= len.

Lemma slice_copies args s :
  copies_from receiver len (exec host
    (let start := arg args 0 in
     let end_ := arg args 1 in
     relativeStart ← Q (ToInteger start);
     let k := relative_to_absolute relativeStart len in
     relativeEnd ← (if is_undefined end_ then Ret (Fin len) else Q (ToInteger end_));
     let final := relative_to_absolute relativeEnd len in
     let count := Z.max (final - k) 0 in
     A ← Q (ArraySpeciesCreate receiver count);
     '(_, n) ← iterate (Z.to_nat (final - k)) (fun '(k, n) =>
         let Pk := ToString k in
         kPresent ← Q (HasProperty receiver Pk);
         (if kPresent : bool then
            kValue ← Q (Get receiver Pk);
            let nStr := ToString n in
            Q (CreateDataPropertyOrThrow A nStr kValue);;
            Ret tt
          else Ret tt);;
         Ret (k + 1, n + 1)) (k, 0);
     Q (Set_ A "length" (new_Value n) true);;
     Ret A) s).
Proof.
  cbv zeta.
  apply copies_Q; [intros; exact I|]. intros relativeStart s1.
  apply copies_ToInteger_end. intros relativeEnd s2.
  pose proof (relative_to_absolute_range relativeStart len Hlen) as Hk.
  pose proof (relative_to_absolute_range relativeEnd len Hlen) as Hfinal.
  set (k := relative_to_absolute relativeStart len) in *.
  set (final := relative_to_absolute relativeEnd len) in *.
  apply copies_create. intros A s3. split.
  - apply trace_bind_Forall.
    + apply (iterate_Forall host (copying receiver len A)
               (fun c '(k', n') => 0 <= n' <= k' /\ k' + Z.of_nat c <= len)); [|lia].
      intros c [k' n'] s' [Hn Hkc]. split.
      * apply trace_bind_Q_Forall.
        { intros r. simpl. split; [reflexivity|]. right. exists k'.
          split; [lia|reflexivity]. }
        intros [|] s4 _; (apply trace_bind_Forall; [|intros; constructor]);
          [|constructor].
        apply trace_bind_Q_Forall.
        { intros r. simpl. split; [reflexivity|]. right. exists k'.
          split; [lia|reflexivity]. }
        intros kValue s5 _.
        apply trace_bind_Q_Forall; [|intros; constructor].
        intros r. simpl. split; [reflexivity|]. exists n'. split; [lia|reflexivity].
      * intros [k'' n''] Hout. apply outcome_bind_Returned in Hout.
        destruct Hout as (b & _ & Hout). apply outcome_bind_Returned in Hout.
        destruct Hout as (b' & _ & Hout). simpl in Hout. injection Hout as <- <-. lia.
    + intros [k' n'] _.
      apply trace_bind_Q_Forall; [intros r; simpl; auto|]. intros; constructor.
  - intros v Hv. apply outcome_bind_Returned in Hv. destruct Hv as ([k' n'] & _ & Hv).
    apply outcome_then_Ret in Hv. assumption.
Qed.

Lemma map_copies args s :
  copies_from receiver len (exec host
    (let callbackfn := arg args 0 in
     let thisArg := arg args 1 in
     callable ← Q (IsCallable callbackfn);
     if negb callable then
       Throw "TypeError" (RawMessage "callbackfn is not callable")
     else
       let T := thisArg in
       A ← Q (ArraySpeciesCreate receiver len);
       iterate (Z.to_nat (len - 0)) (fun k =>
           let Pk := ToString k in
           kPresent ← Q (HasProperty receiver Pk);
           (if kPresent : bool then
              kValue ← Q (Get receiver Pk);
              mappedValue ← Q (Call callbackfn T [kValue; new_Value k; receiver]);
              Q (CreateDataPropertyOrThrow A Pk mappedValue);;
              Ret tt
            else Ret tt);;
           Ret (k + 1)) 0;;
       Ret A) s).
Proof.
  cbv zeta.
  apply copies_Q; [intros; exact I|]. intros callable s1.
  destruct callable; simpl negb; cbv iota; [|apply copies_Throw].
  apply copies_create. intros A s3. split; [|intros v Hv; apply outcome_then_Ret in Hv; exact Hv].
  apply trace_bind_Forall; [|intros; constructor].
  apply (iterate_Forall host (copying receiver len A)
           (fun c k => 0 <= k /\ k + Z.of_nat c <= len)); [|lia].
  intros c k s' [Hk Hkc].
  assert (Hkey : index_key 0 len (ToString k)) by (exists k; split; [lia|reflexivity]).
  split.
  - apply trace_bind_Q_Forall; [intros r; simpl; auto|].
    intros [|] s4 _; (apply trace_bind_Forall; [|intros; constructor]);
      [|constructor].
    apply trace_bind_Q_Forall; [intros r; simpl; auto|]. intros kValue s5 _.
    apply trace_bind_Q_Forall; [intros r; exact I|]. intros mappedValue s6 _.
    apply trace_bind_Q_Forall; [intros r; simpl; auto|]. intros; constructor.
  - intros k' Hout. apply outcome_bind_Returned in Hout.
    destruct Hout as (b & _ & Hout). apply outcome_bind_Returned in Hout.
    destruct Hout as (b' & _ & Hout). simpl in Hout. injection Hout as <-. lia.
Qed.

Lemma filter_copies args s :
  copies_from receiver len (exec host
    (let callbackfn := arg args 0 in
     let thisArg := arg args 1 in
     callable ← Q (IsCallable callbackfn);
     if negb callable then
       Throw "TypeError" (NotAFunction callbackfn)
     else
       let T := thisArg in
       A ← Q (ArraySpeciesCreate receiver 0);
       iterate (Z.to_nat (len - 0)) (fun '(k, to) =>
           let Pk := ToString k in
           kPresent ← Q (HasProperty receiver Pk);
           to ← (if kPresent : bool then
                   kValue ← Q (Get receiver Pk);
                   result ← Q (Call callbackfn T [kValue; new_Value k; receiver]);
                   selected ← Q (ToBoolean result);
                   if selected : bool then
                     Q (CreateDataPropertyOrThrow A (ToString to) kValue);;
                     Ret (to + 1)
                   else Ret to
                 else Ret to);
           Ret (k + 1, to)) (0, 0);;
       Ret A) s).
Proof.
  cbv zeta.
  apply copies_Q; [intros; exact I|]. intros callable s1.
  destruct callable; simpl negb; cbv iota; [|apply copies_Throw].
  apply copies_create. intros A s3. split; [|intros v Hv; apply outcome_then_Ret in Hv; exact Hv].
  apply trace_bind_Forall; [|intros; constructor].
  apply (iterate_Forall host (copying receiver len A)
           (fun c '(k, to) => 0 <= to <= k /\ k + Z.of_nat c <= len)); [|lia].
  intros c [k to] s' [Hto Hkc].
  assert (Hkey : index_key 0 len (ToString k)) by (exists k; split; [lia|reflexivity]).
  assert (Hto' : index_key 0 len (ToString to)) by (exists to; split; [lia|reflexivity]).
  split.
  - apply trace_bind_Q_Forall; [intros r; simpl; auto|].
    intros [|] s4 _; (apply trace_bind_Forall; [|intros; constructor]);
      [|constructor].
    apply trace_bind_Q_Forall; [intros r; simpl; auto|]. intros kValue s5 _.
    apply trace_bind_Q_Forall; [intros r; exact I|]. intros result s6 _.
    apply trace_bind_Q_Forall; [intros r; exact I|]. intros [|] s7 _; [|constructor].
    apply trace_bind_Q_Forall; [intros r; simpl; auto|]. intros; constructor.
  - intros [k' to'] Hout. apply outcome_bind_Returned in Hout.
    destruct Hout as (kPresent & _ & Hout). apply outcome_bind_Returned in Hout.
    destruct Hout as (to'' & Hto'' & Hout). simpl in Hout. injection Hout as <- <-.
    assert (to <= to'' <= to + 1); [|lia].
    destruct kPresent; [|simpl in Hto''; injection Hto'' as <-; lia].
    revert Hto''.
    apply (bind_Q_outcome host _ _ _ (fun t => to <= t <= to + 1)). intros kValue s5.
    apply (bind_Q_outcome host _ _ _ (fun t => to <= t <= to + 1)). intros result s6.
    apply (bind_Q_outcome host _ _ _ (fun t => to <= t <= to + 1)).
    intros [|] s7 t Ht.
    + apply outcome_then_Ret in Ht. lia.
    + simpl in Ht. injection Ht as <-. lia.
Qed.
End Copying.

(** X6.  filter, map and slice copy: after the length [len] of the receiver
    has been read, they read only "length" and indices below [len] of the
    receiver, create elements only in the array ArraySpeciesCreate gave
    them, at indices below [len], set nothing but the "length" of that
    array, delete nothing, and return that array. *)
Theorem copying_methods_write_only_their_result :
  forall (S : Type) (host : Host S) (m : Method) (fuel : nat)
         (args : list Value) (thisValue : Value) (s s1 : S)
         (obj : Value) (len : Z) (tr : list Event),
    In m methods_copying ->
    read_length host thisValue s = (NormalCompletion (obj, len), s1, tr) ->
    0 <= len ->
    let r := exec host (ArrayProto m fuel args thisValue) s in
    exists A : Value,
      Forall (copying obj len A) (trace r) /\
      forall v, outcome r = Returned v -> v = A.
Proof.
  intros S host m fuel args thisValue s s1 obj len tr Hm Hread Hlen r. subst r.
  unfold methods_copying in Hm.
  destruct Hm as [<-|[<-|[<-|[]]]];
    cbv beta iota zeta delta [ArrayProto ArrayProto_filter ArrayProto_map
                              ArrayProto_slice];
    (eapply after_read_length_copies; [exact Hread|]).
  - apply (filter_copies host obj len Hlen args s1).
  - apply (map_copies host obj len Hlen args s1).
  - apply (slice_copies host obj len Hlen args s1).
Qed.

(** * The command line program: the hook's cache, and print *)
Module CLIRealmFacts.
Import CLI CLIRealm.

Section HookFacts.
Variable path_resolve : string -> string -> string.
Variable path_dirname : string -> string.

Local Abbreviation resolved_path := (CLI.resolved_path path_resolve path_dirname).
Local Abbreviation hook := (CLI.resolveImportedModule path_resolve path_dirname).

(** X7.  One result per path.  When the file a request resolves to is on
    disk, every later request that resolves to the same path -- from
    whatever module, under whatever specifier, and whatever has become of
    the disk -- is answered with the result of the first, be it a module or
    the error of parsing it, and changes nothing. *)
Theorem one_result_per_resolved_path :
  forall (existsSync existsSync' : string -> bool)
         (readFileSync readFileSync' : string -> string)
         (parse_error parse_error' : string -> option ThrowRecord)
         (st : RealmState) (ref1 ref2 : Module) (spec1 spec2 : string),
    existsSync (resolved_path ref1 spec1) = true ->
    resolved_path ref2 spec2 = resolved_path ref1 spec1 ->
    let first := hook existsSync readFileSync parse_error st ref1 spec1 in
    hook existsSync' readFileSync' parse_error' first.2 ref2 spec2 = first.
Proof.
  intros existsSync existsSync' readFileSync readFileSync' parse_error parse_error'
    st ref1 ref2 spec1 spec2 Hex Hsame first. subst first.
  unfold CLI.resolveImportedModule at 2 3.
  unfold CLI.resolved_path in Hex, Hsame.
  set (resolved := path_resolve (path_dirname (specifier ref1)) spec1) in *.
  unfold CLI.resolveImportedModule. rewrite Hsame. fold resolved.
  destruct (moduleEntry st) as [entry|] eqn:He.
  - destruct (String.eqb resolved (specifier entry)) eqn:Heq.
    + cbn [snd]. rewrite He, Heq. reflexivity.
    + destruct (moduleCache st !! resolved) as [r|] eqn:Hc.
      * cbn [snd]. rewrite He, Heq, Hc. reflexivity.
      * rewrite Hex. cbn [negb]. unfold createSourceTextModule.
        destruct (parse_error (readFileSync resolved)); cbn [snd moduleEntry moduleCache];
          rewrite He, Heq, lookup_insert_eq; reflexivity.
  - destruct (moduleCache st !! resolved) as [r|] eqn:Hc.
    + cbn [snd]. rewrite He, Hc. reflexivity.
    + rewrite Hex. cbn [negb]. unfold createSourceTextModule.
      destruct (parse_error (readFileSync resolved)); cbn [snd moduleEntry moduleCache];
        rewrite He, lookup_insert_eq; reflexivity.
Qed.

(** X8.  What a call of the hook leaves alone: the module entry; the cache
    under every path but the one the call resolves to; and under that path
    too when the cache or the entry answers the call, or the file is
    missing.  The entry's own path is never cached, and at most one module
    record is made. *)
Theorem hook_changes_its_own_path_only :
  forall (existsSync : string -> bool) (readFileSync : string -> string)
         (parse_error : string -> option ThrowRecord)
         (st : RealmState) (ref : Module) (spec : string),
    let resolved := resolved_path ref spec in
    let st' := (hook existsSync readFileSync parse_error st ref spec).2 in
    moduleEntry st' = moduleEntry st /\
    (forall p, p <> resolved -> moduleCache st' !! p = moduleCache st !! p) /\
    (forall r, moduleCache st !! resolved = Some r -> st' = st) /\
    (existsSync resolved = false -> st' = st) /\
    (forall e, moduleEntry st = Some e ->
               moduleCache st' !! specifier e = moduleCache st !! specifier e) /\
    (modules_made st <= modules_made st' <= Datatypes.S (modules_made st))%nat.
Proof.
  intros existsSync readFileSync parse_error st ref spec resolved st'.
  subst st'. unfold CLI.resolved_path in resolved.
  unfold CLI.resolveImportedModule. fold resolved.
  destruct (moduleEntry st) as [entry|] eqn:He.
  - destruct (String.eqb resolved (specifier entry)) eqn:Heq.
    { cbn [snd]. rewrite He. repeat split; auto; lia. }
    apply String.eqb_neq in Heq.
    destruct (moduleCache st !! resolved) as [r|] eqn:Hc.
    { cbn [snd]. rewrite He. repeat split; auto; lia. }
    destruct (existsSync resolved) eqn:Hex; cbn [negb].
    2:{ cbn [snd]. rewrite He. repeat split; auto; lia. }
    unfold createSourceTextModule.
    destruct (parse_error (readFileSync resolved));
      cbn [snd moduleEntry moduleCache modules_made];
      (split; [exact He|]);
      (split; [intros p Hp; apply lookup_insert_ne; congruence|]);
      (split; [discriminate|]); (split; [discriminate|]);
      (split; [|lia]);
      intros e [= <-]; apply lookup_insert_ne; exact Heq.
  - destruct (moduleCache st !! resolved) as [r|] eqn:Hc.
    { cbn [snd]. rewrite He. repeat split; auto; lia. }
    destruct (existsSync resolved) eqn:Hex; cbn [negb].
    2:{ cbn [snd]. rewrite He. repeat split; auto; lia. }
    unfold createSourceTextModule.
    destruct (parse_error (readFileSync resolved));
      cbn [snd moduleEntry moduleCache modules_made];
      (split; [exact He|]);
      (split; [intros p Hp; apply lookup_insert_ne; congruence|]);
      (split; [discriminate|]); (split; [discriminate|]);
      (split; [|lia]);
      intros e [=].
Qed.

(** X9.  The modules of the cache sit under their own specifier: this
    holds when createRealm returns, every call of the hook keeps it, and
    with it a module the hook returns has the resolved path for its
    specifier, not the specifier as it was written in the import. *)
Theorem resolved_module_has_resolved_specifier :
  forall (existsSync : string -> bool) (readFileSync : string -> string)
         (parse_error : string -> option ThrowRecord)
         (st : RealmState) (ref : Module) (spec : string),
    let result := hook existsSync readFileSync parse_error st ref spec in
    cache_by_specifier createRealm_state /\
    (cache_by_specifier st ->
       cache_by_specifier result.2 /\
       forall m, result.1 = ResolvedModule m -> specifier m = resolved_path ref spec).
Proof.
  intros existsSync readFileSync parse_error st ref spec result. split.
  { intros p m. simpl. rewrite lookup_empty. discriminate. }
  intros Hinv. subst result. unfold CLI.resolved_path.
  unfold CLI.resolveImportedModule.
  set (resolved := path_resolve (path_dirname (specifier ref)) spec).
  assert (Hcached : forall r, moduleCache st !! resolved = Some r ->
            forall m, r = ResolvedModule m -> specifier m = resolved).
  { intros r Hr m ->. apply Hinv. exact Hr. }
  assert (Hnew : forall st1 r,
            createSourceTextModule parse_error resolved (readFileSync resolved) st = (r, st1) ->
            moduleCache st1 = moduleCache st /\
            forall m, r = ResolvedModule m -> specifier m = resolved).
  { unfold createSourceTextModule. intros st1 r.
    destruct (parse_error _); intros [= <- <-]; (split; [reflexivity|]);
      intros m [= <-]; reflexivity. }
  assert (Hins : forall st1 r,
            createSourceTextModule parse_error resolved (readFileSync resolved) st = (r, st1) ->
            cache_by_specifier
              (mkRealmState (moduleEntry st1) (<[resolved := r]> (moduleCache st1))
                 (modules_made st1))).
  { intros st1 r Hr. destruct (Hnew st1 r Hr) as [Hc Hm]. intros p m. cbn [moduleCache].
    rewrite Hc. destruct (decide (resolved = p)) as [<-|Hne].
    - rewrite lookup_insert_eq. intros [= ->]. apply Hm. reflexivity.
    - rewrite lookup_insert_ne by exact Hne. apply Hinv. }
  destruct (match moduleEntry st with Some _ => _ | None => _ end) as [entry|] eqn:Hentry.
  { cbn [fst snd]. split; [exact Hinv|]. intros m [= <-].
    destruct (moduleEntry st) as [e|]; [|discriminate].
    destruct (String.eqb resolved (specifier e)) eqn:Heq; [|discriminate].
    injection Hentry as <-. apply String.eqb_eq in Heq. congruence. }
  destruct (moduleCache st !! resolved) as [r|] eqn:Hc.
  { cbn [fst snd]. split; [exact Hinv|]. apply (Hcached r eq_refl). }
  destruct (negb (existsSync resolved)).
  { cbn [fst snd]. split; [exact Hinv|]. discriminate. }
  destruct (createSourceTextModule parse_error resolved (readFileSync resolved) st)
    as [r st1] eqn:Hr.
  cbn [fst snd]. split; [apply Hins; reflexivity|]. apply (Hnew st1 r eq_refl).
Qed.
End HookFacts.

Section PrintFacts.
Variable V X : Type.
Variable API_ToString : V -> Result V X.
Variable Value_undefined : V.

Local Abbreviation print := (CLIRealm.print V X API_ToString Value_undefined).
Local Abbreviation print_loop := (CLIRealm.print_loop V X API_ToString).

(** What print writes for arguments that converted to [strs]. *)
Local Abbreviation written_for strs :=
  (flat_map (fun s : X => [WroteValue s; WroteText " "]) strs).

Lemma print_loop_all args strs :
  Forall2 (fun arg s => API_ToString arg = NotAbrupt s) args strs ->
  print_loop args = (None, written_for strs).
Proof.
  induction 1 as [|arg s args strs Harg _ IH]; simpl; [reflexivity|].
  rewrite Harg, IH. reflexivity.
Qed.

Lemma print_loop_stops before strs arg value after :
  Forall2 (fun arg s => API_ToString arg = NotAbrupt s) before strs ->
  API_ToString arg = IsAbrupt value ->
  print_loop (before ++ arg :: after) = (Some value, written_for strs).
Proof.
  intros Hbefore Harg.
  induction Hbefore as [|a s before strs Ha _ IH]; simpl.
  - rewrite Harg. reflexivity.
  - rewrite Ha, IH. reflexivity.
Qed.

(** X10.  print writes each argument as ToString gave it, each followed
    by a space, and then a newline, and returns undefined; when ToString of
    an argument is abrupt, print returns that completion at once: what the
    arguments before it gave has been written, the newline has not. *)
Theorem print_writes_arguments_then_newline :
  forall (args : list V) (strs : list X),
    (Forall2 (fun arg s => API_ToString arg = NotAbrupt s) args strs ->
       print args =
       (NotAbrupt Value_undefined, (written_for strs ++ [WroteText newline])%list)) /\
    (forall (arg : V) (value : V) (after : list V),
       Forall2 (fun arg s => API_ToString arg = NotAbrupt s) args strs ->
       API_ToString arg = IsAbrupt value ->
       print (args ++ arg :: after) = (IsAbrupt value, written_for strs)).
Proof.
  intros args strs. split.
  - intros Hall. unfold CLIRealm.print. rewrite (print_loop_all args strs Hall).
    reflexivity.
  - intros arg value after Hbefore Harg. unfold CLIRealm.print.
    rewrite (print_loop_stops args strs arg value after Hbefore Harg). reflexivity.
Qed.
End PrintFacts.

(** [/app/b.mjs] imported as [./b.mjs] from [/app/a.mjs] and as [b.mjs]
    from [/app/c.mjs], the file being removed in between. *)
Lemma one_result_per_resolved_path_witness :
  let path_resolve := fun dir name : string =>
    if String.eqb name "./b.mjs" then dir ++ "/b.mjs" else dir ++ "/" ++ name in
  let path_dirname := fun _ : string => "/app" in
  let a := mkModule 7 "/app/a.mjs" in
  let c := mkModule 8 "/app/c.mjs" in
  let first := resolveImportedModule path_resolve path_dirname
                 (fun path => String.eqb path "/app/b.mjs") (fun _ => "export {}")
                 (fun _ => None) createRealm_state a "./b.mjs" in
  resolveImportedModule path_resolve path_dirname
    (fun _ => false) (fun _ => "") (fun _ => None) first.2 c "b.mjs" = first.
Proof.
  intros path_resolve path_dirname a c.
  apply (one_result_per_resolved_path path_resolve path_dirname
           (fun path => String.eqb path "/app/b.mjs") (fun _ => false)
           (fun _ => "export {}") (fun _ => "")
           (fun _ => None) (fun _ => None) createRealm_state a c "./b.mjs" "b.mjs");
    reflexivity.
Defined.

(** The first import of [/app/b.mjs]. *)
Lemma resolved_module_has_resolved_specifier_witness :
  let path_resolve := fun dir name : string => dir ++ "/" ++ name in
  let path_dirname := fun _ : string => "/app" in
  let a := mkModule 7 "/app/a.mjs" in
  let result := resolveImportedModule path_resolve path_dirname
                  (fun path => String.eqb path "/app/b.mjs") (fun _ => "export {}")
                  (fun _ => None) createRealm_state a "b.mjs" in
  cache_by_specifier result.2 /\
  forall m, result.1 = ResolvedModule m -> specifier m = "/app/b.mjs".
Proof.
  intros path_resolve path_dirname a.
  destruct (resolved_module_has_resolved_specifier path_resolve path_dirname
              (fun path => String.eqb path "/app/b.mjs") (fun _ => "export {}")
              (fun _ => None) createRealm_state a "b.mjs") as [Hstart Hkept].
  exact (Hkept Hstart).
Defined.

(** [print(1, 2)] and [print(1, x)] with a ToString of [x] that throws;
    values are numbers here, 0 standing for undefined, and ToString fails
    on 13. *)
Lemma print_writes_arguments_then_newline_witness :
  let API_ToString := fun v : nat =>
    if Nat.eqb v 13 then @IsAbrupt nat string 99%nat
    else NotAbrupt (if Nat.eqb v 1 then "1" else "2") in
  print nat string API_ToString 0%nat [1%nat; 2%nat] =
    (NotAbrupt 0%nat,
     [WroteValue "1"; WroteText " "; WroteValue "2"; WroteText " "; WroteText newline]) /\
  print nat string API_ToString 0%nat [1%nat; 13%nat; 2%nat] =
    (IsAbrupt 99%nat, [WroteValue "1"; WroteText " "]).
Proof.
  intros API_ToString. split.
  - apply (proj1 (print_writes_arguments_then_newline nat string API_ToString 0%nat
                    [1%nat; 2%nat] ["1"; "2"])).
    repeat constructor.
  - apply (proj2 (print_writes_arguments_then_newline nat string API_ToString 0%nat
                    [1%nat] ["1"]) 13%nat 99%nat [2%nat]).
    + repeat constructor.
    + reflexivity.
Defined.
End CLIRealmFacts.

(** ** Array.prototype.toString *)

(** X11.  toString calls the "join" property of the receiver's object,
    with the object as this value and no arguments, when that property is
    callable, and %ObjProto_toString% in the same way when it is not (a
    missing or non-callable join is no error); the completion of the call
    is the result, and the method reads no other property. *)
Theorem toString_calls_join_or_falls_back :
  forall (S : Type) (host : Host S) (ObjProto_toString : Value)
         (a : list Value) (thisValue : Value) (s s1 s2 s3 : S)
         (array func : Value) (callable : bool),
    host _ (ToObject thisValue) s = (NormalCompletion array, s1) ->
    host _ (Get array "join") s1 = (NormalCompletion func, s2) ->
    host _ (IsCallable func) s2 = (NormalCompletion callable, s3) ->
    let called := if callable then func else ObjProto_toString in
    let answer := host _ (Call called array []) s3 in
    exec host (ArrayProto_toString ObjProto_toString a thisValue) s =
    mkRun (Completed answer.1) answer.2
      [Performed (ToObject thisValue) (NormalCompletion array);
       Performed (Get array "join") (NormalCompletion func);
       Performed (IsCallable func) (NormalCompletion callable);
       Performed (Call called array []) answer.1].
Proof.
  intros S host ObjProto_toString a thisValue s s1 s2 s3 array func callable H1 H2 H3
    called answer.
  unfold ArrayProto_toString. simpl. rewrite H1. simpl. rewrite H2. simpl. rewrite H3.
  subst answer called. destruct callable; simpl;
    match goal with |- context [host Value ?e s3] =>
      destruct (host Value e s3) as [[v|t v] s4] end; reflexivity.
Qed.

(** ** The lengths slice and splice set *)

Section SliceCount.
Context {S : Type} (host : Host S).
Variable len : Z.

Local Abbreviation sliced tr :=
  (exists count : Z, 0 <= count <= len /\ Forall (slice_count count) tr).

Lemma sliced_Q {X : Type} (e : Op X) (f : X -> Prog Value) (s : S) :
  (forall r count, slice_count count (Performed e r)) ->
  (forall x s', sliced (trace (exec host (f x) s'))) ->
  0 <= len ->
  sliced (trace (exec host (bind (Q e) f) s)).
Proof.
  intros He Hf Hlen. unfold Q. simpl.
  destruct (host X e s) as [[x|t v] s'].
  - destruct (Hf x s') as (count & Hc & Htr).
    exists count. cbn [log trace]. split; [assumption|].
    constructor; [apply He|assumption].
  - exists 0. cbn [trace]. split; [lia|]. repeat constructor. apply He.
Qed.

Lemma slice_sliced obj args s :
  0 <= len ->
  sliced (trace (exec host
    (let start := arg args 0 in
     let end_ := arg args 1 in
     relativeStart ← Q (ToInteger start);
     let k := relative_to_absolute relativeStart len in
     relativeEnd ← (if is_undefined end_ then Ret (Fin len) else Q (ToInteger end_));
     let final := relative_to_absolute relativeEnd len in
     let count := Z.max (final - k) 0 in
     A ← Q (ArraySpeciesCreate obj count);
     '(_, n) ← iterate (Z.to_nat (final - k)) (fun '(k, n) =>
         let Pk := ToString k in
         kPresent ← Q (HasProperty obj Pk);
         (if kPresent : bool then
            kValue ← Q (Get obj Pk);
            let nStr := ToString n in
            Q (CreateDataPropertyOrThrow A nStr kValue);;
            Ret tt
          else Ret tt);;
         Ret (k + 1, n + 1)) (k, 0);
     Q (Set_ A "length" (new_Value n) true);;
     Ret A) s)).
Proof.
  intros Hlen. cbv zeta.
  apply sliced_Q; [intros; exact I| |exact Hlen]. intros relativeStart s1.
  assert (Hrest : forall relativeEnd s2,
    sliced (trace (exec host
      (A ← Q (ArraySpeciesCreate obj
                (Z.max (relative_to_absolute relativeEnd len -
                        relative_to_absolute relativeStart len) 0));
       '(_, n) ← iterate (Z.to_nat (relative_to_absolute relativeEnd len -
                                    relative_to_absolute relativeStart len))
         (fun '(k, n) =>
           kPresent ← Q (HasProperty obj (ToString k));
           (if kPresent : bool then
              kValue ← Q (Get obj (ToString k));
              Q (CreateDataPropertyOrThrow A (ToString n) kValue);;
              Ret tt
            else Ret tt);;
           Ret (k + 1, n + 1)) (relative_to_absolute relativeStart len, 0);
       Q (Set_ A "length" (new_Value n) true);;
       Ret A) s2))).
  { intros relativeEnd s2.
    pose proof (relative_to_absolute_range relativeStart len Hlen) as Hk.
    pose proof (relative_to_absolute_range relativeEnd len Hlen) as Hfinal.
    set (k := relative_to_absolute relativeStart len) in *.
    set (final := relative_to_absolute relativeEnd len) in *.
    exists (Z.max (final - k) 0). split; [lia|].
    apply trace_bind_Q_Forall; [intros r; reflexivity|]. intros A s3 _.
    pose proof (iterate_Forall host (slice_count (Z.max (final - k) 0))
                  (fun c '(k', n') => n' + Z.of_nat c = Z.max (final - k) 0)
                  (fun '(k, n) =>
                     kPresent ← Q (HasProperty obj (ToString k));
                     (if kPresent : bool then
                        kValue ← Q (Get obj (ToString k));
                        Q (CreateDataPropertyOrThrow A (ToString n) kValue);;
                        Ret tt
                      else Ret tt);;
                     Ret (k + 1, n + 1))) as Hloop.
    destruct Hloop with (n := Z.to_nat (final - k)) (st := (k, 0)) (s := s3)
      as [Htr Hst].
    { intros c [k' n'] s' Hn. split.
      - apply trace_bind_Q_Forall; [intros r; exact I|].
        intros [|] s4 _; (apply trace_bind_Forall; [|intros; constructor]);
          [|constructor].
        apply trace_bind_Q_Forall; [intros r; exact I|]. intros kValue s5 _.
        apply trace_bind_Q_Forall; [intros r; exact I|]. intros; constructor.
      - intros [k'' n''] Hout. apply outcome_bind_Returned in Hout.
        destruct Hout as (b & _ & Hout). apply outcome_bind_Returned in Hout.
        destruct Hout as (b' & _ & Hout). simpl in Hout. injection Hout as <- <-. lia. }
    { lia. }
    apply trace_bind_Forall; [exact Htr|]. intros [k' n'] Hout.
    apply Hst in Hout. rewrite Z.add_0_r in Hout. subst n'.
    apply trace_bind_Q_Forall; [intros r; split; reflexivity|]. intros; constructor. }
  destruct (is_undefined (arg args 1)).
  - exact (Hrest (Fin len) s1).
  - apply sliced_Q; [intros; exact I| |exact Hlen]. intros relativeEnd s2.
    exact (Hrest relativeEnd s2).
Qed.
End SliceCount.

(** X12.  slice makes its result with the length [count] = max(final - k, 0),
    which is at most the length of the receiver, and the one value it sets
    is the "length" of the result, to that same [count]: elements missing
    from the receiver leave holes, and do not shorten the result. *)
Theorem slice_sets_the_length_it_asked_for :
  forall (S : Type) (host : Host S) (args : list Value) (thisValue : Value)
         (s s1 : S) (obj : Value) (len : Z) (tr : list Event),
    read_length host thisValue s = (NormalCompletion (obj, len), s1, tr) ->
    0 <= len ->
    exists count : Z,
      0 <= count <= len /\
      Forall (slice_count count) (trace (exec host (ArrayProto_slice args thisValue) s)).
Proof.
  intros S host args thisValue s s1 obj len tr Hread Hlen.
  unfold ArrayProto_slice. cbv zeta.
  erewrite exec_after_read_length by exact Hread. cbn [trace].
  destruct (slice_sliced host len obj args s1 Hlen) as (count & Hcount & Htr).
  exists count. split; [exact Hcount|]. apply Forall_app. split; [|exact Htr].
  apply read_length_normal in Hread.
  destruct Hread as (lenProp & sa & sb & _ & _ & _ & ->).
  repeat constructor.
Qed.

Lemma clamp_count_range (dc : Integer) (upper : Z) :
  0 <= upper -> 0 <= clamp_count dc upper <= upper.
Proof. intros H. destruct dc; simpl; lia. Qed.

Section Splice.
Context {S : Type} (host : Host S).
Variable obj : Value.
Variable len : Z.
Hypothesis Hlen : 0 <= len.
Variable args : list Value.

Local Abbreviation itemCount := (Z.of_nat (length (skipn 2 args))).

Local Abbreviation spliced r :=
  (exists (actualStart actualDeleteCount : Z) (A : Value),
     0 <= actualStart <= len /\
     0 <= actualDeleteCount <= len - actualStart /\
     Forall (splicing obj len actualStart actualDeleteCount itemCount A) (trace r) /\
     forall v, outcome r = Returned v ->
       v = A /\ len - actualDeleteCount + itemCount <= MAX_SAFE_INTEGER).

Lemma move_property_Forall (P : Event -> Prop) from to (s : S) :
  (forall r, P (Performed (HasProperty obj from) r)) ->
  (forall r, P (Performed (Get obj from) r)) ->
  (forall V r, P (Performed (Set_ obj to V true) r)) ->
  (forall r, P (Performed (DeletePropertyOrThrow obj to) r)) ->
  Forall P (trace (exec host (move_property obj from to) s)).
Proof.
  intros H1 H2 H3 H4. unfold move_property.
  apply trace_bind_Q_Forall; [exact H1|].
  intros [|] s' _.
  - apply trace_bind_Q_Forall; [exact H2|]. intros fromVal s2 _.
    apply trace_bind_Q_Forall; [apply H3|]. intros _ s3 _.
    constructor.
  - apply trace_bind_Q_Forall; [exact H4|]. intros _ s3 _.
    constructor.
Qed.

(** The part of splice after the counts are known. *)
Lemma splice_body insertCount actualStart actualDeleteCount (s : S) :
  insertCount = itemCount ->
  0 <= actualStart <= len ->
  0 <= actualDeleteCount <= len - actualStart ->
  spliced (exec host
    (if len + insertCount - actualDeleteCount >? MAX_SAFE_INTEGER then
       Throw "TypeError" ArrayPastSafeLength
     else
       A ← Q (ArraySpeciesCreate obj actualDeleteCount);
       iterate (Z.to_nat (actualDeleteCount - 0)) (fun k =>
           let from := ToString (actualStart + k) in
           fromPresent ← Q (HasProperty obj from);
           (if fromPresent : bool then
              fromValue ← Q (Get obj from);
              Q (CreateDataPropertyOrThrow A (ToString k) fromValue);;
              Ret tt
            else Ret tt);;
           Ret (k + 1)) 0;;
       Q (Set_ A "length" (new_Value actualDeleteCount) true);;
       let itemCount := itemCount in
       (if itemCount <? actualDeleteCount then
          iterate (Z.to_nat (len - actualDeleteCount - actualStart)) (fun k =>
              let from := ToString (k + actualDeleteCount) in
              let to := ToString (k + itemCount) in
              move_property obj from to;;
              Ret (k + 1)) actualStart;;
          iterate (Z.to_nat (len - (len - actualDeleteCount + itemCount))) (fun k =>
              Q (DeletePropertyOrThrow obj (ToString (k - 1)));;
              Ret (k - 1)) len;;
          Ret tt
        else if itemCount >? actualDeleteCount then
          iterate (Z.to_nat (len - actualDeleteCount - actualStart)) (fun k =>
              let from := ToString (k + actualDeleteCount - 1) in
              let to := ToString (k + itemCount - 1) in
              move_property obj from to;;
              Ret (k - 1)) (len - actualDeleteCount);;
          Ret tt
        else Ret tt);;
       for_each (skipn 2 args) (fun E k =>
           Q (Set_ obj (ToString k) E true);;
           Ret (k + 1)) actualStart;;
       Q (Set_ obj "length" (new_Value (len - actualDeleteCount + itemCount)) true);;
       Ret A) s).
Proof.
  intros -> Hstart Hdel.
  destruct (len + itemCount - actualDeleteCount >? MAX_SAFE_INTEGER) eqn:Hbig.
  { exists actualStart, actualDeleteCount, Undefined.
    split; [lia|]. split; [lia|]. split; [constructor|discriminate]. }
  destruct (host Value (ArraySpeciesCreate obj actualDeleteCount) s) as [[A|t v] s1] eqn:HA.
  2:{ exists actualStart, actualDeleteCount, Undefined.
      rewrite (exec_bind_Q_abrupt host _ _ _ _ _ _ HA). cbn [trace outcome].
      split; [lia|]. split; [lia|]. split; [|discriminate].
      repeat constructor. intros A' [=]. }
  exists actualStart, actualDeleteCount, A.
  rewrite (exec_bind_Q_normal host _ _ _ _ _ HA). cbn [log trace outcome].
  split; [lia|]. split; [lia|].
  set (newLen := len - actualDeleteCount + itemCount).
  set (P := splicing obj len actualStart actualDeleteCount itemCount A).
  assert (Hk0 : 0 <= itemCount) by lia.
  split.
  2:{ intros v Hv. split; [|subst newLen; lia].
      do 5 (apply outcome_bind_Returned in Hv; destruct Hv as (? & _ & Hv)).
      simpl in Hv. injection Hv as <-. reflexivity. }
  constructor.
  { simpl. repeat split. intros A' [= <-]. reflexivity. }
  apply trace_bind_Forall.
  { apply (iterate_Forall host P (fun c k => 0 <= k /\ k + Z.of_nat c <= actualDeleteCount));
      [|lia].
    intros c k s' [Hk Hkc]. split.
    - apply trace_bind_Q_Forall.
      { intros r. simpl. split; [reflexivity|]. exists (actualStart + k).
        split; [lia|reflexivity]. }
      intros [|] s4 _; (apply trace_bind_Forall; [|intros; constructor]);
        [|constructor].
      apply trace_bind_Q_Forall.
      { intros r. simpl. split; [reflexivity|]. right. exists (actualStart + k).
        split; [lia|reflexivity]. }
      intros fromValue s5 _.
      apply trace_bind_Q_Forall; [|intros; constructor].
      intros r. simpl. split; [reflexivity|]. exists k. split; [lia|reflexivity].
    - intros k' Hout. apply outcome_bind_Returned in Hout.
      destruct Hout as (b & _ & Hout). apply outcome_bind_Returned in Hout.
      destruct Hout as (b' & _ & Hout). simpl in Hout. injection Hout as <-. lia. }
  intros k1 _.
  apply trace_bind_Q_Forall.
  { intros r. simpl. left. repeat split. }
  intros _ s2 _. cbv zeta.
  assert (Hmove : forall from to s',
            actualStart <= from < len -> actualStart <= to < Z.max len newLen ->
            Forall P (trace (exec host (move_property obj (ToString from) (ToString to)) s'))).
  { intros from to s' Hfrom Hto. apply move_property_Forall.
    - intros r. simpl. split; [reflexivity|]. exists from. split; [lia|reflexivity].
    - intros r. simpl. split; [reflexivity|]. right. exists from. split; [lia|reflexivity].
    - intros V r. simpl. right. right. split; [reflexivity|]. exists to.
      split; [exact Hto|reflexivity].
    - intros r. simpl. split; [reflexivity|]. exists to. split; [exact Hto|reflexivity]. }
  apply trace_bind_Forall.
  { destruct (itemCount <? actualDeleteCount) eqn:Hlt.
    - apply trace_bind_Forall.
      { apply (iterate_Forall host P
                 (fun c k => actualStart <= k /\ k + Z.of_nat c <= len - actualDeleteCount));
          [|lia].
        intros c k s' [Hk Hkc]. split.
        - apply trace_bind_Forall; [|intros; constructor].
          apply Hmove; subst newLen; lia.
        - intros k' Hout. apply outcome_bind_Returned in Hout.
          destruct Hout as (b & _ & Hout). simpl in Hout. injection Hout as <-. lia. }
      intros k2 _.
      apply trace_bind_Forall; [|intros; constructor].
      apply (iterate_Forall host P
               (fun c k => k <= len /\ k - Z.of_nat c >= newLen)); [|subst newLen; lia].
      intros c k s' [Hk Hkc]. split.
      + apply trace_bind_Q_Forall; [|intros; constructor].
        intros r. simpl. split; [reflexivity|]. exists (k - 1).
        split; [subst newLen; lia|reflexivity].
      + intros k' Hout. apply outcome_bind_Returned in Hout.
        destruct Hout as (b & _ & Hout). simpl in Hout. injection Hout as <-. lia.
    - destruct (itemCount >? actualDeleteCount) eqn:Hgt; [|constructor].
      apply trace_bind_Forall; [|intros; constructor].
      apply (iterate_Forall host P
               (fun c k => k <= len - actualDeleteCount /\ k - Z.of_nat c >= actualStart));
        [|lia].
      intros c k s' [Hk Hkc]. split.
      + apply trace_bind_Forall; [|intros; constructor].
        apply Hmove; subst newLen; lia.
      + intros k' Hout. apply outcome_bind_Returned in Hout.
        destruct Hout as (b & _ & Hout). simpl in Hout. injection Hout as <-. lia. }
  intros _ _.
  apply trace_bind_Forall.
  { apply (for_each_Forall_left host P
             (fun c k => actualStart <= k /\ k + Z.of_nat c <= actualStart + itemCount));
      [|lia].
    intros c E k s' [Hk Hkc]. split.
    - apply trace_bind_Q_Forall; [|intros; constructor].
      intros r. simpl. right. right. split; [reflexivity|]. exists k.
      split; [subst newLen; lia|reflexivity].
    - intros k' Hout. apply outcome_bind_Returned in Hout.
      destruct Hout as (b & _ & Hout). simpl in Hout. injection Hout as <-. lia. }
  intros k3 _.
  apply trace_bind_Q_Forall; [|intros; constructor].
  intros r. simpl. right. left. repeat split.
Qed.

Lemma spliced_ToInteger (v : Value) (f : Integer -> Prog Value) (s : S) :
  (forall x s', spliced (exec host (f x) s')) ->
  spliced (exec host (bind (Q (ToInteger v)) f) s).
Proof.
  intros Hf.
  destruct (host Integer (ToInteger v) s) as [[x|t e] s'] eqn:Hx.
  - rewrite (exec_bind_Q_normal host _ _ _ _ _ Hx).
    destruct (Hf x s') as (actualStart & actualDeleteCount & A & H1 & H2 & Htr & Hret).
    exists actualStart, actualDeleteCount, A. cbn [log trace outcome].
    split; [exact H1|]. split; [exact H2|]. split; [|exact Hret].
    constructor; [exact I|exact Htr].
  - rewrite (exec_bind_Q_abrupt host _ _ _ _ _ _ Hx).
    exists 0, 0, Undefined. cbn [trace outcome].
    split; [lia|]. split; [lia|]. split; [|discriminate].
    repeat constructor.
Qed.

Lemma skipn_2_length : itemCount = Z.max (Z.of_nat (length args) - 2) 0.
Proof. rewrite length_skipn. lia. Qed.

Lemma splice_spliced (s : S) :
  spliced (exec host
    (let start := arg args 0 in
     let items := skipn 2 args in
     relativeStart ← Q (ToInteger start);
     let actualStart := relative_to_absolute relativeStart len in
     '(insertCount, actualDeleteCount) ← splice_counts args len actualStart;
     if len + insertCount - actualDeleteCount >? MAX_SAFE_INTEGER then
       Throw "TypeError" ArrayPastSafeLength
     else
       A ← Q (ArraySpeciesCreate obj actualDeleteCount);
       iterate (Z.to_nat (actualDeleteCount - 0)) (fun k =>
           let from := ToString (actualStart + k) in
           fromPresent ← Q (HasProperty obj from);
           (if fromPresent : bool then
              fromValue ← Q (Get obj from);
              Q (CreateDataPropertyOrThrow A (ToString k) fromValue);;
              Ret tt
            else Ret tt);;
           Ret (k + 1)) 0;;
       Q (Set_ A "length" (new_Value actualDeleteCount) true);;
       let itemCount := Z.of_nat (length items) in
       (if itemCount <? actualDeleteCount then
          iterate (Z.to_nat (len - actualDeleteCount - actualStart)) (fun k =>
              let from := ToString (k + actualDeleteCount) in
              let to := ToString (k + itemCount) in
              move_property obj from to;;
              Ret (k + 1)) actualStart;;
          iterate (Z.to_nat (len - (len - actualDeleteCount + itemCount))) (fun k =>
              Q (DeletePropertyOrThrow obj (ToString (k - 1)));;
              Ret (k - 1)) len;;
          Ret tt
        else if itemCount >? actualDeleteCount then
          iterate (Z.to_nat (len - actualDeleteCount - actualStart)) (fun k =>
              let from := ToString (k + actualDeleteCount - 1) in
              let to := ToString (k + itemCount - 1) in
              move_property obj from to;;
              Ret (k - 1)) (len - actualDeleteCount);;
          Ret tt
        else Ret tt);;
       for_each items (fun E k =>
           Q (Set_ obj (ToString k) E true);;
           Ret (k + 1)) actualStart;;
       Q (Set_ obj "length" (new_Value (len - actualDeleteCount + itemCount)) true);;
       Ret A) s).
Proof.
  cbv zeta. apply spliced_ToInteger. intros relativeStart s1.
  pose proof (relative_to_absolute_range relativeStart len Hlen) as Hstart.
  set (actualStart := relative_to_absolute relativeStart len) in *.
  pose proof skipn_2_length as Hitems.
  unfold splice_counts.
  destruct (length args) as [|[|n]] eqn:Hargs.
  - apply (splice_body 0 actualStart 0 s1); lia.
  - apply (splice_body 0 actualStart (len - actualStart) s1); lia.
  - apply spliced_ToInteger. intros dc s2.
    pose proof (clamp_count_range dc (len - actualStart)) as Hdc.
    apply (splice_body _ actualStart (clamp_count dc (len - actualStart)) s2); lia.
Qed.
End Splice.


(** ** The theorems at work on the heap of [[1,2,3]] *)

(** [[1,2,3].fill(0)]. *)
Lemma in_place_methods_stay_within_length_witness :
  let r := exec (heap_host no_sort) (ArrayProto M_fill 0 [one 0] (Obj 0)) heap_123 in
  Forall (in_place (Obj 0) 3) (trace r) /\
  (In M_fill [M_copyWithin; M_fill] -> forall v, outcome r = Returned v -> v = Obj 0).
Proof.
  apply (in_place_methods_stay_within_length Heap (heap_host no_sort) M_fill 0%nat
           [one 0] (Obj 0) heap_123 heap_123 (Obj 0) 3
           [Performed (ToObject (Obj 0)) (NormalCompletion (Obj 0));
            Performed (Get (Obj 0) "length") (NormalCompletion (one 3));
            Performed (ToLength (one 3)) (NormalCompletion 3)]).
  - simpl. tauto.
  - vm_compute. reflexivity.
  - lia.
Defined.

(** [[1,2,3].unshift(0)]. *)
Lemma growing_methods_stay_within_new_length_witness :
  let r := exec (heap_host no_sort) (ArrayProto M_unshift 0 [one 0] (Obj 0)) heap_123 in
  Forall (in_place (Obj 0) (Z.min (3 + 1) MAX_SAFE_INTEGER)) (trace r) /\
  forall v, outcome r = Returned v -> v = new_Value (3 + 1) /\ 3 + 1 <= MAX_SAFE_INTEGER.
Proof.
  apply (growing_methods_stay_within_new_length Heap (heap_host no_sort) M_unshift 0%nat
           [one 0] (Obj 0) heap_123 heap_123 (Obj 0) 3
           [Performed (ToObject (Obj 0)) (NormalCompletion (Obj 0));
            Performed (Get (Obj 0) "length") (NormalCompletion (one 3));
            Performed (ToLength (one 3)) (NormalCompletion 3)]).
  - simpl. tauto.
  - vm_compute. reflexivity.
  - unfold MAX_SAFE_INTEGER. lia.
Defined.

(** [[1,2,3].push(4, 5)]. *)
Lemma push_stores_items_in_order_witness :
  let r := exec (heap_host no_sort) (ArrayProto_push [one 4; one 5] (Obj 0)) heap_123 in
  stored (trace r) `prefix_of` push_stores (Obj 0) 3 [one 4; one 5] /\
  forall v, outcome r = Returned v ->
    stored (trace r) = push_stores (Obj 0) 3 [one 4; one 5] /\
    v = new_Value (3 + Z.of_nat (length [one 4; one 5])).
Proof.
  apply (push_stores_items_in_order Heap (heap_host no_sort) [one 4; one 5] (Obj 0)
           heap_123 heap_123 (Obj 0) 3
           [Performed (ToObject (Obj 0)) (NormalCompletion (Obj 0));
            Performed (Get (Obj 0) "length") (NormalCompletion (one 3));
            Performed (ToLength (one 3)) (NormalCompletion 3)]).
  - vm_compute. reflexivity.
  - unfold MAX_SAFE_INTEGER. simpl. lia.
Defined.

(** [[[1,2],[3,[4]]].flat()]. *)
Lemma results_without_holes_witness :
  let r := exec (heap_host no_sort) (ArrayProto M_flat 3 [] (Obj 3)) heap_nested in
  exists (A : Value) (n : nat),
    creations (trace r) = consecutive A 0 n /\
    forall v, outcome r = Returned v -> v = A.
Proof.
  apply (results_without_holes Heap (heap_host no_sort) M_flat 3%nat [] (Obj 3) heap_nested).
  simpl. tauto.
Defined.

(** [[1,2,3].slice(1)]. *)
Lemma copying_methods_write_only_their_result_witness :
  let r := exec (heap_host no_sort) (ArrayProto M_slice 0 [one 1] (Obj 0)) heap_123 in
  exists A : Value,
    Forall (copying (Obj 0) 3 A) (trace r) /\
    forall v, outcome r = Returned v -> v = A.
Proof.
  apply (copying_methods_write_only_their_result Heap (heap_host no_sort) M_slice 0%nat
           [one 1] (Obj 0) heap_123 heap_123 (Obj 0) 3
           [Performed (ToObject (Obj 0)) (NormalCompletion (Obj 0));
            Performed (Get (Obj 0) "length") (NormalCompletion (one 3));
            Performed (ToLength (one 3)) (NormalCompletion 3)]).
  - simpl. tauto.
  - vm_compute. reflexivity.
  - lia.
Defined.

(** A receiver without a "join" property. *)
Lemma toString_calls_join_or_falls_back_witness :
  exec (heap_host no_sort) (ArrayProto_toString (Obj 9) [] (Obj 0)) heap_123 =
  mkRun (Completed (@TypeError Value)) heap_123
    [Performed (ToObject (Obj 0)) (NormalCompletion (Obj 0));
     Performed (Get (Obj 0) "join") (NormalCompletion Undefined);
     Performed (IsCallable Undefined) (NormalCompletion false);
     Performed (Call (Obj 9) (Obj 0) []) TypeError].
Proof.
  apply (toString_calls_join_or_falls_back Heap (heap_host no_sort) (Obj 9) [] (Obj 0)
           heap_123 heap_123 heap_123 heap_123 (Obj 0) Undefined false);
    vm_compute; reflexivity.
Defined.

(** [[1,2,3].slice(1)]. *)
Lemma slice_sets_the_length_it_asked_for_witness :
  exists count : Z,
    0 <= count <= 3 /\
    Forall (slice_count count)
      (trace (exec (heap_host no_sort) (ArrayProto_slice [one 1] (Obj 0)) heap_123)).
Proof.
  apply (slice_sets_the_length_it_asked_for Heap (heap_host no_sort) [one 1] (Obj 0)
           heap_123 heap_123 (Obj 0) 3
           [Performed (ToObject (Obj 0)) (NormalCompletion (Obj 0));
            Performed (Get (Obj 0) "length") (NormalCompletion (one 3));
            Performed (ToLength (one 3)) (NormalCompletion 3)]).
  - vm_compute. reflexivity.
  - lia.
Defined.


(** * Arrays on the heap *)

(** ** Index keys *)

Lemma int_of_string_ToString (i : Z) :
  NilZero.int_of_string (ToString i) = Some (Z.to_int i).
Proof.
  unfold ToString. apply NilZero.isi.
  - intros H. assert (Hi : i = 0) by (rewrite <- (DecimalZ.of_to i), H; reflexivity).
    subst i. discriminate H.
  - intros H. assert (Hi : i = 0) by (rewrite <- (DecimalZ.of_to i), H; reflexivity).
    subst i. discriminate H.
Qed.

Lemma ToString_inj (i j : Z) : ToString i = ToString j -> i = j.
Proof.
  intros H. apply (f_equal NilZero.int_of_string) in H.
  rewrite !int_of_string_ToString in H. injection H as H.
  rewrite <- (DecimalZ.of_to i), <- (DecimalZ.of_to j), H. reflexivity.
Qed.

Lemma ToString_not_length (i : Z) : ToString i <> "length".
Proof.
  intros H. apply (f_equal NilZero.int_of_string) in H.
  rewrite int_of_string_ToString in H. discriminate H.
Qed.

Lemma array_index_ToString (i : Z) :
  0 <= i < 2 ^ 32 - 1 -> array_index (ToString i) = Some i.
Proof.
  intros Hi. unfold array_index. rewrite int_of_string_ToString, DecimalZ.of_to.
  rewrite String.eqb_refl.
  destruct (0 <=? i) eqn:H0; [|lia]. destruct (i <? 2 ^ 32 - 1) eqn:H1; [|lia].
  reflexivity.
Qed.

Lemma array_index_Some (P : PropertyKey) (i : Z) :
  array_index P = Some i -> P = ToString i /\ 0 <= i < 2 ^ 32 - 1.
Proof.
  unfold array_index. destruct (NilZero.int_of_string P) as [d|]; [|discriminate].
  cbv zeta.
  destruct (String.eqb (ToString (Z.of_int d)) P) eqn:H1; [|discriminate].
  destruct (0 <=? Z.of_int d) eqn:H2; [|discriminate].
  destruct (Z.of_int d <? 2 ^ 32 - 1) eqn:H3; [|discriminate].
  simpl. intros [= <-]. apply String.eqb_eq in H1. split; [congruence|lia].
Qed.

(** ** The properties of an array *)

Lemma element_properties_lookup (elements : list Value) (K : PropertyKey) (v : Value) :
  element_properties elements !! K = Some v <->
  exists i : nat, K = ToString (Z.of_nat i) /\ elements !! i = Some v.
Proof.
  unfold element_properties. split.
  - intros H. apply elem_of_list_to_map_2 in H.
    apply elem_of_lookup_imap in H. destruct H as (i & x & [= -> ->] & Hx).
    exists i. split; [reflexivity|assumption].
  - intros (i & -> & Hi). apply elem_of_list_to_map_1.
    + rewrite fmap_imap. apply NoDup_alt. intros j k K.
      rewrite !list_lookup_imap. intros Hj Hk.
      destruct (elements !! j) eqn:Ej; [|discriminate].
      destruct (elements !! k) eqn:Ek; [|discriminate].
      simpl in Hj, Hk. injection Hj as <-. injection Hk as Hk.
      apply ToString_inj in Hk. lia.
    + apply elem_of_lookup_imap. exists i, v. split; [reflexivity|assumption].
Qed.

Lemma element_properties_index (elements : list Value) (i : nat) :
  element_properties elements !! ToString (Z.of_nat i) = elements !! i.
Proof.
  destruct (elements !! i) as [v|] eqn:Hi.
  - apply element_properties_lookup. exists i. split; [reflexivity|assumption].
  - destruct (element_properties elements !! ToString (Z.of_nat i)) as [v|] eqn:Hv;
      [|reflexivity].
    apply element_properties_lookup in Hv. destruct Hv as (j & Hj & Hv).
    apply ToString_inj in Hj. assert (j = i) by lia. subst j. congruence.
Qed.

Lemma element_properties_length (elements : list Value) :
  element_properties elements !! "length" = None.
Proof.
  destruct (element_properties elements !! "length") as [v|] eqn:Hv; [|reflexivity].
  apply element_properties_lookup in Hv. destruct Hv as (j & Hj & _).
  symmetry in Hj. destruct (ToString_not_length _ Hj).
Qed.

Lemma element_properties_snoc (elements : list Value) (V : Value) :
  element_properties (elements ++ [V]) =
  <[ToString (Z.of_nat (length elements)) := V]> (element_properties elements).
Proof.
  apply map_eq. intros K.
  destruct (decide (K = ToString (Z.of_nat (length elements)))) as [->|Hne].
  - rewrite lookup_insert_eq, element_properties_index.
    rewrite lookup_app_r by lia. rewrite Nat.sub_diag. reflexivity.
  - rewrite lookup_insert_ne by congruence.
    apply option_eq. intros v. rewrite !element_properties_lookup.
    split; intros (i & -> & Hi); exists i; (split; [reflexivity|]).
    + apply lookup_app_Some in Hi. destruct Hi as [Hi|[Hlen Hi]]; [assumption|].
      apply list_lookup_singleton_Some in Hi. destruct Hi as [Hi _].
      exfalso. apply Hne. f_equal. lia.
    + apply lookup_app_l_Some. assumption.
Qed.

Lemma array_of_array_with (elements : list Value) :
  array_of elements = array_with (Z.of_nat (length elements)) elements.
Proof. reflexivity. Qed.

Lemma array_with_length_lookup len elements :
  properties (array_with len elements) !! "length" = Some (Num (Int len)).
Proof. simpl. apply lookup_insert_eq. Qed.

Lemma array_with_index_lookup len elements (i : nat) :
  properties (array_with len elements) !! ToString (Z.of_nat i) = elements !! i.
Proof.
  simpl. rewrite lookup_insert_ne by (apply not_eq_sym, ToString_not_length).
  apply element_properties_index.
Qed.

Lemma array_length_array_with len elements : array_length (array_with len elements) = len.
Proof. unfold array_length. rewrite array_with_length_lookup. reflexivity. Qed.

(** ** Defining and deleting properties of an array *)

(** Storing the element after the last one; the length follows when the
    array was full. *)
Lemma define_value_snoc len elements V :
  Z.of_nat (length elements) < 2 ^ 32 - 1 ->
  define_value (array_with len elements) (ToString (Z.of_nat (length elements))) V =
  NormalCompletion (array_with (Z.max len (Z.of_nat (length elements) + 1))
                               (elements ++ [V])).
Proof.
  intros Hn. unfold define_value.
  change (class (array_with len elements)) with ClassArray. cbv iota.
  destruct (String.eqb_spec (ToString (Z.of_nat (length elements))) "length") as [E|_];
    [destruct (ToString_not_length _ E)|].
  rewrite array_index_ToString by lia. cbv zeta.
  rewrite array_length_array_with.
  unfold with_property, array_with. cbn [class properties isConcatSpreadable].
  rewrite element_properties_snoc.
  destruct (len <=? Z.of_nat (length elements)) eqn:Hle.
  - rewrite Z.max_r by lia. f_equal. f_equal.
    rewrite (insert_insert_ne _ (ToString _) "length") by apply ToString_not_length.
    rewrite insert_insert_eq. reflexivity.
  - rewrite Z.max_l by lia. f_equal. f_equal.
    apply insert_insert_ne. apply ToString_not_length.
Qed.

(** Setting "length" to a value that cuts no element off. *)
Lemma define_value_length len elements (n : Z) :
  Z.of_nat (length elements) <= n < 2 ^ 32 ->
  define_value (array_with len elements) "length" (Num (Int n)) =
  NormalCompletion (array_with n elements).
Proof.
  intros Hn. unfold define_value.
  change (class (array_with len elements)) with ClassArray. cbv iota.
  change (String.eqb "length" "length") with true. cbv iota.
  simpl ToNumber. cbv iota.
  destruct (0 <=? n) eqn:H0; [|lia]. destruct (n <? 2 ^ 32) eqn:H1; [|lia].
  cbn [andb]. f_equal. unfold set_array_length, array_with.
  cbn [class properties isConcatSpreadable]. f_equal.
  rewrite map_filter_id.
  - apply insert_insert_eq.
  - intros K v HK. cbn [fst]. unfold below_length.
    destruct (array_index K) as [i|] eqn:Hi; [|reflexivity].
    apply array_index_Some in Hi. destruct Hi as [-> Hi].
    rewrite lookup_insert_ne in HK by (apply not_eq_sym, ToString_not_length).
    apply element_properties_lookup in HK. destruct HK as (j & Hj & Hv).
    apply ToString_inj in Hj. apply lookup_lt_Some in Hv. apply Z.ltb_lt. lia.
Qed.

(** Deleting the last element. *)
Lemma delete_last len elements V :
  delete (ToString (Z.of_nat (length elements)))
         (properties (array_with len (elements ++ [V]))) =
  properties (array_with len elements).
Proof.
  cbn [properties array_with]. rewrite element_properties_snoc.
  rewrite delete_insert_ne by apply ToString_not_length.
  rewrite delete_insert_id; [reflexivity|].
  rewrite element_properties_index. apply lookup_ge_None. lia.
Qed.

(** ** The operations on an array of the heap *)
Section HeapArrays.
Variable sortBody : Value -> Z -> Value -> Heap -> Completion Value * Heap.
Local Abbreviation host := (heap_host sortBody).

Lemma lookup_object_Some h a o : objects h !! a = Some o -> lookup_object h a = o.
Proof. intros H. unfold lookup_object. rewrite H. reflexivity. Qed.

Lemma store_object_same h a o : objects h !! a = Some o -> store_object h a o = h.
Proof.
  intros H. unfold store_object. rewrite insert_id by exact H. destruct h; reflexivity.
Qed.

Lemma store_object_twice h a o o' :
  store_object (store_object h a o) a o' = store_object h a o'.
Proof. unfold store_object. simpl. rewrite insert_insert_eq. reflexivity. Qed.

Lemma store_object_lookup h a o : objects (store_object h a o) !! a = Some o.
Proof. apply lookup_insert_eq. Qed.

Lemma heap_Get_array h a len elements (i : nat) v :
  objects h !! a = Some (array_with len elements) ->
  elements !! i = Some v ->
  host _ (Get (Obj a) (ToString (Z.of_nat i))) h = (NormalCompletion v, h).
Proof.
  intros Ha Hi. simpl. rewrite (lookup_object_Some _ _ _ Ha).
  rewrite array_with_index_lookup, Hi. reflexivity.
Qed.

Lemma heap_Get_length h a len elements :
  objects h !! a = Some (array_with len elements) ->
  host _ (Get (Obj a) "length") h = (NormalCompletion (Num (Int len)), h).
Proof.
  intros Ha. cbn [heap_host]. rewrite (lookup_object_Some _ _ _ Ha).
  rewrite array_with_length_lookup. reflexivity.
Qed.

Lemma heap_HasProperty_array h a len elements (i : nat) :
  objects h !! a = Some (array_with len elements) ->
  host _ (HasProperty (Obj a) (ToString (Z.of_nat i))) h =
  (NormalCompletion (bool_decide (i < length elements)%nat), h).
Proof.
  intros Ha. cbn [heap_host]. rewrite (lookup_object_Some _ _ _ Ha).
  rewrite array_with_index_lookup. do 2 f_equal.
  apply bool_decide_ext. rewrite lookup_lt_is_Some. reflexivity.
Qed.

Lemma heap_ToLength_length h (n : Z) :
  0 <= n <= MAX_SAFE_INTEGER ->
  host _ (ToLength (Num (Int n))) h = (NormalCompletion n, h).
Proof.
  intros Hn. cbn [heap_host]. unfold host_ToLength, host_ToInteger. simpl ToNumber.
  cbv iota. do 2 f_equal. lia.
Qed.

Lemma heap_Set_snoc h a len elements V flag :
  objects h !! a = Some (array_with len elements) ->
  Z.of_nat (length elements) < 2 ^ 32 - 1 ->
  host _ (Set_ (Obj a) (ToString (Z.of_nat (length elements))) V flag) h =
  (NormalCompletion true,
   store_object h a (array_with (Z.max len (Z.of_nat (length elements) + 1))
                                (elements ++ [V]))).
Proof.
  intros Ha Hn. cbn [heap_host]. rewrite (lookup_object_Some _ _ _ Ha).
  rewrite define_value_snoc by exact Hn. reflexivity.
Qed.

Lemma heap_Set_length h a len elements (n : Z) flag :
  objects h !! a = Some (array_with len elements) ->
  Z.of_nat (length elements) <= n < 2 ^ 32 ->
  host _ (Set_ (Obj a) "length" (Num (Int n)) flag) h =
  (NormalCompletion true, store_object h a (array_with n elements)).
Proof.
  intros Ha Hn. cbn [heap_host]. rewrite (lookup_object_Some _ _ _ Ha).
  rewrite define_value_length by exact Hn. reflexivity.
Qed.

Lemma heap_Delete_last h a len elements V :
  objects h !! a = Some (array_with len (elements ++ [V])) ->
  host _ (DeletePropertyOrThrow (Obj a) (ToString (Z.of_nat (length elements)))) h =
  (NormalCompletion true, store_object h a (array_with len elements)).
Proof.
  intros Ha. cbn [heap_host]. rewrite (lookup_object_Some _ _ _ Ha).
  change (class (array_with len (elements ++ [V]))) with ClassArray. cbv iota zeta.
  destruct (String.eqb_spec (ToString (Z.of_nat (length elements))) "length") as [E|_];
    [destruct (ToString_not_length _ E)|].
  rewrite delete_last. reflexivity.
Qed.
End HeapArrays.

(** ** Runs that return *)
Section RunsTo.
Context {S : Type} (host : Host S).

Lemma runs_to_Ret {A : Type} (a : A) (s : S) : runs_to host (Ret a) s a s.
Proof. split; reflexivity. Qed.

Lemma runs_to_bind {A B : Type} (p : Prog A) (f : A -> Prog B) s a s1 b s2 :
  runs_to host p s a s1 -> runs_to host (f a) s1 b s2 ->
  runs_to host (bind p f) s b s2.
Proof.
  intros [Hp1 Hp2] [Hf1 Hf2]. unfold runs_to. rewrite exec_bind. cbv zeta.
  rewrite Hp1, Hp2. cbn [outcome final]. split; assumption.
Qed.

Lemma runs_to_Q {X : Type} (e : Op X) s x s' :
  host _ e s = (NormalCompletion x, s') -> runs_to host (Q e) s x s'.
Proof. intros H. unfold runs_to, Q. simpl. rewrite H. split; reflexivity. Qed.

Lemma runs_to_bind_Q {X B : Type} (e : Op X) (f : X -> Prog B) s x s1 b s2 :
  host _ e s = (NormalCompletion x, s1) -> runs_to host (f x) s1 b s2 ->
  runs_to host (bind (Q e) f) s b s2.
Proof. intros He Hf. eapply runs_to_bind; [apply runs_to_Q; exact He|exact Hf]. Qed.

(** A method that reads the length first, on a receiver that gives it. *)
Lemma runs_to_read_length {A : Type} (k : Value -> Z -> Prog A)
    thisValue s obj lenProp len (a : A) s' :
  host _ (ToObject thisValue) s = (NormalCompletion obj, s) ->
  host _ (Get obj "length") s = (NormalCompletion lenProp, s) ->
  host _ (ToLength lenProp) s = (NormalCompletion len, s) ->
  runs_to host (k obj len) s a s' ->
  runs_to host (O ← Q (ToObject thisValue);
                lenProp ← Q (Get O "length");
                len ← Q (ToLength lenProp);
                k O len) s a s'.
Proof.
  intros H1 H2 H3 Hk.
  eapply runs_to_bind_Q; [exact H1|].
  eapply runs_to_bind_Q; [exact H2|].
  eapply runs_to_bind_Q; [exact H3|]. exact Hk.
Qed.
End RunsTo.

(** ** push and pop on an array of the heap *)
Section HeapPushPop.
Variable sortBody : Value -> Z -> Value -> Heap -> Completion Value * Heap.
Local Abbreviation host := (heap_host sortBody).
Variable a : N.

Lemma push_loop_heap (items : list Value) : forall (l : list Value) (h : Heap),
  objects h !! a = Some (array_of l) ->
  Z.of_nat (length l) + Z.of_nat (length items) < 2 ^ 32 ->
  runs_to host
    (for_each items (fun E len =>
         Q (Set_ (Obj a) (ToString len) E true);;
         Ret (len + 1)) (Z.of_nat (length l)))
    h (Z.of_nat (length l) + Z.of_nat (length items))
    (store_object h a (array_of (l ++ items))).
Proof.
  induction items as [|E items IH]; intros l h Ha Hn.
  - simpl. rewrite Z.add_0_r, app_nil_r, (store_object_same _ _ _ Ha).
    apply runs_to_Ret.
  - cbn [for_each]. cbn [length] in Hn.
    assert (Hset := heap_Set_snoc sortBody h a _ l E true Ha ltac:(lia)).
    rewrite Z.max_r in Hset by lia.
    eapply runs_to_bind.
    + eapply runs_to_bind_Q; [exact Hset|]. apply runs_to_Ret.
    + specialize (IH (l ++ [E])%list
                     (store_object h a (array_with (Z.of_nat (length l) + 1) (l ++ [E])))).
      rewrite length_app in IH. cbn [length] in IH.
      replace (Z.of_nat (length l + 1)) with (Z.of_nat (length l) + 1) in IH by lia.
      rewrite store_object_twice, <- app_assoc in IH. cbn [app] in IH.
      replace (Z.of_nat (length l) + Z.of_nat (length (E :: items)))
        with (Z.of_nat (length l) + 1 + Z.of_nat (length items))
        by (cbn [length]; lia).
      apply IH; [|lia].
      rewrite store_object_lookup, array_of_array_with, length_app. cbn [length].
      do 2 f_equal. lia.
Qed.

Lemma push_heap (l items : list Value) (h : Heap) :
  objects h !! a = Some (array_of l) ->
  Z.of_nat (length l) + Z.of_nat (length items) < 2 ^ 32 ->
  runs_to host (ArrayProto_push items (Obj a)) h
    (new_Value (Z.of_nat (length l) + Z.of_nat (length items)))
    (store_object h a (array_of (l ++ items))).
Proof.
  intros Ha Hn. unfold ArrayProto_push.
  eapply (runs_to_read_length host); [reflexivity| |apply heap_ToLength_length|].
  - rewrite array_of_array_with in Ha. exact (heap_Get_length sortBody _ _ _ _ Ha).
  - unfold MAX_SAFE_INTEGER. lia.
  - cbv zeta.
    destruct (Z.of_nat (length l) + Z.of_nat (length items) >? MAX_SAFE_INTEGER) eqn:Hbig;
      [unfold MAX_SAFE_INTEGER in Hbig; lia|].
    eapply runs_to_bind; [apply push_loop_heap; assumption|].
    eapply runs_to_bind_Q; [|apply runs_to_Ret]. unfold new_Value.
    rewrite (heap_Set_length sortBody _ a (Z.of_nat (length (l ++ items)%list)) (l ++ items)%list).
    + rewrite store_object_twice, (array_of_array_with (l ++ items)), length_app,
        Nat2Z.inj_add. reflexivity.
    + rewrite store_object_lookup. reflexivity.
    + rewrite length_app. lia.
Qed.

Lemma pop_heap (l : list Value) (x : Value) (h : Heap) :
  objects h !! a = Some (array_of (l ++ [x])) ->
  Z.of_nat (length l) < 2 ^ 32 - 1 ->
  runs_to host (ArrayProto_pop [] (Obj a)) h x (store_object h a (array_of l)).
Proof.
  intros Ha Hn. unfold ArrayProto_pop.
  assert (Hlen : Z.of_nat (length (l ++ [x])%list) = Z.of_nat (length l) + 1)
    by (rewrite length_app; simpl; lia).
  rewrite array_of_array_with, Hlen in Ha.
  eapply (runs_to_read_length host); [reflexivity| |apply heap_ToLength_length|].
  - exact (heap_Get_length sortBody _ _ _ _ Ha).
  - unfold MAX_SAFE_INTEGER. lia.
  - destruct (Z.of_nat (length l) + 1 =? 0) eqn:E; [lia|]. cbv zeta.
    replace (Z.of_nat (length l) + 1 - 1) with (Z.of_nat (length l)) by lia.
    eapply runs_to_bind_Q.
    { apply (heap_Get_array sortBody _ _ _ _ _ x Ha).
      rewrite lookup_app_r by lia. rewrite Nat.sub_diag. reflexivity. }
    eapply runs_to_bind_Q; [exact (heap_Delete_last sortBody _ _ _ _ _ Ha)|].
    eapply runs_to_bind_Q; [|apply runs_to_Ret]. unfold new_Value.
    rewrite (heap_Set_length sortBody _ a (Z.of_nat (length l) + 1) l).
    + rewrite store_object_twice. reflexivity.
    + apply store_object_lookup.
    + lia.
Qed.
End HeapPushPop.

(** X14.  On the heap, push appends: for every array of the heap, with
    elements [l], and all items, as long as the new length is below 2^32,
    push returns the new length and leaves the array with the elements
    [l ++ items] and that length, and every other object as it was. *)
Theorem push_appends :
  forall (sortBody : Value -> Z -> Value -> Heap -> Completion Value * Heap)
         (h : Heap) (a : N) (l items : list Value),
    objects h !! a = Some (array_of l) ->
    Z.of_nat (length l) + Z.of_nat (length items) < 2 ^ 32 ->
    let r := exec (heap_host sortBody) (ArrayProto_push items (Obj a)) h in
    outcome r = Returned (new_Value (Z.of_nat (length l) + Z.of_nat (length items))) /\
    final r = store_object h a (array_of (l ++ items)).
Proof.
  intros sortBody h a l items Ha Hn. exact (push_heap sortBody a l items h Ha Hn).
Qed.

(** X15.  On the heap, pop takes the last element off: for every array
    with elements [l ++ [x]] it returns [x] and leaves the array with the
    elements [l] and every other object as it was; and push puts it back:
    [push(x)] after that returns the old length and leaves the heap that
    was there before the pop. *)
Theorem pop_removes_last_and_push_restores :
  forall (sortBody : Value -> Z -> Value -> Heap -> Completion Value * Heap)
         (h : Heap) (a : N) (l : list Value) (x : Value),
    objects h !! a = Some (array_of (l ++ [x])) ->
    Z.of_nat (length l) < 2 ^ 32 - 1 ->
    let popped := exec (heap_host sortBody) (ArrayProto_pop [] (Obj a)) h in
    let pushed := exec (heap_host sortBody) (ArrayProto_push [x] (Obj a)) (final popped) in
    (outcome popped = Returned x /\ final popped = store_object h a (array_of l)) /\
    (outcome pushed = Returned (new_Value (Z.of_nat (length l) + 1)) /\ final pushed = h).
Proof.
  intros sortBody h a l x Ha Hn popped pushed.
  destruct (pop_heap sortBody a l x h Ha Hn) as [Hout Hpopped].
  fold popped in Hout, Hpopped. split; [split; assumption|].
  assert (Hobj : objects (final popped) !! a = Some (array_of l))
    by (rewrite Hpopped; apply store_object_lookup).
  destruct (push_heap sortBody a l [x] (final popped) Hobj ltac:(simpl; lia))
    as [Hout' Hpushed].
  fold pushed in Hout', Hpushed. split; [exact Hout'|].
  rewrite Hpushed, Hpopped, store_object_twice. apply store_object_same. exact Ha.
Qed.

(** ** shift on an array of the heap *)

Lemma element_properties_insert (elements : list Value) (i : nat) (V : Value) :
  (i < length elements)%nat ->
  element_properties (<[i := V]> elements) =
  <[ToString (Z.of_nat i) := V]> (element_properties elements).
Proof.
  intros Hi. apply map_eq. intros K.
  destruct (decide (K = ToString (Z.of_nat i))) as [->|Hne].
  - rewrite lookup_insert_eq, element_properties_index.
    apply list_lookup_insert_eq. exact Hi.
  - rewrite lookup_insert_ne by congruence.
    apply option_eq. intros v. rewrite !element_properties_lookup.
    split; intros (j & -> & Hj); exists j; (split; [reflexivity|]);
      assert (i <> j) by (intros ->; apply Hne; reflexivity).
    + rewrite list_lookup_insert_ne in Hj by assumption. exact Hj.
    + rewrite list_lookup_insert_ne by assumption. exact Hj.
Qed.

(** Storing over an element leaves the length alone. *)
Lemma define_value_insert len elements (i : nat) V :
  (i < length elements)%nat ->
  Z.of_nat i < len ->
  Z.of_nat i < 2 ^ 32 - 1 ->
  define_value (array_with len elements) (ToString (Z.of_nat i)) V =
  NormalCompletion (array_with len (<[i := V]> elements)).
Proof.
  intros Hi Hlen Hn. unfold define_value.
  change (class (array_with len elements)) with ClassArray. cbv iota.
  destruct (String.eqb_spec (ToString (Z.of_nat i)) "length") as [E|_];
    [destruct (ToString_not_length _ E)|].
  rewrite array_index_ToString by lia. cbv zeta.
  rewrite array_length_array_with.
  destruct (len <=? Z.of_nat i) eqn:Hle; [lia|].
  unfold with_property, array_with. cbn [class properties isConcatSpreadable].
  rewrite element_properties_insert by exact Hi.
  f_equal. f_equal. apply insert_insert_ne. apply ToString_not_length.
Qed.

(** The elements while shift moves them down: the first [j] are in place. *)
Lemma shifted_step (x : Value) (l : list Value) (j : nat) (y : Value) :
  l !! j = Some y ->
  (take j l ++ drop j (x :: l))%list !! Datatypes.S j = Some y /\
  <[j := y]> (take j l ++ drop j (x :: l))%list =
  (take (Datatypes.S j) l ++ drop (Datatypes.S j) (x :: l))%list.
Proof.
  intros Hy. assert (Hj : (j < length l)%nat) by (eapply lookup_lt_Some; exact Hy).
  assert (Htake : length (take j l) = j) by (rewrite length_take; lia).
  split.
  - rewrite lookup_app_r by lia. rewrite Htake, lookup_drop.
    replace (j + (Datatypes.S j - j))%nat with (Datatypes.S j) by lia. exact Hy.
  - assert (Hd : exists z, drop j (x :: l) = z :: drop (Datatypes.S j) (x :: l)).
    { destruct ((x :: l) !! j) as [z|] eqn:Hz.
      - exists z. apply drop_S. exact Hz.
      - apply lookup_ge_None in Hz. simpl in Hz. lia. }
    destruct Hd as [z Hd]. rewrite Hd, (take_S_r l j y Hy), <- app_assoc. cbn [app].
    rewrite insert_app_r_alt by lia. rewrite Htake, Nat.sub_diag. reflexivity.
Qed.

Section HeapShift.
Variable sortBody : Value -> Z -> Value -> Heap -> Completion Value * Heap.
Local Abbreviation host := (heap_host sortBody).
Variable a : N.

Lemma heap_Set_insert h len elements (i : nat) V flag :
  objects h !! a = Some (array_with len elements) ->
  (i < length elements)%nat ->
  Z.of_nat i < len ->
  Z.of_nat i < 2 ^ 32 - 1 ->
  host _ (Set_ (Obj a) (ToString (Z.of_nat i)) V flag) h =
  (NormalCompletion true, store_object h a (array_with len (<[i := V]> elements))).
Proof.
  intros Ha Hi Hlen Hn. cbn [heap_host]. rewrite (lookup_object_Some _ _ _ Ha).
  rewrite define_value_insert by assumption. reflexivity.
Qed.

(** Moving a present element over another one. *)
Lemma move_property_heap h len elements (from to : nat) (v : Value) :
  objects h !! a = Some (array_with len elements) ->
  elements !! from = Some v ->
  (to < length elements)%nat ->
  Z.of_nat to < len ->
  Z.of_nat to < 2 ^ 32 - 1 ->
  runs_to host (move_property (Obj a) (ToString (Z.of_nat from)) (ToString (Z.of_nat to)))
    h tt (store_object h a (array_with len (<[to := v]> elements))).
Proof.
  intros Ha Hfrom Hto Hlen Hn. unfold move_property.
  eapply runs_to_bind_Q; [exact (heap_HasProperty_array sortBody _ _ _ _ from Ha)|].
  rewrite bool_decide_eq_true_2 by (eapply lookup_lt_Some; exact Hfrom).
  eapply runs_to_bind_Q; [exact (heap_Get_array sortBody _ _ _ _ _ _ Ha Hfrom)|].
  eapply runs_to_bind_Q; [exact (heap_Set_insert _ _ _ _ _ _ Ha Hto Hlen Hn)|].
  apply runs_to_Ret.
Qed.

Variable x : Value.
Variable l : list Value.
Hypothesis Hsize : Z.of_nat (length l) + 1 < 2 ^ 32.

Local Abbreviation len := (Z.of_nat (length l) + 1).
Local Abbreviation moved j := (take j l ++ drop j (x :: l))%list.

Lemma shift_loop_heap (c : nat) : forall (j : nat) (h : Heap),
  (j + c = length l)%nat ->
  objects h !! a = Some (array_with len (moved j)) ->
  runs_to host
    (iterate c (fun k =>
         let from := ToString k in
         let to := ToString (k - 1) in
         move_property (Obj a) from to;;
         Ret (k + 1)) (Z.of_nat j + 1))
    h len (store_object h a (array_with len (moved (length l)))).
Proof.
  induction c as [|c IH]; intros j h Hj Ha.
  - simpl. replace j with (length l) in * by lia.
    rewrite (store_object_same _ _ _ Ha). apply runs_to_Ret.
  - cbn [iterate]. cbv zeta.
    destruct (l !! j) as [y|] eqn:Hy; [|apply lookup_ge_None in Hy; lia].
    destruct (shifted_step x l j y Hy) as [Hget Hins].
    assert (Hlenj : length (moved j) = Datatypes.S (length l)).
    { rewrite length_app, length_take, length_drop. simpl. lia. }
    eapply runs_to_bind.
    + eapply runs_to_bind; [|apply runs_to_Ret].
      replace (Z.of_nat j + 1) with (Z.of_nat (Datatypes.S j)) by lia.
      replace (Z.of_nat (Datatypes.S j) - 1) with (Z.of_nat j) by lia.
      apply (move_property_heap h len (moved j) (Datatypes.S j) j y Ha Hget); lia.
    + rewrite Hins.
      replace (Z.of_nat j + 1 + 1) with (Z.of_nat (Datatypes.S j) + 1) by lia.
      specialize (IH (Datatypes.S j)
                     (store_object h a (array_with len (moved (Datatypes.S j))))).
      rewrite store_object_twice in IH. apply IH; [lia|apply store_object_lookup].
Qed.

Lemma shift_heap (h : Heap) :
  objects h !! a = Some (array_of (x :: l)) ->
  runs_to host (ArrayProto_shift [] (Obj a)) h x (store_object h a (array_of l)).
Proof.
  intros Ha. unfold ArrayProto_shift.
  assert (Harr : array_of (x :: l) = array_with len (moved 0)).
  { rewrite array_of_array_with. cbn [length take drop app]. f_equal. lia. }
  rewrite Harr in Ha.
  eapply (runs_to_read_length host); [reflexivity| |apply heap_ToLength_length|].
  - exact (heap_Get_length sortBody _ _ _ _ Ha).
  - unfold MAX_SAFE_INTEGER. lia.
  - destruct (len =? 0) eqn:E; [lia|].
    eapply runs_to_bind_Q.
    { apply (heap_Get_array sortBody _ _ _ _ 0%nat x Ha). reflexivity. }
    replace (Z.to_nat (len - 1)) with (length l) by lia.
    eapply runs_to_bind.
    { apply (shift_loop_heap (length l) 0%nat h); [lia|exact Ha]. }
    assert (Hlast : exists y, moved (length l) = (l ++ [y])%list).
    { rewrite firstn_all.
      destruct (drop (length l) (x :: l)) as [|y rest] eqn:Hdrop.
      { apply (f_equal length) in Hdrop. rewrite length_drop in Hdrop. simpl in Hdrop. lia. }
      assert (rest = []) as ->.
      { apply (f_equal length) in Hdrop. rewrite length_drop in Hdrop. simpl in Hdrop.
        destruct rest; [reflexivity|simpl in Hdrop; lia]. }
      exists y. reflexivity. }
    destruct Hlast as [y Hlast]. rewrite Hlast.
    replace (len - 1) with (Z.of_nat (length l)) by lia.
    eapply runs_to_bind_Q.
    { apply (heap_Delete_last sortBody _ a len l y). apply store_object_lookup. }
    rewrite store_object_twice.
    eapply runs_to_bind_Q; [|apply runs_to_Ret]. unfold new_Value.
    rewrite (heap_Set_length sortBody _ a len l).
    + rewrite store_object_twice. reflexivity.
    + apply store_object_lookup.
    + lia.
Qed.
End HeapShift.

(** X16.  On the heap, shift takes the first element off: for every
    array with elements [x :: l], of length below 2^32, shift returns [x]
    and leaves the array with the elements [l], each moved down by one
    index, and every other object as it was. *)
Theorem shift_removes_first :
  forall (sortBody : Value -> Z -> Value -> Heap -> Completion Value * Heap)
         (h : Heap) (a : N) (x : Value) (l : list Value),
    objects h !! a = Some (array_of (x :: l)) ->
    Z.of_nat (length l) + 1 < 2 ^ 32 ->
    let r := exec (heap_host sortBody) (ArrayProto_shift [] (Obj a)) h in
    outcome r = Returned x /\ final r = store_object h a (array_of l).
Proof.
  intros sortBody h a x l Ha Hsize. exact (shift_heap sortBody a x l Hsize h Ha).
Qed.

(** ** slice on an array of the heap *)
Section HeapSlice.
Variable sortBody : Value -> Z -> Value -> Heap -> Completion Value * Heap.
Local Abbreviation host := (heap_host sortBody).

Lemma heap_ArraySpeciesCreate h original (count : Z) :
  0 <= count < 2 ^ 32 ->
  host _ (ArraySpeciesCreate original count) h =
  (NormalCompletion (Obj (next_address h)), (allocate h (array_with count [])).2).
Proof.
  intros Hc. cbn [heap_host].
  destruct (0 <=? count) eqn:H0; [|lia]. destruct (count <? 2 ^ 32) eqn:H1; [|lia].
  cbn [andb allocate snd]. unfold array_with, element_properties.
  change (list_to_map (imap _ [])) with (∅ : gmap string Value).
  rewrite insert_empty. reflexivity.
Qed.

Lemma heap_Create_snoc h a len elements V :
  objects h !! a = Some (array_with len elements) ->
  Z.of_nat (length elements) < 2 ^ 32 - 1 ->
  host _ (CreateDataPropertyOrThrow (Obj a) (ToString (Z.of_nat (length elements))) V) h =
  (NormalCompletion true,
   store_object h a (array_with (Z.max len (Z.of_nat (length elements) + 1))
                                (elements ++ [V]))).
Proof.
  intros Ha Hn. cbn [heap_host]. rewrite (lookup_object_Some _ _ _ Ha). cbv zeta.
  change (class (array_with len elements)) with ClassArray. cbv iota.
  destruct (String.eqb_spec (ToString (Z.of_nat (length elements))) "length") as [E|_];
    [destruct (ToString_not_length _ E)|].
  rewrite define_value_snoc by exact Hn. reflexivity.
Qed.

(** The heap with the object at [A] replaced leaves the others alone. *)
Lemma store_object_other h A o a :
  a <> A -> objects (store_object h A o) !! a = objects h !! a.
Proof. intros Hne. apply lookup_insert_ne. congruence. Qed.

Variable a A : N.
Variable l : list Value.
Hypothesis HA : a <> A.

(** The loop of slice, copying [count] elements from index [k] on. *)
Lemma slice_loop_heap (k count : nat) (c : nat) : forall (j : nat) (h : Heap),
  (j + c = count)%nat ->
  (k + count <= length l)%nat ->
  Z.of_nat (length l) < 2 ^ 32 ->
  objects h !! a = Some (array_of l) ->
  objects h !! A = Some (array_with (Z.of_nat count) (take j (drop k l))) ->
  runs_to host
    (iterate c (fun '(k, n) =>
         let Pk := ToString k in
         kPresent ← Q (HasProperty (Obj a) Pk);
         (if kPresent : bool then
            kValue ← Q (Get (Obj a) Pk);
            let nStr := ToString n in
            Q (CreateDataPropertyOrThrow (Obj A) nStr kValue);;
            Ret tt
          else Ret tt);;
         Ret (k + 1, n + 1)) (Z.of_nat (k + j), Z.of_nat j))
    h (Z.of_nat (k + count), Z.of_nat count)
    (store_object h A (array_with (Z.of_nat count) (take count (drop k l)))).
Proof.
  induction c as [|c IH]; intros j h Hj Hk Hsize Ha HAobj.
  - simpl. replace j with count in * by lia.
    rewrite (store_object_same _ _ _ HAobj). apply runs_to_Ret.
  - cbn [iterate]. cbv zeta.
    destruct (l !! (k + j)%nat) as [v|] eqn:Hv; [|apply lookup_ge_None in Hv; lia].
    assert (Hlen : length (take j (drop k l)) = j)
      by (rewrite length_take, length_drop; lia).
    assert (Htake : take (Datatypes.S j) (drop k l) = (take j (drop k l) ++ [v])%list).
    { apply take_S_r. rewrite lookup_drop. exact Hv. }
    eapply runs_to_bind.
    + rewrite array_of_array_with in Ha.
      eapply runs_to_bind_Q;
        [exact (heap_HasProperty_array sortBody _ _ _ _ (k + j) Ha)|].
      rewrite bool_decide_eq_true_2 by (eapply lookup_lt_Some; exact Hv).
      eapply runs_to_bind; [|apply runs_to_Ret].
      eapply runs_to_bind_Q; [exact (heap_Get_array sortBody _ _ _ _ _ _ Ha Hv)|].
      cbv zeta.
      eapply runs_to_bind_Q; [|apply runs_to_Ret].
      rewrite <- Hlen at 1.
      apply (heap_Create_snoc h A _ _ v HAobj). lia.
    + rewrite Hlen, Z.max_l, <- Htake by lia.
      replace (Z.of_nat (k + j) + 1) with (Z.of_nat (k + Datatypes.S j)) by lia.
      replace (Z.of_nat j + 1) with (Z.of_nat (Datatypes.S j)) by lia.
      specialize (IH (Datatypes.S j)
        (store_object h A (array_with (Z.of_nat count) (take (Datatypes.S j) (drop k l))))).
      rewrite store_object_twice in IH. apply IH; try assumption; try lia.
      * rewrite store_object_other by exact HA. exact Ha.
      * apply store_object_lookup.
Qed.

Lemma heap_ToInteger h v : host _ (ToInteger v) h = (host_ToInteger v, h).
Proof. reflexivity. Qed.

Lemma slice_heap (h : Heap) (start end_ : Value) (relativeStart relativeEnd : Integer) :
  objects h !! a = Some (array_of l) ->
  A = next_address h ->
  Z.of_nat (length l) < 2 ^ 32 ->
  host_ToInteger start = NormalCompletion relativeStart ->
  (if is_undefined end_ then relativeEnd = Fin (Z.of_nat (length l))
   else host_ToInteger end_ = NormalCompletion relativeEnd) ->
  let k := relative_to_absolute relativeStart (Z.of_nat (length l)) in
  let final_ := relative_to_absolute relativeEnd (Z.of_nat (length l)) in
  runs_to host (ArrayProto_slice [start; end_] (Obj a)) h (Obj A)
    (allocate h (array_of (take (Z.to_nat (final_ - k)) (drop (Z.to_nat k) l)))).2.
Proof.
  intros Ha HAnext Hsize Hstart Hend k final_.
  pose proof (relative_to_absolute_range relativeStart (Z.of_nat (length l))
                ltac:(lia)) as Hk.
  pose proof (relative_to_absolute_range relativeEnd (Z.of_nat (length l))
                ltac:(lia)) as Hfinal.
  fold k in Hk. fold final_ in Hfinal.
  unfold ArrayProto_slice. cbv zeta. cbn [arg nth].
  eapply (runs_to_read_length host); [reflexivity| |apply heap_ToLength_length|].
  { rewrite array_of_array_with in Ha. exact (heap_Get_length sortBody _ _ _ _ Ha). }
  { unfold MAX_SAFE_INTEGER. lia. }
  eapply runs_to_bind_Q; [rewrite heap_ToInteger, Hstart; reflexivity|].
  eapply runs_to_bind.
  { instantiate (1 := h). instantiate (1 := relativeEnd).
    destruct (is_undefined end_).
    - subst relativeEnd. apply runs_to_Ret.
    - apply runs_to_Q. rewrite heap_ToInteger, Hend. reflexivity. }
  fold k. fold final_.
  set (count := Z.to_nat (final_ - k)).
  set (kn := Z.to_nat k).
  assert (Hcount : Z.max (final_ - k) 0 = Z.of_nat count) by lia.
  rewrite Hcount.
  eapply runs_to_bind_Q; [apply heap_ArraySpeciesCreate; lia|].
  rewrite <- HAnext.
  set (h1 := (allocate h (array_with (Z.of_nat count) [])).2).
  assert (Ha1 : objects h1 !! a = Some (array_of l)).
  { unfold h1. cbn [allocate snd objects]. rewrite lookup_insert_ne by congruence.
    exact Ha. }
  assert (HA1 : objects h1 !! A = Some (array_with (Z.of_nat count) [])).
  { unfold h1. cbn [allocate snd objects]. rewrite HAnext. apply lookup_insert_eq. }
  assert (Hsub : length (take count (drop kn l)) = count)
    by (rewrite length_take, length_drop; lia).
  eapply runs_to_bind.
  { pose proof (slice_loop_heap kn count count 0%nat h1) as Hloop.
    rewrite Nat.add_0_r, take_0 in Hloop. change (Z.of_nat 0) with 0 in Hloop.
    replace (Z.of_nat kn) with k in Hloop by lia.
    apply Hloop; try assumption; lia. }
  cbv beta iota.
  eapply runs_to_bind_Q; [|apply runs_to_Ret]. unfold new_Value.
  rewrite (heap_Set_length sortBody _ A (Z.of_nat count) (take count (drop kn l))).
  - rewrite store_object_twice. f_equal. unfold h1, store_object, allocate.
    cbn [snd objects next_address]. rewrite HAnext, insert_insert_eq.
    rewrite array_of_array_with, Hsub. reflexivity.
  - apply store_object_lookup.
  - lia.
Qed.
End HeapSlice.

(** X17.  On the heap, slice copies a range: for every array with
    elements [l] and every start and end, the result is a new array, at the
    next free address, whose elements are those of [l] from index [k] up to
    [final], the relative indices counted from the end when negative and
    clamped to [0, length l]; the receiver and every other object are as
    they were. *)
Theorem slice_copies_the_range :
  forall (sortBody : Value -> Z -> Value -> Heap -> Completion Value * Heap)
         (h : Heap) (a : N) (l : list Value) (start end_ : Value)
         (relativeStart relativeEnd : Integer),
    objects h !! a = Some (array_of l) ->
    objects h !! next_address h = None ->
    Z.of_nat (length l) < 2 ^ 32 ->
    host_ToInteger start = NormalCompletion relativeStart ->
    (if is_undefined end_ then relativeEnd = Fin (Z.of_nat (length l))
     else host_ToInteger end_ = NormalCompletion relativeEnd) ->
    let k := relative_to_absolute relativeStart (Z.of_nat (length l)) in
    let final_ := relative_to_absolute relativeEnd (Z.of_nat (length l)) in
    let r := exec (heap_host sortBody) (ArrayProto_slice [start; end_] (Obj a)) h in
    outcome r = Returned (Obj (next_address h)) /\
    final r =
      (allocate h (array_of (take (Z.to_nat (final_ - k)) (drop (Z.to_nat k) l)))).2.
Proof.
  intros sortBody h a l start end_ relativeStart relativeEnd Ha Hfree Hsize Hstart Hend.
  apply (slice_heap sortBody a (next_address h) l); try assumption; try reflexivity.
  intros ->. rewrite Hfree in Ha. discriminate.
Qed.

(** ** concat on arrays of the heap *)
Section HeapConcat.
Variable sortBody : Value -> Z -> Value -> Heap -> Completion Value * Heap.
Local Abbreviation host := (heap_host sortBody).
Variable h : Heap.
Hypothesis Hfree : objects h !! next_address h = None.

Local Abbreviation A := (next_address h).
(** The heap while concat fills its result, which holds [acc] so far. *)
Local Abbreviation filled acc := ((allocate h (array_of acc)).2).

Lemma filled_lookup_result acc : objects (filled acc) !! A = Some (array_of acc).
Proof. cbn [allocate snd objects]. apply lookup_insert_eq. Qed.

Lemma filled_lookup_other acc b o :
  objects h !! b = Some o -> objects (filled acc) !! b = Some o.
Proof.
  intros Hb. cbn [allocate snd objects]. rewrite lookup_insert_ne; [exact Hb|].
  intros <-. rewrite Hfree in Hb. discriminate.
Qed.

Lemma filled_store acc acc' : store_object (filled acc) A (array_of acc') = filled acc'.
Proof.
  unfold store_object. cbn [allocate snd objects next_address].
  rewrite insert_insert_eq. reflexivity.
Qed.

Lemma filled_snoc acc V :
  Z.of_nat (length acc) < 2 ^ 32 - 1 ->
  host _ (CreateDataPropertyOrThrow (Obj A) (ToString (Z.of_nat (length acc))) V)
       (filled acc) =
  (NormalCompletion true, filled (acc ++ [V])).
Proof.
  intros Hn.
  rewrite (heap_Create_snoc sortBody (filled acc) A (Z.of_nat (length acc)) acc V
             (filled_lookup_result acc) Hn), Z.max_r by lia.
  rewrite <- (filled_store acc (acc ++ [V])). do 2 f_equal.
  rewrite array_of_array_with, length_app. cbn [length]. do 2 f_equal. lia.
Qed.

(** Spreading the elements of the array at [b] into the result. *)
Lemma spread_loop_heap (b : N) (part : list Value) (c : nat) : forall (j : nat) (acc : list Value),
  (j + c = length part)%nat ->
  objects h !! b = Some (array_of part) ->
  Z.of_nat (length acc) + Z.of_nat c < 2 ^ 32 ->
  runs_to host
    (iterate c (fun '(k, n) =>
         let P := ToString k in
         exists_ ← Q (HasProperty (Obj b) P);
         (if exists_ : bool then
            subElement ← Q (Get (Obj b) P);
            let nStr := ToString n in
            Q (CreateDataPropertyOrThrow (Obj A) nStr subElement);;
            Ret tt
          else Ret tt);;
         Ret (k + 1, n + 1)) (Z.of_nat j, Z.of_nat (length acc)))
    (filled acc)
    (Z.of_nat (length part), Z.of_nat (length acc) + Z.of_nat c)
    (filled (acc ++ drop j part)).
Proof.
  induction c as [|c IH]; intros j acc Hj Hb Hsize.
  - simpl. replace j with (length part) by lia.
    rewrite drop_all, app_nil_r, Z.add_0_r. apply runs_to_Ret.
  - cbn [iterate]. cbv zeta.
    destruct (part !! j) as [v|] eqn:Hv; [|apply lookup_ge_None in Hv; lia].
    assert (Hb' : objects (filled acc) !! b =
                  Some (array_with (Z.of_nat (length part)) part))
      by exact (filled_lookup_other acc b _ Hb).
    eapply runs_to_bind.
    + eapply runs_to_bind_Q; [exact (heap_HasProperty_array sortBody _ _ _ _ j Hb')|].
      rewrite bool_decide_eq_true_2 by (eapply lookup_lt_Some; exact Hv).
      eapply runs_to_bind; [|apply runs_to_Ret].
      eapply runs_to_bind_Q; [exact (heap_Get_array sortBody _ _ _ _ _ _ Hb' Hv)|].
      cbv zeta.
      eapply runs_to_bind_Q; [|apply runs_to_Ret].
      apply filled_snoc. lia.
    + specialize (IH (Datatypes.S j) (acc ++ [v])%list).
      rewrite length_app in IH. cbn [length] in IH.
      replace (Z.of_nat (length acc + 1)) with (Z.of_nat (length acc) + 1) in IH by lia.
      replace (Z.of_nat j + 1) with (Z.of_nat (Datatypes.S j)) by lia.
      rewrite (drop_S part v j Hv).
      replace (Z.of_nat (length acc) + Z.of_nat (Datatypes.S c))
        with (Z.of_nat (length acc) + 1 + Z.of_nat c) by lia.
      rewrite <- app_assoc in IH. cbn [app] in IH.
      apply IH; [lia|exact Hb|lia].
Qed.

Lemma concat_item_heap (E : Value) (part acc : list Value) :
  spreads h E part ->
  Z.of_nat (length acc) + Z.of_nat (length part) < 2 ^ 32 ->
  runs_to host (concat_item (Obj A) E (Z.of_nat (length acc)))
    (filled acc)
    (Z.of_nat (length acc) + Z.of_nat (length part))
    (filled (acc ++ part)).
Proof.
  intros Hpart Hsize. unfold concat_item.
  assert (Hsingle : part = [E] -> (forall b, E <> Obj b) ->
    host _ (IsConcatSpreadable E) (filled acc) = (NormalCompletion false, filled acc) ->
    runs_to host
      (spreadable ← Q (IsConcatSpreadable E);
       if spreadable : bool then
         lenProp ← Q (Get E "length");
         len ← Q (ToLength lenProp);
         if Z.of_nat (length acc) + len >? MAX_SAFE_INTEGER then
           Throw "TypeError" ArrayPastSafeLength
         else
           '(_, n) ← iterate (Z.to_nat (len - 0)) (fun '(k, n) =>
               let P := ToString k in
               exists_ ← Q (HasProperty E P);
               (if exists_ : bool then
                  subElement ← Q (Get E P);
                  let nStr := ToString n in
                  Q (CreateDataPropertyOrThrow (Obj A) nStr subElement);;
                  Ret tt
                else Ret tt);;
               Ret (k + 1, n + 1)) (0, Z.of_nat (length acc));
           Ret n
       else
         if Z.of_nat (length acc) >=? MAX_SAFE_INTEGER then
           Throw "TypeError" ArrayPastSafeLength
         else
           let nStr := ToString (Z.of_nat (length acc)) in
           Q (CreateDataPropertyOrThrow (Obj A) nStr E);;
           Ret (Z.of_nat (length acc) + 1))
      (filled acc) (Z.of_nat (length acc) + Z.of_nat (length part))
      (filled (acc ++ part))).
  { intros -> _ Hspread. cbn [length] in *.
    eapply runs_to_bind_Q; [exact Hspread|]. cbv iota.
    destruct (Z.of_nat (length acc) >=? MAX_SAFE_INTEGER) eqn:Hbig;
      [unfold MAX_SAFE_INTEGER in Hbig; lia|].
    cbv zeta. eapply runs_to_bind_Q; [apply filled_snoc; lia|].
    apply runs_to_Ret. }
  destruct E as [| |bo|n|b]; cbn [spreads] in Hpart;
    try (apply Hsingle; [exact Hpart|discriminate|reflexivity]).
  (* an array *)
  pose proof (filled_lookup_other acc b _ Hpart) as Hb'.
  eapply runs_to_bind_Q.
  { cbn [heap_host]. rewrite (lookup_object_Some _ _ _ Hb').
    cbn [isConcatSpreadable array_of]. unfold is_array.
    rewrite (lookup_object_Some _ _ _ Hb'). reflexivity. }
  cbv iota.
  eapply runs_to_bind_Q;
    [exact (heap_Get_length sortBody _ _ (Z.of_nat (length part)) part Hb')|].
  eapply runs_to_bind_Q;
    [apply heap_ToLength_length; unfold MAX_SAFE_INTEGER; lia|].
  destruct (Z.of_nat (length acc) + Z.of_nat (length part) >? MAX_SAFE_INTEGER) eqn:Hbig;
    [unfold MAX_SAFE_INTEGER in Hbig; lia|].
  replace (Z.to_nat (Z.of_nat (length part) - 0)) with (length part) by lia.
  eapply runs_to_bind.
  { apply (spread_loop_heap b part (length part) 0%nat acc); [lia|exact Hpart|lia]. }
  cbv beta iota. rewrite drop_0. apply runs_to_Ret.
Qed.

Lemma concat_items_heap (items : list Value) : forall (parts : list (list Value))
    (acc : list Value),
  Forall2 (spreads h) items parts ->
  Z.of_nat (length acc) + Z.of_nat (length (concat parts)) < 2 ^ 32 ->
  runs_to host (for_each items (concat_item (Obj A)) (Z.of_nat (length acc)))
    (filled acc)
    (Z.of_nat (length acc) + Z.of_nat (length (concat parts)))
    (filled (acc ++ concat parts)).
Proof.
  induction items as [|E items IH]; intros parts acc Hparts Hsize.
  - inversion Hparts; subst. simpl. rewrite app_nil_r, Z.add_0_r. apply runs_to_Ret.
  - inversion Hparts as [|E' part items' parts' Hpart Hrest]; subst.
    cbn [concat] in *. rewrite length_app in Hsize.
    cbn [for_each].
    eapply runs_to_bind; [apply (concat_item_heap E part acc Hpart); lia|].
    specialize (IH parts' (acc ++ part)%list Hrest).
    rewrite length_app, Nat2Z.inj_add, <- app_assoc in IH.
    rewrite length_app, Nat2Z.inj_add, Z.add_assoc.
    apply IH. lia.
Qed.

Lemma concat_heap (a : N) (l : list Value) (args : list Value)
    (parts : list (list Value)) :
  objects h !! a = Some (array_of l) ->
  Forall2 (spreads h) args parts ->
  Z.of_nat (length (l ++ concat parts)) < 2 ^ 32 ->
  runs_to host (ArrayProto_concat args (Obj a)) h (Obj A) (filled (l ++ concat parts)).
Proof.
  intros Ha Hparts Hsize. unfold ArrayProto_concat.
  eapply runs_to_bind_Q; [reflexivity|].
  eapply runs_to_bind_Q; [apply heap_ArraySpeciesCreate; lia|].
  cbv zeta.
  eapply runs_to_bind.
  { apply (concat_items_heap (Obj a :: args) (l :: parts) []).
    - constructor; [exact Ha|exact Hparts].
    - cbn [concat length]. lia. }
  cbn [concat app length]. rewrite Z.add_0_l.
  eapply runs_to_bind_Q; [|apply runs_to_Ret]. unfold new_Value.
  rewrite (heap_Set_length sortBody (filled (l ++ concat parts)) A
             (Z.of_nat (length (l ++ concat parts)%list)) (l ++ concat parts)%list
             _ true (filled_lookup_result (l ++ concat parts))) by lia.
  rewrite <- array_of_array_with, filled_store. reflexivity.
Qed.
End HeapConcat.

(** X18.  On the heap, concat concatenates: for every array with elements
    [l] and all arguments, each an array of the heap or a value that is not
    an object, the result is a new array, at the next free address, whose
    elements are those of [l] followed, argument by argument, by the
    elements of an array or by the value itself; the receiver, the
    arguments and every other object are as they were. *)
Theorem concat_concatenates :
  forall (sortBody : Value -> Z -> Value -> Heap -> Completion Value * Heap)
         (h : Heap) (a : N) (l : list Value) (args : list Value)
         (parts : list (list Value)),
    objects h !! a = Some (array_of l) ->
    objects h !! next_address h = None ->
    Forall2 (spreads h) args parts ->
    Z.of_nat (length (l ++ concat parts)) < 2 ^ 32 ->
    let r := exec (heap_host sortBody) (ArrayProto_concat args (Obj a)) h in
    outcome r = Returned (Obj (next_address h)) /\
    final r = (allocate h (array_of (l ++ concat parts))).2.
Proof.
  intros sortBody h a l args parts Ha Hfree Hparts Hsize.
  exact (concat_heap sortBody h Hfree a l args parts Ha Hparts Hsize).
Qed.

(** ** fill on an array of the heap *)

(** The elements while fill goes over them: [j] filled from index [k] on. *)
Lemma filled_step (l : list Value) (v : Value) (k j : nat) :
  (k + j < length l)%nat ->
  <[(k + j)%nat := v]> (take k l ++ replicate j v ++ drop (k + j) l)%list =
  (take k l ++ replicate (Datatypes.S j) v ++ drop (k + Datatypes.S j) l)%list.
Proof.
  intros Hkj.
  assert (Htake : length (take k l) = k) by (rewrite length_take; lia).
  destruct (l !! (k + j)%nat) as [y|] eqn:Hy; [|apply lookup_ge_None in Hy; lia].
  rewrite (drop_S l y (k + j) Hy).
  rewrite insert_app_r_alt by lia. rewrite Htake.
  rewrite insert_app_r_alt by (rewrite length_replicate; lia).
  rewrite length_replicate.
  replace (k + j - k - j)%nat with 0%nat by lia. cbn [insert list_insert].
  replace (k + Datatypes.S j)%nat with (Datatypes.S (k + j)) by lia.
  f_equal. rewrite replicate_S_end, <- app_assoc. reflexivity.
Qed.

Section HeapFill.
Variable sortBody : Value -> Z -> Value -> Heap -> Completion Value * Heap.
Local Abbreviation host := (heap_host sortBody).
Variable a : N.
Variable l : list Value.
Variable value : Value.
Hypothesis Hsize : Z.of_nat (length l) < 2 ^ 32.

Local Abbreviation len := (Z.of_nat (length l)).
Local Abbreviation painted k j := (take k l ++ replicate j value ++ drop (k + j) l)%list.

Lemma fill_loop_heap (k : nat) (c : nat) : forall (j : nat) (h : Heap),
  (k + j + c <= length l)%nat ->
  objects h !! a = Some (array_with len (painted k j)) ->
  runs_to host
    (iterate c (fun k =>
         let Pk := ToString k in
         Q (Set_ (Obj a) Pk value true);;
         Ret (k + 1)) (Z.of_nat (k + j)))
    h (Z.of_nat (k + j + c))
    (store_object h a (array_with len (painted k (j + c)))).
Proof.
  induction c as [|c IH]; intros j h Hj Ha.
  - simpl. rewrite !Nat.add_0_r. rewrite (store_object_same _ _ _ Ha). apply runs_to_Ret.
  - cbn [iterate]. cbv zeta.
    assert (Hlen : length (painted k j) = length l).
    { rewrite !length_app, length_take, length_replicate, length_drop. lia. }
    eapply runs_to_bind.
    + eapply runs_to_bind_Q; [|apply runs_to_Ret].
      apply (heap_Set_insert sortBody a h len (painted k j) (k + j) value true Ha); lia.
    + rewrite filled_step by lia.
      replace (Z.of_nat (k + j) + 1) with (Z.of_nat (k + Datatypes.S j)) by lia.
      replace (k + j + Datatypes.S c)%nat with (k + Datatypes.S j + c)%nat by lia.
      replace (j + Datatypes.S c)%nat with (Datatypes.S j + c)%nat by lia.
      specialize (IH (Datatypes.S j)
                     (store_object h a (array_with len (painted k (Datatypes.S j))))).
      rewrite store_object_twice in IH. apply IH; [lia|apply store_object_lookup].
Qed.

Lemma fill_heap (h : Heap) (start end_ : Value) (relativeStart relativeEnd : Integer) :
  objects h !! a = Some (array_of l) ->
  host_ToInteger start = NormalCompletion relativeStart ->
  (if is_undefined end_ then relativeEnd = Fin len
   else host_ToInteger end_ = NormalCompletion relativeEnd) ->
  let k := Z.to_nat (relative_to_absolute relativeStart len) in
  let final_ := Z.to_nat (relative_to_absolute relativeEnd len) in
  runs_to host (ArrayProto_fill [value; start; end_] (Obj a)) h (Obj a)
    (store_object h a (array_of (painted k (final_ - k)))).
Proof.
  intros Ha Hstart Hend k final_.
  pose proof (relative_to_absolute_range relativeStart len ltac:(lia)) as Hk.
  pose proof (relative_to_absolute_range relativeEnd len ltac:(lia)) as Hfinal.
  unfold ArrayProto_fill. cbv zeta. cbn [arg nth].
  eapply (runs_to_read_length host); [reflexivity| |apply heap_ToLength_length|].
  { exact (heap_Get_length sortBody _ _ len l Ha). }
  { unfold MAX_SAFE_INTEGER. lia. }
  eapply runs_to_bind_Q; [rewrite heap_ToInteger, Hstart; reflexivity|].
  eapply runs_to_bind.
  { instantiate (1 := h). instantiate (1 := relativeEnd).
    destruct (is_undefined end_).
    - subst relativeEnd. apply runs_to_Ret.
    - apply runs_to_Q. rewrite heap_ToInteger, Hend. reflexivity. }
  set (c := (final_ - k)%nat).
  replace (Z.to_nat (relative_to_absolute relativeEnd len -
                     relative_to_absolute relativeStart len)) with c by lia.
  assert (Hstart0 : objects h !! a =
            Some (array_with len (take k l ++ replicate 0 value ++ drop k l))).
  { rewrite Ha. cbn [replicate app]. rewrite take_drop. reflexivity. }
  assert (Hpainted : length (painted k c) = length l).
  { rewrite !length_app, length_take, length_replicate, length_drop. unfold c. lia. }
  eapply runs_to_bind; [|].
  { pose proof (fill_loop_heap k c 0%nat h) as Hloop.
    rewrite !Nat.add_0_r, Nat.add_0_l in Hloop.
    replace (Z.of_nat k) with (relative_to_absolute relativeStart len) in Hloop by lia.
    apply Hloop; [unfold c; lia|exact Hstart0]. }
  rewrite array_of_array_with, Hpainted. apply runs_to_Ret.
Qed.
End HeapFill.

(** X19.  On the heap, fill overwrites a range: for every array with
    elements [l], fill(value, start, end) returns the array itself, whose
    elements are then those of [l] before index [k], [value] from [k] up to
    [final], and those of [l] from there on, with the relative indices
    counted from the end when negative and clamped to [0, length l]; the
    length and every other object are as they were. *)
Theorem fill_overwrites_the_range :
  forall (sortBody : Value -> Z -> Value -> Heap -> Completion Value * Heap)
         (h : Heap) (a : N) (l : list Value) (value start end_ : Value)
         (relativeStart relativeEnd : Integer),
    objects h !! a = Some (array_of l) ->
    Z.of_nat (length l) < 2 ^ 32 ->
    host_ToInteger start = NormalCompletion relativeStart ->
    (if is_undefined end_ then relativeEnd = Fin (Z.of_nat (length l))
     else host_ToInteger end_ = NormalCompletion relativeEnd) ->
    let k := Z.to_nat (relative_to_absolute relativeStart (Z.of_nat (length l))) in
    let final_ := Z.to_nat (relative_to_absolute relativeEnd (Z.of_nat (length l))) in
    let r := exec (heap_host sortBody) (ArrayProto_fill [value; start; end_] (Obj a)) h in
    outcome r = Returned (Obj a) /\
    final r = store_object h a
                (array_of (take k l ++ replicate (final_ - k) value
                           ++ drop (k + (final_ - k)) l)).
Proof.
  intros sortBody h a l value start end_ relativeStart relativeEnd Ha Hsize Hstart Hend.
  exact (fill_heap sortBody a l value Hsize h start end_ relativeStart relativeEnd
           Ha Hstart Hend).
Qed.

(** ** Arrays with holes *)

Lemma sparse_properties_lookup (elements : list (option Value)) : forall (i : nat) K v,
  sparse_properties i elements !! K = Some v <->
  exists j : nat, K = ToString (Z.of_nat (i + j)) /\ elements !! j = Some (Some v).
Proof.
  induction elements as [|o elements IH]; intros i K v; cbn [sparse_properties].
  - rewrite lookup_empty. split; [discriminate|]. intros (j & _ & Hj). discriminate.
  - assert (Htail : sparse_properties (Datatypes.S i) elements !! K = Some v <->
                    exists j : nat, K = ToString (Z.of_nat (i + Datatypes.S j)) /\
                                    (o :: elements) !! Datatypes.S j = Some (Some v)).
    { rewrite IH. split; intros (j & -> & Hj); exists j;
        (split; [f_equal; lia|exact Hj]). }
    destruct o as [w|].
    + destruct (decide (K = ToString (Z.of_nat i))) as [->|Hne].
      * rewrite lookup_insert_eq. split.
        -- intros [= ->]. exists 0%nat. rewrite Nat.add_0_r. split; reflexivity.
        -- intros (j & Hj & Hv). apply ToString_inj in Hj.
           assert (j = 0)%nat by lia. subst j. injection Hv as ->. reflexivity.
      * rewrite lookup_insert_ne by congruence. rewrite Htail. split.
        -- intros (j & -> & Hj). exists (Datatypes.S j). split; [reflexivity|exact Hj].
        -- intros ([|j] & -> & Hj).
           ++ exfalso. apply Hne. rewrite Nat.add_0_r. reflexivity.
           ++ exists j. split; [reflexivity|exact Hj].
    + rewrite Htail. split.
      * intros (j & -> & Hj). exists (Datatypes.S j). split; [reflexivity|exact Hj].
      * intros ([|j] & -> & Hj); [discriminate|].
        exists j. split; [reflexivity|exact Hj].
Qed.

Lemma sparse_properties_index (elements : list (option Value)) (j : nat) :
  sparse_properties 0 elements !! ToString (Z.of_nat j) = mjoin (elements !! j).
Proof.
  apply option_eq. intros v. rewrite sparse_properties_lookup. split.
  - intros (j' & Hj & Hv). apply ToString_inj in Hj.
    assert (j' = j) by lia. subst j'. rewrite Hv. reflexivity.
  - intros Hv. exists j. split; [reflexivity|].
    destruct (elements !! j) as [[w|]|]; simpl in Hv; congruence.
Qed.

Lemma sparse_properties_length (elements : list (option Value)) :
  sparse_properties 0 elements !! "length" = None.
Proof.
  destruct (sparse_properties 0 elements !! "length") as [v|] eqn:Hv; [|reflexivity].
  apply sparse_properties_lookup in Hv. destruct Hv as (j & Hj & _).
  symmetry in Hj. destruct (ToString_not_length _ Hj).
Qed.

(** Two lists with the same elements at every index give the same
    properties, whatever holes they end with. *)
Lemma sparse_properties_ext (elements elements' : list (option Value)) :
  (forall j, mjoin (elements !! j) = mjoin (elements' !! j)) ->
  sparse_properties 0 elements = sparse_properties 0 elements'.
Proof.
  intros Hext. apply map_eq. intros K. apply option_eq. intros v.
  rewrite !sparse_properties_lookup.
  split; intros (j & -> & Hj); exists j; (split; [reflexivity|]);
    specialize (Hext j); rewrite Hj in Hext; simpl in Hext.
  - destruct (elements' !! j) as [[w|]|]; simpl in Hext; congruence.
  - destruct (elements !! j) as [[w|]|]; simpl in Hext; congruence.
Qed.

Lemma sparse_properties_insert (elements : list (option Value)) (i : nat) (V : Value) :
  (i < length elements)%nat ->
  sparse_properties 0 (<[i := Some V]> elements) =
  <[ToString (Z.of_nat i) := V]> (sparse_properties 0 elements).
Proof.
  intros Hi. apply map_eq. intros K.
  destruct (decide (K = ToString (Z.of_nat i))) as [->|Hne].
  - rewrite lookup_insert_eq, sparse_properties_index.
    rewrite list_lookup_insert_eq by exact Hi. reflexivity.
  - rewrite lookup_insert_ne by congruence.
    apply option_eq. intros v. rewrite !sparse_properties_lookup.
    split; intros (j & -> & Hj); exists j; (split; [reflexivity|]);
      assert (i <> j) by (intros ->; apply Hne; reflexivity).
    + rewrite list_lookup_insert_ne in Hj by assumption. exact Hj.
    + rewrite list_lookup_insert_ne by assumption. exact Hj.
Qed.

Lemma sparse_properties_delete (elements : list (option Value)) (i : nat) :
  sparse_properties 0 (<[i := None]> elements) =
  delete (ToString (Z.of_nat i)) (sparse_properties 0 elements).
Proof.
  apply map_eq. intros K.
  destruct (decide (K = ToString (Z.of_nat i))) as [->|Hne].
  - rewrite lookup_delete_eq, sparse_properties_index.
    destruct (decide (i < length elements)%nat) as [Hi|Hi].
    + rewrite list_lookup_insert_eq by exact Hi. reflexivity.
    + rewrite list_insert_ge by lia. rewrite lookup_ge_None_2 by lia. reflexivity.
  - rewrite lookup_delete_ne by congruence.
    apply option_eq. intros v. rewrite !sparse_properties_lookup.
    split; intros (j & -> & Hj); exists j; (split; [reflexivity|]);
      assert (i <> j) by (intros ->; apply Hne; reflexivity).
    + rewrite list_lookup_insert_ne in Hj by assumption. exact Hj.
    + rewrite list_lookup_insert_ne by assumption. exact Hj.
Qed.

(** An array without holes, seen as one that may have some. *)
Lemma array_with_sparse len (l : list Value) (elements : list (option Value)) :
  (forall j, mjoin (elements !! j) = l !! j) ->
  sparse_array len elements = array_with len l.
Proof.
  intros Hext. unfold sparse_array, array_with. do 2 f_equal.
  apply map_eq. intros K. apply option_eq. intros v.
  rewrite sparse_properties_lookup, element_properties_lookup.
  split; intros (j & -> & Hj); exists j; (split; [reflexivity|]);
    specialize (Hext j); rewrite Hj in Hext; simpl in Hext.
  - congruence.
  - destruct (elements !! j) as [[w|]|]; simpl in Hext; congruence.
Qed.

Lemma table_lookup {A : Type} (n : nat) (f : nat -> A) (j : nat) :
  table n f !! j = if (j <? n)%nat then Some (f j) else None.
Proof.
  unfold table. rewrite list_lookup_fmap.
  destruct (j <? n)%nat eqn:Hj.
  - apply Nat.ltb_lt in Hj. rewrite lookup_seq_lt by exact Hj. reflexivity.
  - apply Nat.ltb_ge in Hj. rewrite lookup_seq_ge by exact Hj. reflexivity.
Qed.

Lemma table_length {A : Type} (n : nat) (f : nat -> A) : length (table n f) = n.
Proof. unfold table. rewrite length_map, length_seq. reflexivity. Qed.

Lemma table_ext {A : Type} (n : nat) (f g : nat -> A) :
  (forall j, (j < n)%nat -> f j = g j) -> table n f = table n g.
Proof.
  intros H. unfold table. apply map_ext_in. intros j Hj. apply H.
  apply in_seq in Hj. lia.
Qed.

Lemma table_insert {A : Type} (n : nat) (f : nat -> A) (i : nat) (x : A) :
  <[i := x]> (table n f) = table n (fun j => if (j =? i)%nat then x else f j).
Proof.
  apply list_eq. intros j. rewrite table_lookup.
  destruct (decide (i = j)) as [->|Hne].
  - destruct (j <? n)%nat eqn:Hj.
    + rewrite list_lookup_insert_eq by (rewrite table_length; apply Nat.ltb_lt; exact Hj).
      rewrite Nat.eqb_refl. reflexivity.
    + rewrite list_insert_ge by (rewrite table_length; apply Nat.ltb_ge; exact Hj).
      rewrite table_lookup, Hj. reflexivity.
  - rewrite list_lookup_insert_ne by exact Hne. rewrite table_lookup.
    destruct (j <? n)%nat; [|reflexivity].
    destruct (j =? i)%nat eqn:E; [apply Nat.eqb_eq in E; congruence|reflexivity].
Qed.

(** ** Defining and deleting properties of an array with holes *)

Lemma sparse_array_length len elements : array_length (sparse_array len elements) = len.
Proof. unfold array_length. simpl. rewrite lookup_insert_eq. reflexivity. Qed.

Lemma sparse_array_index len elements (i : nat) :
  properties (sparse_array len elements) !! ToString (Z.of_nat i) = mjoin (elements !! i).
Proof.
  simpl. rewrite lookup_insert_ne by (apply not_eq_sym, ToString_not_length).
  apply sparse_properties_index.
Qed.

Lemma define_value_sparse len elements (i : nat) V :
  (i < length elements)%nat ->
  Z.of_nat i < 2 ^ 32 - 1 ->
  define_value (sparse_array len elements) (ToString (Z.of_nat i)) V =
  NormalCompletion (sparse_array (if len <=? Z.of_nat i then Z.of_nat i + 1 else len)
                                 (<[i := Some V]> elements)).
Proof.
  intros Hi Hn. unfold define_value.
  change (class (sparse_array len elements)) with ClassArray. cbv iota.
  destruct (String.eqb_spec (ToString (Z.of_nat i)) "length") as [E|_];
    [destruct (ToString_not_length _ E)|].
  rewrite array_index_ToString by lia. cbv zeta.
  rewrite sparse_array_length.
  unfold with_property, sparse_array. cbn [class properties isConcatSpreadable].
  rewrite sparse_properties_insert by exact Hi.
  destruct (len <=? Z.of_nat i) eqn:Hle.
  - f_equal. f_equal.
    rewrite (insert_insert_ne _ (ToString _) "length") by apply ToString_not_length.
    rewrite insert_insert_eq. reflexivity.
  - f_equal. f_equal. apply insert_insert_ne. apply ToString_not_length.
Qed.

Lemma define_value_sparse_length len elements (n : Z) :
  Z.of_nat (length elements) <= n < 2 ^ 32 ->
  define_value (sparse_array len elements) "length" (Num (Int n)) =
  NormalCompletion (sparse_array n elements).
Proof.
  intros Hn. unfold define_value.
  change (class (sparse_array len elements)) with ClassArray. cbv iota.
  change (String.eqb "length" "length") with true. cbv iota.
  simpl ToNumber. cbv iota.
  destruct (0 <=? n) eqn:H0; [|lia]. destruct (n <? 2 ^ 32) eqn:H1; [|lia].
  cbn [andb]. f_equal. unfold set_array_length, sparse_array.
  cbn [class properties isConcatSpreadable]. f_equal.
  rewrite map_filter_id.
  - apply insert_insert_eq.
  - intros K v HK. cbn [fst]. unfold below_length.
    destruct (array_index K) as [i|] eqn:Hi; [|reflexivity].
    apply array_index_Some in Hi. destruct Hi as [-> Hi].
    rewrite lookup_insert_ne in HK by (apply not_eq_sym, ToString_not_length).
    apply sparse_properties_lookup in HK. destruct HK as (j & Hj & Hv).
    apply ToString_inj in Hj. apply lookup_lt_Some in Hv. apply Z.ltb_lt. lia.
Qed.

Section HeapSparse.
Variable sortBody : Value -> Z -> Value -> Heap -> Completion Value * Heap.
Local Abbreviation host := (heap_host sortBody).
Variable a : N.

Lemma heap_Get_length_sparse h len elements :
  objects h !! a = Some (sparse_array len elements) ->
  host _ (Get (Obj a) "length") h = (NormalCompletion (Num (Int len)), h).
Proof.
  intros Ha. cbn [heap_host]. rewrite (lookup_object_Some _ _ _ Ha).
  simpl. rewrite lookup_insert_eq. reflexivity.
Qed.

Lemma heap_HasProperty_sparse h len elements (i : nat) :
  objects h !! a = Some (sparse_array len elements) ->
  host _ (HasProperty (Obj a) (ToString (Z.of_nat i))) h =
  (NormalCompletion (bool_decide (is_Some (mjoin (elements !! i)))), h).
Proof.
  intros Ha. cbn [heap_host]. rewrite (lookup_object_Some _ _ _ Ha).
  rewrite sparse_array_index. reflexivity.
Qed.

Lemma heap_Get_sparse h len elements (i : nat) :
  objects h !! a = Some (sparse_array len elements) ->
  host _ (Get (Obj a) (ToString (Z.of_nat i))) h =
  (NormalCompletion (default Undefined (mjoin (elements !! i))), h).
Proof.
  intros Ha. cbn [heap_host]. rewrite (lookup_object_Some _ _ _ Ha).
  rewrite sparse_array_index. reflexivity.
Qed.

Lemma heap_Set_sparse h len elements (i : nat) V flag :
  objects h !! a = Some (sparse_array len elements) ->
  (i < length elements)%nat ->
  Z.of_nat i < 2 ^ 32 - 1 ->
  host _ (Set_ (Obj a) (ToString (Z.of_nat i)) V flag) h =
  (NormalCompletion true,
   store_object h a
     (sparse_array (if len <=? Z.of_nat i then Z.of_nat i + 1 else len)
                   (<[i := Some V]> elements))).
Proof.
  intros Ha Hi Hn. cbn [heap_host]. rewrite (lookup_object_Some _ _ _ Ha).
  rewrite define_value_sparse by assumption. reflexivity.
Qed.

Lemma heap_Set_length_sparse h len elements (n : Z) flag :
  objects h !! a = Some (sparse_array len elements) ->
  Z.of_nat (length elements) <= n < 2 ^ 32 ->
  host _ (Set_ (Obj a) "length" (Num (Int n)) flag) h =
  (NormalCompletion true, store_object h a (sparse_array n elements)).
Proof.
  intros Ha Hn. cbn [heap_host]. rewrite (lookup_object_Some _ _ _ Ha).
  rewrite define_value_sparse_length by exact Hn. reflexivity.
Qed.

Lemma heap_Delete_sparse h len elements (i : nat) :
  objects h !! a = Some (sparse_array len elements) ->
  host _ (DeletePropertyOrThrow (Obj a) (ToString (Z.of_nat i))) h =
  (NormalCompletion true, store_object h a (sparse_array len (<[i := None]> elements))).
Proof.
  intros Ha. cbn [heap_host]. rewrite (lookup_object_Some _ _ _ Ha). cbv zeta.
  change (class (sparse_array len elements)) with ClassArray. cbv iota.
  destruct (String.eqb_spec (ToString (Z.of_nat i)) "length") as [E|_];
    [destruct (ToString_not_length _ E)|].
  do 3 f_equal. unfold sparse_array. cbn [class properties isConcatSpreadable].
  f_equal. rewrite sparse_properties_delete.
  rewrite delete_insert_ne by apply ToString_not_length. reflexivity.
Qed.

(** One move of an element, present or not, to a place within the list. *)
Lemma move_property_sparse h len elements (from to : nat) :
  objects h !! a = Some (sparse_array len elements) ->
  (to < length elements)%nat ->
  Z.of_nat to < 2 ^ 32 - 1 ->
  runs_to host (move_property (Obj a) (ToString (Z.of_nat from)) (ToString (Z.of_nat to)))
    h tt
    (store_object h a
       (sparse_array
          (if is_Some_dec (mjoin (elements !! from))
           then if len <=? Z.of_nat to then Z.of_nat to + 1 else len
           else len)
          (<[to := mjoin (elements !! from)]> elements))).
Proof.
  intros Ha Hto Hn. unfold move_property.
  eapply runs_to_bind_Q; [exact (heap_HasProperty_sparse _ _ _ from Ha)|].
  destruct (mjoin (elements !! from)) as [v|] eqn:Hv.
  - rewrite bool_decide_eq_true_2 by eauto.
    eapply runs_to_bind_Q; [exact (heap_Get_sparse _ _ _ from Ha)|].
    rewrite Hv. cbn [default].
    eapply runs_to_bind_Q; [exact (heap_Set_sparse _ _ _ to v true Ha Hto Hn)|].
    destruct (is_Some_dec (Some v)) as [_|Hno]; [apply runs_to_Ret|].
    exfalso. apply Hno. eauto.
  - rewrite bool_decide_eq_false_2 by (intros [? [=]]).
    eapply runs_to_bind_Q; [exact (heap_Delete_sparse _ _ _ to Ha)|].
    destruct (is_Some_dec (@None Value)) as [[? [=]]|_]. apply runs_to_Ret.
Qed.
End HeapSparse.

(** ** unshift on an array of the heap *)
Section HeapUnshift.
Variable sortBody : Value -> Z -> Value -> Heap -> Completion Value * Heap.
Local Abbreviation host := (heap_host sortBody).
Variable a : N.
Variable l items : list Value.
Hypothesis Hsize : Z.of_nat (length l) + Z.of_nat (length items) < 2 ^ 32.
Hypothesis Hitems : (0 < length items)%nat.

Local Abbreviation len := (length l).
Local Abbreviation c := (length items).
Local Abbreviation size := (length l + length items)%nat.

(** The elements after [m] of them have been moved up by [c], last first. *)
Local Abbreviation moved m :=
  (table size (fun j => if (j <? len - m + c)%nat then l !! j else l !! (j - c)%nat)).
(** The "length" then: the first move raises it. *)
Local Abbreviation raised m :=
  (if (m =? 0)%nat then Z.of_nat len else Z.of_nat len + Z.of_nat c).

Lemma unshift_moves_heap (turns : nat) : forall (m : nat) (h : Heap),
  (m + turns = len)%nat ->
  objects h !! a = Some (sparse_array (raised m) (moved m)) ->
  runs_to host
    (iterate turns (fun k =>
         let from := ToString (k - 1) in
         let to := ToString (k + Z.of_nat c - 1) in
         move_property (Obj a) from to;;
         Ret (k - 1)) (Z.of_nat (len - m)))
    h 0 (store_object h a (sparse_array (raised len) (moved len))).
Proof.
  induction turns as [|turns IH]; intros m h Hm Ha.
  - assert (m = len) by lia. subst m. cbn [iterate].
    replace (Z.of_nat (len - len)) with 0 by lia.
    rewrite (store_object_same _ _ _ Ha). apply runs_to_Ret.
  - cbn [iterate]. cbv zeta.
    set (from := (len - m - 1)%nat). set (to := (len - m - 1 + c)%nat).
    replace (Z.of_nat (len - m) - 1) with (Z.of_nat from) by (unfold from; lia).
    replace (Z.of_nat (len - m) + Z.of_nat c - 1) with (Z.of_nat to) by (unfold to; lia).
    assert (Hfrom : moved m !! from = Some (l !! from)).
    { rewrite table_lookup.
      destruct (from <? size)%nat eqn:E1; [|apply Nat.ltb_ge in E1; unfold from in E1; lia].
      destruct (from <? len - m + c)%nat eqn:E2;
        [reflexivity|apply Nat.ltb_ge in E2; unfold from in E2; lia]. }
    destruct (l !! from) as [y|] eqn:Hy;
      [|apply lookup_ge_None in Hy; unfold from in Hy; lia].
    eapply runs_to_bind.
    + eapply runs_to_bind; [|apply runs_to_Ret].
      apply (move_property_sparse sortBody a h _ _ from to Ha).
      * rewrite table_length. unfold to. lia.
      * unfold to. lia.
    + rewrite Hfrom. change (mjoin (Some (Some y))) with (Some y).
      destruct (is_Some_dec (Some y)) as [_|Hno]; [|exfalso; apply Hno; eauto].
      replace (Z.of_nat from) with (Z.of_nat (len - Datatypes.S m)) by (unfold from; lia).
      specialize (IH (Datatypes.S m)
        (store_object h a (sparse_array (raised (Datatypes.S m)) (moved (Datatypes.S m))))).
      rewrite store_object_twice in IH.
      assert (Hstate :
        sparse_array (if raised m <=? Z.of_nat to then Z.of_nat to + 1 else raised m)
                     (<[to := Some y]> (moved m)) =
        sparse_array (raised (Datatypes.S m)) (moved (Datatypes.S m))).
      { f_equal.
        - cbn [Nat.eqb]. destruct (m =? 0)%nat eqn:E.
          + apply Nat.eqb_eq in E. subst m.
            destruct (Z.leb_spec (Z.of_nat len) (Z.of_nat to)); unfold to in *; lia.
          + apply Nat.eqb_neq in E.
            destruct (Z.leb_spec (Z.of_nat len + Z.of_nat c) (Z.of_nat to));
              unfold to in *; lia.
        - rewrite table_insert. apply table_ext. intros j Hj.
          destruct (j =? to)%nat eqn:E1.
          + apply Nat.eqb_eq in E1. subst j.
            destruct (to <? len - Datatypes.S m + c)%nat eqn:E2;
              [apply Nat.ltb_lt in E2; unfold to in E2; lia|].
            rewrite <- Hy. f_equal. unfold to, from. lia.
          + apply Nat.eqb_neq in E1.
            destruct (j <? len - m + c)%nat eqn:E2;
              destruct (j <? len - Datatypes.S m + c)%nat eqn:E3;
              try reflexivity;
              apply Nat.ltb_lt in E2 || apply Nat.ltb_ge in E2;
              apply Nat.ltb_lt in E3 || apply Nat.ltb_ge in E3;
              unfold to in E1; lia. }
      rewrite Hstate. apply IH; [lia|apply store_object_lookup].
Qed.

(** The elements after the first [p] items have been stored in front. *)
Local Abbreviation fronted p :=
  (table size (fun j => if (j <? p)%nat then items !! j
                        else if (j <? c)%nat then l !! j else l !! (j - c)%nat)).

Lemma unshift_items_heap (rest : list Value) : forall (p : nat) (h : Heap) (L : Z),
  drop p items = rest ->
  (p <= c)%nat ->
  objects h !! a = Some (sparse_array L (fronted p)) ->
  exists L',
    runs_to host
      (for_each rest (fun E j =>
           let jStr := ToString j in
           Q (Set_ (Obj a) jStr E true);;
           Ret (j + 1)) (Z.of_nat p))
      h (Z.of_nat c) (store_object h a (sparse_array L' (fronted c))).
Proof.
  induction rest as [|E rest IH]; intros p h L Hdrop Hp Ha.
  - assert (p = c).
    { apply (f_equal length) in Hdrop. rewrite length_drop in Hdrop. simpl in Hdrop. lia. }
    subst p. exists L. simpl. rewrite (store_object_same _ _ _ Ha). apply runs_to_Ret.
  - assert (Hlt : (p < c)%nat).
    { apply (f_equal length) in Hdrop. rewrite length_drop in Hdrop. simpl in Hdrop. lia. }
    assert (HE : items !! p = Some E).
    { rewrite <- (Nat.add_0_r p), <- lookup_drop, Hdrop. reflexivity. }
    assert (Hrest : drop (Datatypes.S p) items = rest).
    { rewrite (drop_S items E p HE) in Hdrop. injection Hdrop as ->. reflexivity. }
    set (L1 := if L <=? Z.of_nat p then Z.of_nat p + 1 else L).
    destruct (IH (Datatypes.S p)
                 (store_object h a (sparse_array L1 (fronted (Datatypes.S p)))) L1
                 Hrest ltac:(lia) (store_object_lookup _ _ _)) as [L' Hrun].
    rewrite store_object_twice in Hrun.
    exists L'. cbn [for_each]. cbv zeta.
    eapply runs_to_bind.
    + eapply runs_to_bind_Q; [|apply runs_to_Ret].
      apply (heap_Set_sparse sortBody a h L _ p E true Ha).
      * rewrite table_length. lia.
      * lia.
    + fold L1. replace (Z.of_nat p + 1) with (Z.of_nat (Datatypes.S p)) by lia.
      assert (Hstate : <[p := Some E]> (fronted p) = fronted (Datatypes.S p)).
      { rewrite table_insert. apply table_ext. intros j Hj.
        destruct (j =? p)%nat eqn:E1.
        - apply Nat.eqb_eq in E1. subst j.
          destruct (p <? Datatypes.S p)%nat eqn:E2; [|apply Nat.ltb_ge in E2; lia].
          symmetry. exact HE.
        - apply Nat.eqb_neq in E1.
          destruct (j <? p)%nat eqn:E2; destruct (j <? Datatypes.S p)%nat eqn:E3;
            try reflexivity;
            apply Nat.ltb_lt in E2 || apply Nat.ltb_ge in E2;
            apply Nat.ltb_lt in E3 || apply Nat.ltb_ge in E3; lia. }
      rewrite Hstate. exact Hrun.
Qed.

Lemma unshift_heap (h : Heap) :
  objects h !! a = Some (array_of l) ->
  runs_to host (ArrayProto_unshift items (Obj a)) h
    (new_Value (Z.of_nat len + Z.of_nat c))
    (store_object h a (array_of (items ++ l))).
Proof.
  intros Ha. unfold ArrayProto_unshift.
  eapply (runs_to_read_length host); [reflexivity| |apply heap_ToLength_length|].
  { exact (heap_Get_length sortBody _ _ (Z.of_nat len) l Ha). }
  { unfold MAX_SAFE_INTEGER. lia. }
  cbv zeta.
  destruct (Z.of_nat c >? 0) eqn:Hc; [|lia].
  destruct (Z.of_nat len + Z.of_nat c >? MAX_SAFE_INTEGER) eqn:Hbig;
    [unfold MAX_SAFE_INTEGER in Hbig; lia|].
  assert (Hstart : array_of l = sparse_array (raised 0) (moved 0)).
  { symmetry. apply array_with_sparse. intros j. rewrite table_lookup.
    destruct (j <? size)%nat eqn:E1.
    - cbn [mjoin]. simpl mjoin.
      destruct (j <? len - 0 + c)%nat eqn:E2; [reflexivity|].
      apply Nat.ltb_lt in E1. apply Nat.ltb_ge in E2. lia.
    - apply Nat.ltb_ge in E1. symmetry. apply lookup_ge_None. lia. }
  rewrite Hstart in Ha.
  pose proof (unshift_moves_heap len 0%nat h ltac:(lia) Ha) as Hmoves.
  rewrite Nat.sub_0_r in Hmoves.
  set (h1 := store_object h a (sparse_array (raised len) (moved len))) in *.
  assert (Hfront : moved len = fronted 0).
  { apply table_ext. intros j Hj. rewrite Nat.sub_diag. reflexivity. }
  destruct (unshift_items_heap items 0%nat h1 (raised len) (drop_0 items) ltac:(lia))
    as [L' Hitemsrun].
  { unfold h1. rewrite store_object_lookup, Hfront. reflexivity. }
  unfold h1 in Hitemsrun. rewrite store_object_twice in Hitemsrun. fold h1 in Hitemsrun.
  eapply runs_to_bind.
  { eapply runs_to_bind.
    - replace (Z.to_nat (Z.of_nat len - 0)) with len by lia. exact Hmoves.
    - eapply runs_to_bind; [exact Hitemsrun|apply runs_to_Ret]. }
  eapply runs_to_bind_Q; [|apply runs_to_Ret]. unfold new_Value.
  rewrite (heap_Set_length_sparse sortBody a _ L' (fronted c)
             (Z.of_nat len + Z.of_nat c) true (store_object_lookup _ _ _))
    by (rewrite table_length; lia).
  rewrite store_object_twice. do 2 f_equal.
  rewrite array_of_array_with, length_app.
  replace (Z.of_nat (c + len)) with (Z.of_nat len + Z.of_nat c) by lia.
  apply array_with_sparse. intros j. rewrite table_lookup.
  destruct (j <? size)%nat eqn:E1.
  - simpl mjoin. destruct (j <? c)%nat eqn:E2.
    + apply Nat.ltb_lt in E2. rewrite lookup_app_l by exact E2. reflexivity.
    + apply Nat.ltb_ge in E2. rewrite lookup_app_r by exact E2. reflexivity.
  - apply Nat.ltb_ge in E1. symmetry. apply lookup_ge_None. rewrite length_app. lia.
Qed.
End HeapUnshift.

Lemma unshift_nothing_heap sortBody (a : N) (l : list Value) (h : Heap) :
  objects h !! a = Some (array_of l) ->
  Z.of_nat (length l) < 2 ^ 32 ->
  runs_to (heap_host sortBody) (ArrayProto_unshift [] (Obj a)) h
    (new_Value (Z.of_nat (length l) + 0)) h.
Proof.
  intros Ha Hsize. unfold ArrayProto_unshift.
  eapply (runs_to_read_length (heap_host sortBody));
    [reflexivity| |apply heap_ToLength_length|].
  { exact (heap_Get_length sortBody _ _ (Z.of_nat (length l)) l Ha). }
  { unfold MAX_SAFE_INTEGER. lia. }
  cbv zeta. cbn [length]. change (Z.of_nat 0 >? 0) with false. cbv iota.
  eapply runs_to_bind; [apply runs_to_Ret|].
  eapply runs_to_bind_Q; [|apply runs_to_Ret]. unfold new_Value.
  rewrite (heap_Set_length sortBody h a (Z.of_nat (length l)) l _ true Ha) by lia.
  rewrite Z.add_0_r, <- array_of_array_with, (store_object_same _ _ _ Ha). reflexivity.
Qed.

(** X20.  On the heap, unshift puts its items in front: for every array
    with elements [l] and all items, as long as the new length is below
    2^32, unshift returns the new length and leaves the array with the
    elements [items ++ l], and every other object as it was; and shift
    undoes unshift: after [unshift(x)] and then [shift()] the value
    returned is [x] and the heap is the one before. *)
Theorem unshift_prepends_and_shift_undoes_it :
  forall (sortBody : Value -> Z -> Value -> Heap -> Completion Value * Heap)
         (h : Heap) (a : N) (l items : list Value),
    objects h !! a = Some (array_of l) ->
    Z.of_nat (length l) + Z.of_nat (length items) < 2 ^ 32 ->
    let r := exec (heap_host sortBody) (ArrayProto_unshift items (Obj a)) h in
    (outcome r = Returned (new_Value (Z.of_nat (length l) + Z.of_nat (length items))) /\
     final r = store_object h a (array_of (items ++ l))) /\
    forall x, items = [x] ->
      let shifted := exec (heap_host sortBody) (ArrayProto_shift [] (Obj a)) (final r) in
      outcome shifted = Returned x /\ final shifted = h.
Proof.
  intros sortBody h a l items Ha Hsize r.
  assert (Hr : outcome r = Returned (new_Value (Z.of_nat (length l) +
                                               Z.of_nat (length items))) /\
               final r = store_object h a (array_of (items ++ l))).
  { destruct items as [|E items].
    - cbn [app length]. rewrite (store_object_same _ _ _ Ha).
      apply (unshift_nothing_heap sortBody a l h Ha). simpl in Hsize. lia.
    - apply (unshift_heap sortBody a l (E :: items) Hsize); [simpl; lia|exact Ha]. }
  split; [exact Hr|].
  intros x -> shifted. destruct Hr as [_ Hfinal]. cbn [app length] in *.
  assert (Hobj : objects (final r) !! a = Some (array_of (x :: l)))
    by (rewrite Hfinal; apply store_object_lookup).
  destruct (shift_heap sortBody a x l ltac:(lia) (final r) Hobj) as [Hout Hheap].
  fold shifted in Hout, Hheap. split; [exact Hout|].
  rewrite Hheap, Hfinal, store_object_twice. apply store_object_same. exact Ha.
Qed.

(** ** copyWithin on an array of the heap *)

Ltac nat_cases :=
  repeat match goal with
  | |- context [(?x <? ?y)%nat] =>
      let E := fresh "E" in
      destruct (x <? y)%nat eqn:E; [apply Nat.ltb_lt in E|apply Nat.ltb_ge in E]
  | |- context [(?x <=? ?y)%nat] =>
      let E := fresh "E" in
      destruct (x <=? y)%nat eqn:E; [apply Nat.leb_le in E|apply Nat.leb_gt in E]
  | |- context [(?x =? ?y)%nat] =>
      let E := fresh "E" in
      destruct (x =? y)%nat eqn:E; [apply Nat.eqb_eq in E|apply Nat.eqb_neq in E]
  end.

Section HeapCopyWithin.
Variable sortBody : Value -> Z -> Value -> Heap -> Completion Value * Heap.
Local Abbreviation host := (heap_host sortBody).
Variable a : N.
Variable l : list Value.
Hypothesis Hsize : Z.of_nat (length l) < 2 ^ 32.
Variable from0 to0 count : nat.
Hypothesis Hfrom : (from0 + count <= length l)%nat.
Hypothesis Hto : (to0 + count <= length l)%nat.

Local Abbreviation len := (length l).
(** The elements with those at the indices [lo, hi) copied. *)
Local Abbreviation copied lo hi :=
  (table len (fun j => if (lo <=? j)%nat && (j <? hi)%nat
                       then l !! (from0 + (j - to0))%nat else l !! j)).

(** Going up: taken when the target is not inside the source range. *)
Lemma copy_forward_heap (turns : nat) : forall (m : nat) (h : Heap),
  (m + turns = count)%nat ->
  (to0 <= from0 \/ from0 + count <= to0)%nat ->
  objects h !! a = Some (sparse_array (Z.of_nat len) (copied to0 (to0 + m))) ->
  exists st,
    runs_to host
      (iterate turns (fun '(from, to) =>
           let fromKey := ToString from in
           let toKey := ToString to in
           move_property (Obj a) fromKey toKey;;
           Ret (from + 1, to + 1)) (Z.of_nat (from0 + m), Z.of_nat (to0 + m)))
      h st (store_object h a (sparse_array (Z.of_nat len) (copied to0 (to0 + count)))).
Proof.
  induction turns as [|turns IH]; intros m h Hm Hdir Ha.
  - assert (m = count) by lia. subst m. eexists. cbn [iterate].
    rewrite (store_object_same _ _ _ Ha). apply runs_to_Ret.
  - cbn [iterate]. cbv zeta.
    assert (Hread : copied to0 (to0 + m) !! (from0 + m)%nat = Some (l !! (from0 + m)%nat)).
    { rewrite table_lookup.
      destruct (from0 + m <? len)%nat eqn:E; [|apply Nat.ltb_ge in E; lia].
      destruct ((to0 <=? from0 + m)%nat && (from0 + m <? to0 + m)%nat) eqn:E2;
        [|reflexivity].
      apply andb_true_iff in E2. destruct E2 as [E2 E3].
      apply Nat.leb_le in E2. apply Nat.ltb_lt in E3. lia. }
    destruct (l !! (from0 + m)%nat) as [y|] eqn:Hy; [|apply lookup_ge_None in Hy; lia].
    destruct (IH (Datatypes.S m)
                 (store_object h a (sparse_array (Z.of_nat len)
                                      (copied to0 (to0 + Datatypes.S m))))
                 ltac:(lia) Hdir (store_object_lookup _ _ _)) as [st Hrun].
    rewrite store_object_twice in Hrun. exists st.
    eapply runs_to_bind.
    + eapply runs_to_bind; [|apply runs_to_Ret].
      apply (move_property_sparse sortBody a h _ _ (from0 + m) (to0 + m) Ha).
      * rewrite table_length. lia.
      * lia.
    + rewrite Hread. change (mjoin (Some (Some y))) with (Some y).
      destruct (is_Some_dec (Some y)) as [_|Hno]; [|exfalso; apply Hno; eauto].
      destruct (Z.leb_spec (Z.of_nat len) (Z.of_nat (to0 + m))); [lia|].
      replace (Z.of_nat (from0 + m) + 1) with (Z.of_nat (from0 + Datatypes.S m)) by lia.
      replace (Z.of_nat (to0 + m) + 1) with (Z.of_nat (to0 + Datatypes.S m)) by lia.
      assert (Hstate : <[(to0 + m)%nat := Some y]> (copied to0 (to0 + m)) =
                       copied to0 (to0 + Datatypes.S m)).
      { rewrite table_insert. apply table_ext. intros j Hj.
        destruct (j =? to0 + m)%nat eqn:E1.
        - apply Nat.eqb_eq in E1. subst j.
          replace ((to0 <=? to0 + m)%nat && (to0 + m <? to0 + Datatypes.S m)%nat)
            with true by (symmetry; apply andb_true_iff; split;
                          [apply Nat.leb_le|apply Nat.ltb_lt]; lia).
          rewrite <- Hy. f_equal. lia.
        - apply Nat.eqb_neq in E1.
          replace (j <? to0 + Datatypes.S m)%nat with (j <? to0 + m)%nat; [reflexivity|].
          nat_cases; try reflexivity; lia. }
      rewrite Hstate. exact Hrun.
Qed.

(** Going down: taken when the target is inside the source range. *)
Lemma copy_backward_heap (turns : nat) : forall (m : nat) (h : Heap),
  (m + turns = count)%nat ->
  (from0 < to0)%nat ->
  objects h !! a = Some (sparse_array (Z.of_nat len)
                           (copied (to0 + count - m) (to0 + count))) ->
  exists st,
    runs_to host
      (iterate turns (fun '(from, to) =>
           let fromKey := ToString from in
           let toKey := ToString to in
           move_property (Obj a) fromKey toKey;;
           Ret (from + -1, to + -1))
         (Z.of_nat (from0 + count - m) - 1, Z.of_nat (to0 + count - m) - 1))
      h st (store_object h a (sparse_array (Z.of_nat len) (copied to0 (to0 + count)))).
Proof.
  induction turns as [|turns IH]; intros m h Hm Hdir Ha.
  - assert (m = count) by lia. subst m. eexists. cbn [iterate].
    replace (to0 + count - count)%nat with to0 in Ha by lia.
    rewrite (store_object_same _ _ _ Ha). apply runs_to_Ret.
  - cbn [iterate]. cbv zeta.
    set (from := (from0 + count - m - 1)%nat). set (to := (to0 + count - m - 1)%nat).
    replace (Z.of_nat (from0 + count - m) - 1) with (Z.of_nat from) by (unfold from; lia).
    replace (Z.of_nat (to0 + count - m) - 1) with (Z.of_nat to) by (unfold to; lia).
    assert (Hread : copied (to0 + count - m) (to0 + count) !! from = Some (l !! from)).
    { rewrite table_lookup.
      destruct (from <? len)%nat eqn:E; [|apply Nat.ltb_ge in E; unfold from in E; lia].
      destruct ((to0 + count - m <=? from)%nat && (from <? to0 + count)%nat) eqn:E2;
        [|reflexivity].
      apply andb_true_iff in E2. destruct E2 as [E2 E3].
      apply Nat.leb_le in E2. unfold from in E2. lia. }
    destruct (l !! from) as [y|] eqn:Hy;
      [|apply lookup_ge_None in Hy; unfold from in Hy; lia].
    destruct (IH (Datatypes.S m)
                 (store_object h a (sparse_array (Z.of_nat len)
                    (copied (to0 + count - Datatypes.S m) (to0 + count))))
                 ltac:(lia) Hdir (store_object_lookup _ _ _)) as [st Hrun].
    rewrite store_object_twice in Hrun. exists st.
    eapply runs_to_bind.
    + eapply runs_to_bind; [|apply runs_to_Ret].
      apply (move_property_sparse sortBody a h _ _ from to Ha).
      * rewrite table_length. unfold to. lia.
      * unfold to. lia.
    + rewrite Hread. change (mjoin (Some (Some y))) with (Some y).
      destruct (is_Some_dec (Some y)) as [_|Hno]; [|exfalso; apply Hno; eauto].
      destruct (Z.leb_spec (Z.of_nat len) (Z.of_nat to)); [unfold to in *; lia|].
      replace (Z.of_nat from + -1) with (Z.of_nat (from0 + count - Datatypes.S m) - 1)
        by (unfold from; lia).
      replace (Z.of_nat to + -1) with (Z.of_nat (to0 + count - Datatypes.S m) - 1)
        by (unfold to; lia).
      assert (Hstate : <[to := Some y]> (copied (to0 + count - m) (to0 + count)) =
                       copied (to0 + count - Datatypes.S m) (to0 + count)).
      { rewrite table_insert. apply table_ext. intros j Hj.
        destruct (j =? to)%nat eqn:E1.
        - apply Nat.eqb_eq in E1. subst j.
          replace ((to0 + count - Datatypes.S m <=? to)%nat && (to <? to0 + count)%nat)
            with true by (symmetry; apply andb_true_iff; split;
                          [apply Nat.leb_le|apply Nat.ltb_lt]; unfold to; lia).
          rewrite <- Hy. f_equal. unfold to, from. lia.
        - apply Nat.eqb_neq in E1.
          replace (to0 + count - Datatypes.S m <=? j)%nat
            with (to0 + count - m <=? j)%nat; [reflexivity|].
          unfold to in E1. nat_cases; try reflexivity; lia. }
      rewrite Hstate. exact Hrun.
Qed.

(** The elements in the end, as a list. *)
Lemma copied_all :
  sparse_array (Z.of_nat len) (copied to0 (to0 + count)) =
  array_of (take to0 l ++ take count (drop from0 l) ++ drop (to0 + count) l).
Proof.
  assert (Hlen : length (take to0 l ++ take count (drop from0 l) ++ drop (to0 + count) l)
                 = len).
  { rewrite !length_app, !length_take, !length_drop. lia. }
  rewrite array_of_array_with, Hlen. apply array_with_sparse. intros j.
  rewrite table_lookup.
  destruct (j <? len)%nat eqn:E; [apply Nat.ltb_lt in E|apply Nat.ltb_ge in E].
  2:{ symmetry. apply lookup_ge_None. rewrite Hlen. exact E. }
  change (mjoin (Some ?x)) with x.
  destruct (Nat.lt_ge_cases j to0) as [H1|H1].
  - replace ((to0 <=? j)%nat && (j <? to0 + count)%nat) with false
      by (symmetry; apply andb_false_iff; left; apply Nat.leb_gt; lia).
    rewrite lookup_app_l by (rewrite length_take; lia).
    rewrite lookup_take_lt by lia. reflexivity.
  - rewrite lookup_app_r by (rewrite length_take; lia).
    rewrite length_take. replace (to0 `min` len)%nat with to0 by lia.
    destruct (Nat.lt_ge_cases j (to0 + count)) as [H2|H2].
    + replace ((to0 <=? j)%nat && (j <? to0 + count)%nat) with true
        by (symmetry; apply andb_true_iff; split;
            [apply Nat.leb_le|apply Nat.ltb_lt]; lia).
      rewrite lookup_app_l by (rewrite length_take, length_drop; lia).
      rewrite lookup_take_lt by lia. rewrite lookup_drop. reflexivity.
    + replace ((to0 <=? j)%nat && (j <? to0 + count)%nat) with false
        by (symmetry; apply andb_false_iff; right; apply Nat.ltb_ge; lia).
      rewrite lookup_app_r by (rewrite length_take, length_drop; lia).
      rewrite length_take, length_drop, lookup_drop.
      f_equal. lia.
Qed.

Lemma copied_none (lo : nat) :
  sparse_array (Z.of_nat len) (copied lo lo) = array_of l.
Proof.
  rewrite array_of_array_with. apply array_with_sparse. intros j.
  rewrite table_lookup.
  destruct (j <? len)%nat eqn:E; [apply Nat.ltb_lt in E|apply Nat.ltb_ge in E].
  - replace ((lo <=? j)%nat && (j <? lo)%nat) with false; [reflexivity|].
    symmetry. apply andb_false_iff.
    destruct (Nat.lt_ge_cases j lo); [left; apply Nat.leb_gt|right; apply Nat.ltb_ge]; lia.
  - symmetry. apply lookup_ge_None. exact E.
Qed.
End HeapCopyWithin.

Lemma copyWithin_heap sortBody (a : N) (l : list Value) (h : Heap)
    (target start end_ : Value) (relativeTarget relativeStart relativeEnd : Integer) :
  objects h !! a = Some (array_of l) ->
  Z.of_nat (length l) < 2 ^ 32 ->
  host_ToInteger target = NormalCompletion relativeTarget ->
  host_ToInteger start = NormalCompletion relativeStart ->
  (if is_undefined end_ then relativeEnd = Fin (Z.of_nat (length l))
   else host_ToInteger end_ = NormalCompletion relativeEnd) ->
  let to := Z.to_nat (relative_to_absolute relativeTarget (Z.of_nat (length l))) in
  let from := Z.to_nat (relative_to_absolute relativeStart (Z.of_nat (length l))) in
  let final_ := Z.to_nat (relative_to_absolute relativeEnd (Z.of_nat (length l))) in
  let count := Nat.min (final_ - from) (length l - to) in
  runs_to (heap_host sortBody) (ArrayProto_copyWithin [target; start; end_] (Obj a)) h
    (Obj a)
    (store_object h a
       (array_of (take to l ++ take count (drop from l) ++ drop (to + count) l))).
Proof.
  intros Ha Hsize Htarget Hstart Hend to from final_ count.
  pose proof (relative_to_absolute_range relativeTarget (Z.of_nat (length l))
                ltac:(lia)) as Hto.
  pose proof (relative_to_absolute_range relativeStart (Z.of_nat (length l))
                ltac:(lia)) as Hfrom.
  pose proof (relative_to_absolute_range relativeEnd (Z.of_nat (length l))
                ltac:(lia)) as Hfinal.
  unfold ArrayProto_copyWithin. cbv zeta. cbn [arg nth].
  eapply (runs_to_read_length (heap_host sortBody));
    [reflexivity| |apply heap_ToLength_length|].
  { exact (heap_Get_length sortBody _ _ (Z.of_nat (length l)) l Ha). }
  { unfold MAX_SAFE_INTEGER. lia. }
  eapply runs_to_bind_Q; [rewrite heap_ToInteger, Htarget; reflexivity|].
  eapply runs_to_bind_Q; [rewrite heap_ToInteger, Hstart; reflexivity|].
  eapply runs_to_bind.
  { instantiate (1 := h). instantiate (1 := relativeEnd).
    destruct (is_undefined end_).
    - subst relativeEnd. apply runs_to_Ret.
    - apply runs_to_Q. rewrite heap_ToInteger, Hend. reflexivity. }
  set (toz := relative_to_absolute relativeTarget (Z.of_nat (length l))) in *.
  set (fromz := relative_to_absolute relativeStart (Z.of_nat (length l))) in *.
  set (finalz := relative_to_absolute relativeEnd (Z.of_nat (length l))) in *.
  set (countz := Z.min (finalz - fromz) (Z.of_nat (length l) - toz)).
  assert (Hcount : Z.to_nat countz = count) by (unfold countz, count, final_, from, to; lia).
  rewrite Hcount.
  assert (Hf : (from + count <= length l)%nat) by (unfold count, from, final_; lia).
  assert (Ht : (to + count <= length l)%nat) by (unfold count, to; lia).
  assert (Hstart0 : forall lo, objects h !! a =
            Some (sparse_array (Z.of_nat (length l))
                    (table (length l) (fun j =>
                       if (lo <=? j)%nat && (j <? lo)%nat
                       then l !! (from + (j - to))%nat else l !! j)))).
  { intros lo. rewrite Ha. f_equal. symmetry. eapply copied_none; eassumption. }
  rewrite <- (copied_all l from to count Hf Ht).
  destruct ((fromz <? toz) && (toz <? fromz + countz)) eqn:Hdir.
  - apply andb_true_iff in Hdir. destruct Hdir as [H1 H2].
    apply Z.ltb_lt in H1, H2.
    pose proof (copy_backward_heap sortBody a l Hsize from to count Hf Ht count 0%nat h
                  ltac:(lia) ltac:(unfold from, to; lia)) as Hloop.
    rewrite !Nat.sub_0_r in Hloop.
    replace (Z.of_nat (from + count) - 1) with (fromz + (countz - 1)) in Hloop
      by (unfold from; lia).
    replace (Z.of_nat (to + count) - 1) with (toz + (countz - 1)) in Hloop
      by (unfold to; lia).
    destruct Hloop as [st Hloop]; [exact (Hstart0 (to + count)%nat)|].
    eapply runs_to_bind; [exact Hloop|apply runs_to_Ret].
  - pose proof (copy_forward_heap sortBody a l Hsize from to count Hf Ht count 0%nat h
                  ltac:(lia)) as Hloop.
    rewrite !Nat.add_0_r in Hloop.
    replace (Z.of_nat from) with fromz in Hloop by (unfold from; lia).
    replace (Z.of_nat to) with toz in Hloop by (unfold to; lia).
    destruct Hloop as [st Hloop]; [|exact (Hstart0 to)|].
    { apply andb_false_iff in Hdir. destruct Hdir as [H1|H1]; apply Z.ltb_ge in H1;
        unfold from, to; lia. }
    eapply runs_to_bind; [exact Hloop|apply runs_to_Ret].
Qed.

(** X21.  On the heap, copyWithin copies a range onto another: for every
    array with elements [l], copyWithin(target, start, end) returns the array
    itself, whose elements from index [to] on are then the [count] elements
    that [l] had from index [from] on, the others being those of [l], where
    [count] is the smaller of [final - from] and [length l - to] -- also
    when the two ranges overlap, in either direction; the length and every
    other object are as they were. *)
Theorem copyWithin_copies_the_range :
  forall (sortBody : Value -> Z -> Value -> Heap -> Completion Value * Heap)
         (h : Heap) (a : N) (l : list Value) (target start end_ : Value)
         (relativeTarget relativeStart relativeEnd : Integer),
    objects h !! a = Some (array_of l) ->
    Z.of_nat (length l) < 2 ^ 32 ->
    host_ToInteger target = NormalCompletion relativeTarget ->
    host_ToInteger start = NormalCompletion relativeStart ->
    (if is_undefined end_ then relativeEnd = Fin (Z.of_nat (length l))
     else host_ToInteger end_ = NormalCompletion relativeEnd) ->
    let to := Z.to_nat (relative_to_absolute relativeTarget (Z.of_nat (length l))) in
    let from := Z.to_nat (relative_to_absolute relativeStart (Z.of_nat (length l))) in
    let final_ := Z.to_nat (relative_to_absolute relativeEnd (Z.of_nat (length l))) in
    let count := Nat.min (final_ - from) (length l - to) in
    let r := exec (heap_host sortBody)
                  (ArrayProto_copyWithin [target; start; end_] (Obj a)) h in
    outcome r = Returned (Obj a) /\
    final r = store_object h a
                (array_of (take to l ++ take count (drop from l) ++ drop (to + count) l)).
Proof.
  intros sortBody h a l target start end_ relativeTarget relativeStart relativeEnd
    Ha Hsize Htarget Hstart Hend.
  exact (copyWithin_heap sortBody a l h target start end_ relativeTarget relativeStart
           relativeEnd Ha Hsize Htarget Hstart Hend).
Qed.

(** ** splice on an array of the heap *)

(** Setting "length" to a value below which all the elements are. *)
Lemma define_value_sparse_fits len elements (n : Z) :
  (forall j v, elements !! j = Some (Some v) -> Z.of_nat j < n) ->
  0 <= n < 2 ^ 32 ->
  define_value (sparse_array len elements) "length" (Num (Int n)) =
  NormalCompletion (sparse_array n elements).
Proof.
  intros Hfits Hn. unfold define_value.
  change (class (sparse_array len elements)) with ClassArray. cbv iota.
  change (String.eqb "length" "length") with true. cbv iota.
  simpl ToNumber. cbv iota.
  destruct (0 <=? n) eqn:H0; [|lia]. destruct (n <? 2 ^ 32) eqn:H1; [|lia].
  cbn [andb]. f_equal. unfold set_array_length, sparse_array.
  cbn [class properties isConcatSpreadable]. f_equal.
  rewrite map_filter_id.
  - apply insert_insert_eq.
  - intros K v HK. cbn [fst]. unfold below_length.
    destruct (array_index K) as [i|] eqn:Hi; [|reflexivity].
    apply array_index_Some in Hi. destruct Hi as [-> Hi].
    rewrite lookup_insert_ne in HK by (apply not_eq_sym, ToString_not_length).
    apply sparse_properties_lookup in HK. destruct HK as (j & Hj & Hv).
    apply ToString_inj in Hj. apply Hfits in Hv. apply Z.ltb_lt. lia.
Qed.

Section HeapLoops.
Variable sortBody : Value -> Z -> Value -> Heap -> Completion Value * Heap.
Local Abbreviation host := (heap_host sortBody).
Variable a : N.
Variable size : nat.
Hypothesis Hsize : Z.of_nat size < 2 ^ 32.

(** A loop of moves of elements that are there: turn [m] moves the element
    at [from m] to [to m]; [F m] gives the elements before turn [m], and
    [counter m] the loop variable. *)
Lemma move_loop_heap (body : Z -> Prog Z) (counter : nat -> Z) (from to : nat -> nat)
    (F : nat -> nat -> option Value) (total : nat) :
  (forall m, (m < total)%nat ->
     body (counter m) =
     (move_property (Obj a) (ToString (Z.of_nat (from m))) (ToString (Z.of_nat (to m)));;
      Ret (counter (Datatypes.S m)))) ->
  (forall m, (m < total)%nat ->
     (from m < size)%nat /\ (to m < size)%nat /\ is_Some (F m (from m))) ->
  (forall m j, (m < total)%nat -> (j < size)%nat ->
     F (Datatypes.S m) j = if (j =? to m)%nat then F m (from m) else F m j) ->
  forall (turns m : nat) (h : Heap) (L : Z),
    (m + turns = total)%nat ->
    objects h !! a = Some (sparse_array L (table size (F m))) ->
    exists L',
      runs_to host (iterate turns body (counter m)) h (counter total)
        (store_object h a (sparse_array L' (table size (F total)))).
Proof.
  intros Hbody Hbounds Hstep.
  induction turns as [|turns IH]; intros m h L Hm Ha.
  - assert (m = total) by lia. subst m. exists L. cbn [iterate].
    rewrite (store_object_same _ _ _ Ha). apply runs_to_Ret.
  - cbn [iterate]. rewrite (Hbody m) by lia.
    destruct (Hbounds m ltac:(lia)) as (Hfrom & Hto & [y Hy]).
    assert (Hread : table size (F m) !! from m = Some (Some y)).
    { rewrite table_lookup. destruct (from m <? size)%nat eqn:E;
        [rewrite Hy; reflexivity|apply Nat.ltb_ge in E; lia]. }
    set (L1 := if L <=? Z.of_nat (to m) then Z.of_nat (to m) + 1 else L).
    destruct (IH (Datatypes.S m)
                 (store_object h a (sparse_array L1 (table size (F (Datatypes.S m))))) L1
                 ltac:(lia) (store_object_lookup _ _ _)) as [L' Hrun].
    rewrite store_object_twice in Hrun. exists L'.
    eapply runs_to_bind.
    + eapply runs_to_bind; [|apply runs_to_Ret].
      apply (move_property_sparse sortBody a h _ _ (from m) (to m) Ha).
      * rewrite table_length. exact Hto.
      * lia.
    + rewrite Hread. change (mjoin (Some (Some y))) with (Some y).
      destruct (is_Some_dec (Some y)) as [_|Hno]; [|exfalso; apply Hno; eauto].
      fold L1.
      replace (<[to m := Some y]> (table size (F m)))
        with (table size (F (Datatypes.S m))); [exact Hrun|].
      rewrite table_insert. apply table_ext. intros j Hj.
      rewrite (Hstep m j) by lia. rewrite Hy. reflexivity.
Qed.

(** A loop of deletions from index [top - 1] down. *)
Lemma delete_loop_heap (G : nat -> option Value) (top : nat) (turns : nat) :
  forall (p : nat) (h : Heap) (L : Z),
    (p + turns <= top)%nat ->
    objects h !! a =
      Some (sparse_array L (table size (fun j => if (top - p <=? j)%nat then None else G j))) ->
    runs_to host
      (iterate turns (fun k =>
           Q (DeletePropertyOrThrow (Obj a) (ToString (k - 1)));;
           Ret (k - 1)) (Z.of_nat (top - p)))
      h (Z.of_nat (top - (p + turns)))
      (store_object h a
         (sparse_array L (table size (fun j => if (top - (p + turns) <=? j)%nat
                                               then None else G j)))).
Proof.
  induction turns as [|turns IH]; intros p h L Hp Ha.
  - cbn [iterate]. rewrite Nat.add_0_r, (store_object_same _ _ _ Ha). apply runs_to_Ret.
  - cbn [iterate].
    replace (Z.of_nat (top - p) - 1) with (Z.of_nat (top - Datatypes.S p)) by lia.
    eapply runs_to_bind.
    + eapply runs_to_bind_Q; [|apply runs_to_Ret].
      exact (heap_Delete_sparse sortBody a h L _ (top - Datatypes.S p) Ha).
    + replace (p + Datatypes.S turns)%nat with (Datatypes.S p + turns)%nat by lia.
      specialize (IH (Datatypes.S p)
        (store_object h a (sparse_array L
           (table size (fun j => if (top - Datatypes.S p <=? j)%nat then None else G j)))) L).
      rewrite store_object_twice in IH.
      replace (<[(top - Datatypes.S p)%nat := None]>
                 (table size (fun j => if (top - p <=? j)%nat then None else G j)))
        with (table size (fun j => if (top - Datatypes.S p <=? j)%nat then None else G j)).
      * apply IH; [lia|apply store_object_lookup].
      * rewrite table_insert. apply table_ext. intros j Hj.
        nat_cases; try reflexivity; lia.
Qed.

(** The loop that stores the items from index [base] on. *)
Lemma store_loop_heap (items : list Value) (G : nat -> option Value) (base : nat)
    (rest : list Value) : forall (p : nat) (h : Heap) (L : Z),
  drop p items = rest ->
  (p <= length items)%nat ->
  (base + length items <= size)%nat ->
  objects h !! a =
    Some (sparse_array L
            (table size (fun j => if (base <=? j)%nat && (j <? base + p)%nat
                                  then items !! (j - base)%nat else G j))) ->
  exists L',
    runs_to host
      (for_each rest (fun E k =>
           Q (Set_ (Obj a) (ToString k) E true);;
           Ret (k + 1)) (Z.of_nat (base + p)))
      h (Z.of_nat (base + length items))
      (store_object h a
         (sparse_array L'
            (table size (fun j => if (base <=? j)%nat && (j <? base + length items)%nat
                                  then items !! (j - base)%nat else G j)))).
Proof.
  induction rest as [|E rest IH]; intros p h L Hdrop Hp Hfit Ha.
  - assert (p = length items).
    { apply (f_equal length) in Hdrop. rewrite length_drop in Hdrop. simpl in Hdrop. lia. }
    subst p. exists L. cbn [for_each].
    rewrite (store_object_same _ _ _ Ha). apply runs_to_Ret.
  - assert (Hlt : (p < length items)%nat).
    { apply (f_equal length) in Hdrop. rewrite length_drop in Hdrop. simpl in Hdrop. lia. }
    assert (HE : items !! p = Some E).
    { rewrite <- (Nat.add_0_r p), <- lookup_drop, Hdrop. reflexivity. }
    assert (Hrest : drop (Datatypes.S p) items = rest).
    { rewrite (drop_S items E p HE) in Hdrop. injection Hdrop as ->. reflexivity. }
    set (L1 := if L <=? Z.of_nat (base + p) then Z.of_nat (base + p) + 1 else L).
    destruct (IH (Datatypes.S p)
                 (store_object h a
                    (sparse_array L1
                       (table size (fun j =>
                          if (base <=? j)%nat && (j <? base + Datatypes.S p)%nat
                          then items !! (j - base)%nat else G j)))) L1
                 Hrest ltac:(lia) Hfit (store_object_lookup _ _ _)) as [L' Hrun].
    rewrite store_object_twice in Hrun.
    exists L'. cbn [for_each].
    eapply runs_to_bind.
    + eapply runs_to_bind_Q; [|apply runs_to_Ret].
      apply (heap_Set_sparse sortBody a h L _ (base + p) E true Ha).
      * rewrite table_length. lia.
      * lia.
    + fold L1.
      replace (Z.of_nat (base + p) + 1) with (Z.of_nat (base + Datatypes.S p)) by lia.
      replace (<[(base + p)%nat := Some E]>
                 (table size (fun j => if (base <=? j)%nat && (j <? base + p)%nat
                                       then items !! (j - base)%nat else G j)))
        with (table size (fun j => if (base <=? j)%nat && (j <? base + Datatypes.S p)%nat
                                   then items !! (j - base)%nat else G j));
        [exact Hrun|].
      rewrite table_insert. apply table_ext. intros j Hj.
      destruct (j =? base + p)%nat eqn:E1.
      * apply Nat.eqb_eq in E1. subst j.
        replace ((base <=? base + p)%nat && (base + p <? base + Datatypes.S p)%nat)
          with true by (symmetry; apply andb_true_iff; split;
                        [apply Nat.leb_le|apply Nat.ltb_lt]; lia).
        rewrite <- HE. f_equal. lia.
      * apply Nat.eqb_neq in E1.
        replace (j <? base + Datatypes.S p)%nat with (j <? base + p)%nat; [reflexivity|].
        nat_cases; try reflexivity; lia.
Qed.
End HeapLoops.

Lemma spliced_lookup (l items : list Value) (s d j : nat) :
  (s + d <= length l)%nat ->
  (take s l ++ items ++ drop (s + d) l)%list !! j =
  if (j <? s)%nat then l !! j
  else if (j <? s + length items)%nat then items !! (j - s)%nat
       else l !! (j - length items + d)%nat.
Proof.
  intros Hrange.
  assert (Htake : length (take s l) = s) by (rewrite length_take; lia).
  destruct (j <? s)%nat eqn:E1.
  - apply Nat.ltb_lt in E1. rewrite lookup_app_l by lia. apply lookup_take_lt. exact E1.
  - apply Nat.ltb_ge in E1. rewrite lookup_app_r by lia. rewrite Htake.
    destruct (j <? s + length items)%nat eqn:E2.
    + apply Nat.ltb_lt in E2. apply lookup_app_l. lia.
    + apply Nat.ltb_ge in E2. rewrite lookup_app_r by lia. rewrite lookup_drop.
      f_equal. lia.
Qed.

Section HeapSplice.
Variable sortBody : Value -> Z -> Value -> Heap -> Completion Value * Heap.
Local Abbreviation host := (heap_host sortBody).
Variable a A : N.
Hypothesis HA : a <> A.
Variable l items : list Value.
Variable s d : nat.
Hypothesis Hrange : (s + d <= length l)%nat.
Hypothesis Hsize : Z.of_nat (length l) < 2 ^ 32.
Hypothesis Hnew : Z.of_nat (length l - d + length items) < 2 ^ 32.

Local Abbreviation len := (length l).
Local Abbreviation ic := (length items).
Local Abbreviation newLen := (length l - d + length items)%nat.
Local Abbreviation size := (Nat.max (length l) (length l - d + length items)).

Lemma heap_Set_length_fits h L elements (n : Z) flag :
  objects h !! a = Some (sparse_array L elements) ->
  (forall j v, elements !! j = Some (Some v) -> Z.of_nat j < n) ->
  0 <= n < 2 ^ 32 ->
  host _ (Set_ (Obj a) "length" (Num (Int n)) flag) h =
  (NormalCompletion true, store_object h a (sparse_array n elements)).
Proof.
  intros Ha Hfits Hn. cbn [heap_host]. rewrite (lookup_object_Some _ _ _ Ha).
  rewrite define_value_sparse_fits by assumption. reflexivity.
Qed.

(** The loop that copies the removed elements into the new array. *)
Lemma splice_take_heap (c : nat) : forall (j : nat) (h : Heap),
  (j + c = d)%nat ->
  objects h !! a = Some (array_of l) ->
  objects h !! A = Some (array_with (Z.of_nat d) (take j (drop s l))) ->
  runs_to host
    (iterate c (fun k =>
         let from := ToString (Z.of_nat s + k) in
         fromPresent ← Q (HasProperty (Obj a) from);
         (if fromPresent : bool then
            fromValue ← Q (Get (Obj a) from);
            Q (CreateDataPropertyOrThrow (Obj A) (ToString k) fromValue);;
            Ret tt
          else Ret tt);;
         Ret (k + 1)) (Z.of_nat j))
    h (Z.of_nat d)
    (store_object h A (array_with (Z.of_nat d) (take d (drop s l)))).
Proof.
  induction c as [|c IH]; intros j h Hj Ha HAobj.
  - assert (j = d) by lia. subst j. cbn [iterate].
    rewrite (store_object_same _ _ _ HAobj). apply runs_to_Ret.
  - cbn [iterate]. cbv zeta.
    destruct (l !! (s + j)%nat) as [v|] eqn:Hv; [|apply lookup_ge_None in Hv; lia].
    assert (Hlen : length (take j (drop s l)) = j)
      by (rewrite length_take, length_drop; lia).
    assert (Htake : take (Datatypes.S j) (drop s l) = (take j (drop s l) ++ [v])%list).
    { apply take_S_r. rewrite lookup_drop. exact Hv. }
    replace (Z.of_nat s + Z.of_nat j) with (Z.of_nat (s + j)) by lia.
    eapply runs_to_bind.
    + assert (Ha' : objects h !! a = Some (array_with (Z.of_nat len) l)) by exact Ha.
      eapply runs_to_bind_Q;
        [exact (heap_HasProperty_array sortBody _ _ _ _ (s + j) Ha')|].
      rewrite bool_decide_eq_true_2 by (eapply lookup_lt_Some; exact Hv).
      eapply runs_to_bind; [|apply runs_to_Ret].
      eapply runs_to_bind_Q; [exact (heap_Get_array sortBody _ _ _ _ _ _ Ha' Hv)|].
      eapply runs_to_bind_Q; [|apply runs_to_Ret].
      rewrite <- Hlen at 1.
      apply (heap_Create_snoc sortBody h A _ _ v HAobj). lia.
    + rewrite Hlen, Z.max_l, <- Htake by lia.
      replace (Z.of_nat j + 1) with (Z.of_nat (Datatypes.S j)) by lia.
      specialize (IH (Datatypes.S j)
        (store_object h A (array_with (Z.of_nat d) (take (Datatypes.S j) (drop s l))))).
      rewrite store_object_twice in IH. apply IH; try lia.
      * rewrite store_object_other by exact HA. exact Ha.
      * apply store_object_lookup.
Qed.

(** The elements of the receiver once the tail has been moved to its new
    place, and what is in the end beyond the new length deleted. *)
Local Abbreviation shifted :=
  (fun j : nat => if (j <? s + ic)%nat then l !! j
                  else if (j <? newLen)%nat then l !! (j - ic + d)%nat else None).

Lemma splice_shift_heap (h : Heap) :
  objects h !! a = Some (array_of l) ->
  exists L,
    runs_to host
      (if Z.of_nat ic <? Z.of_nat d then
         iterate (Z.to_nat (Z.of_nat len - Z.of_nat d - Z.of_nat s)) (fun k =>
             let from := ToString (k + Z.of_nat d) in
             let to := ToString (k + Z.of_nat ic) in
             move_property (Obj a) from to;;
             Ret (k + 1)) (Z.of_nat s);;
         iterate (Z.to_nat (Z.of_nat len - (Z.of_nat len - Z.of_nat d + Z.of_nat ic)))
           (fun k =>
             Q (DeletePropertyOrThrow (Obj a) (ToString (k - 1)));;
             Ret (k - 1)) (Z.of_nat len);;
         Ret tt
       else if Z.of_nat ic >? Z.of_nat d then
         iterate (Z.to_nat (Z.of_nat len - Z.of_nat d - Z.of_nat s)) (fun k =>
             let from := ToString (k + Z.of_nat d - 1) in
             let to := ToString (k + Z.of_nat ic - 1) in
             move_property (Obj a) from to;;
             Ret (k - 1)) (Z.of_nat len - Z.of_nat d);;
         Ret tt
       else Ret tt)
      h tt (store_object h a (sparse_array L (table size shifted))).
Proof.
  intros Ha.
  assert (Hstart : forall F : nat -> option Value,
            (forall j, (j < size)%nat -> F j = l !! j) ->
            objects h !! a = Some (sparse_array (Z.of_nat len) (table size F))).
  { intros F HF. rewrite Ha. f_equal. symmetry.
    rewrite array_of_array_with. apply array_with_sparse. intros j.
    rewrite table_lookup. destruct (j <? size)%nat eqn:E.
    - apply Nat.ltb_lt in E. rewrite (HF j E). reflexivity.
    - apply Nat.ltb_ge in E. symmetry. apply lookup_ge_None. lia. }
  set (total := (len - d - s)%nat).
  replace (Z.to_nat (Z.of_nat len - Z.of_nat d - Z.of_nat s)) with total by lia.
  destruct (Z.ltb_spec (Z.of_nat ic) (Z.of_nat d)) as [Hlt|Hge].
  - (* fewer items than removed elements: the tail moves down *)
    set (F := fun (m j : nat) =>
                if (s + ic <=? j)%nat && (j <? s + ic + m)%nat
                then l !! (j - ic + d)%nat else l !! j).
    destruct (move_loop_heap sortBody a size ltac:(lia)
                (fun k => let from := ToString (k + Z.of_nat d) in
                          let to := ToString (k + Z.of_nat ic) in
                          move_property (Obj a) from to;; Ret (k + 1))
                (fun m => Z.of_nat (s + m)) (fun m => (s + m + d)%nat)
                (fun m => (s + m + ic)%nat) F total) with (turns := total) (m := 0%nat)
                (h := h) (L := Z.of_nat len) as [L1 Hmoves].
    { intros m Hm. cbv beta zeta.
      replace (Z.of_nat (s + m) + Z.of_nat d) with (Z.of_nat (s + m + d)) by lia.
      replace (Z.of_nat (s + m) + Z.of_nat ic) with (Z.of_nat (s + m + ic)) by lia.
      replace (Z.of_nat (s + m) + 1) with (Z.of_nat (s + Datatypes.S m)) by lia.
      reflexivity. }
    { intros m Hm. unfold total in Hm. split; [lia|]. split; [lia|].
      unfold F.
      replace ((s + ic <=? s + m + d)%nat && (s + m + d <? s + ic + m)%nat) with false
        by (symmetry; apply andb_false_iff; right; apply Nat.ltb_ge; lia).
      apply lookup_lt_is_Some. lia. }
    { intros m j Hm Hj. unfold F, total in *.
      destruct (j =? s + m + ic)%nat eqn:E1.
      - apply Nat.eqb_eq in E1. subst j.
        replace ((s + ic <=? s + m + ic)%nat && (s + m + ic <? s + ic + Datatypes.S m)%nat)
          with true by (symmetry; apply andb_true_iff; split;
                        [apply Nat.leb_le|apply Nat.ltb_lt]; lia).
        replace ((s + ic <=? s + m + d)%nat && (s + m + d <? s + ic + m)%nat) with false
          by (symmetry; apply andb_false_iff; right; apply Nat.ltb_ge; lia).
        f_equal. lia.
      - apply Nat.eqb_neq in E1.
        replace (j <? s + ic + Datatypes.S m)%nat with (j <? s + ic + m)%nat; [reflexivity|].
        nat_cases; try reflexivity; lia. }
    { lia. }
    { apply Hstart. intros j Hj. unfold F.
      replace ((s + ic <=? j)%nat && (j <? s + ic + 0)%nat) with false; [reflexivity|].
      symmetry. apply andb_false_iff.
      destruct (Nat.lt_ge_cases j (s + ic));
        [left; apply Nat.leb_gt|right; apply Nat.ltb_ge]; lia. }
    rewrite Nat.add_0_r in Hmoves.
    set (h1 := store_object h a (sparse_array L1 (table size (F total)))) in *.
    pose proof (delete_loop_heap sortBody a size (F total) len (d - ic) 0%nat h1 L1
                  ltac:(lia)) as Hdel.
    rewrite Nat.sub_0_r, Nat.add_0_l in Hdel.
    assert (Hfinal :
      store_object h1 a
        (sparse_array L1 (table size (fun j => if (len - (d - ic) <=? j)%nat
                                               then None else F total j))) =
      store_object h a (sparse_array L1 (table size shifted))).
    { unfold h1. rewrite store_object_twice. do 2 f_equal.
      apply table_ext. intros j Hj. unfold F, total.
      nat_cases; cbn [andb]; try reflexivity; try lia; f_equal; lia. }
    exists L1. rewrite <- Hfinal.
    eapply runs_to_bind; [exact Hmoves|].
    eapply runs_to_bind; [|apply runs_to_Ret].
    replace (Z.to_nat (Z.of_nat len - (Z.of_nat len - Z.of_nat d + Z.of_nat ic)))
      with (d - ic)%nat by lia.
    apply Hdel. unfold h1. rewrite store_object_lookup. do 2 f_equal.
    apply table_ext. intros j Hj.
    destruct (len <=? j)%nat eqn:E; [apply Nat.leb_le in E; lia|reflexivity].
  - destruct (Z.gtb_spec (Z.of_nat ic) (Z.of_nat d)) as [Hgt|Heq].
    + (* more items than removed elements: the tail moves up, last first *)
      set (F := fun (m j : nat) =>
                  if (len - d - m + ic <=? j)%nat then l !! (j - ic + d)%nat else l !! j).
      destruct (move_loop_heap sortBody a size ltac:(lia)
                  (fun k => let from := ToString (k + Z.of_nat d - 1) in
                            let to := ToString (k + Z.of_nat ic - 1) in
                            move_property (Obj a) from to;; Ret (k - 1))
                  (fun m => Z.of_nat (len - d - m)) (fun m => (len - m - 1)%nat)
                  (fun m => (len - d - m + ic - 1)%nat) F total) with (turns := total)
                  (m := 0%nat) (h := h) (L := Z.of_nat len) as [L1 Hmoves].
      { intros m Hm. unfold total in Hm. cbv beta zeta.
        replace (Z.of_nat (len - d - m) + Z.of_nat d - 1) with (Z.of_nat (len - m - 1))
          by lia.
        replace (Z.of_nat (len - d - m) + Z.of_nat ic - 1)
          with (Z.of_nat (len - d - m + ic - 1)) by lia.
        replace (Z.of_nat (len - d - m) - 1) with (Z.of_nat (len - d - Datatypes.S m))
          by lia.
        reflexivity. }
      { intros m Hm. unfold total in Hm. split; [lia|]. split; [lia|].
        unfold F.
        destruct (len - d - m + ic <=? len - m - 1)%nat eqn:E;
          [apply Nat.leb_le in E; lia|].
        apply lookup_lt_is_Some. lia. }
      { intros m j Hm Hj. unfold F, total in *.
        nat_cases; try reflexivity; try lia; f_equal; lia. }
      { lia. }
      { apply Hstart. intros j Hj. unfold F.
        destruct (len - d - 0 + ic <=? j)%nat eqn:E; [|reflexivity].
        apply Nat.leb_le in E.
        rewrite (lookup_ge_None_2 l j) by lia. apply lookup_ge_None. lia. }
      rewrite Nat.sub_0_r in Hmoves.
      replace (Z.of_nat (len - d)) with (Z.of_nat len - Z.of_nat d) in Hmoves by lia.
      exists L1.
      replace (table size shifted) with (table size (F total)).
      * eapply runs_to_bind; [exact Hmoves|apply runs_to_Ret].
      * apply table_ext. intros j Hj. unfold F, total.
        nat_cases; try reflexivity; try lia; f_equal; lia.
    + exists (Z.of_nat len). rewrite store_object_same; [apply runs_to_Ret|].
      apply Hstart. intros j Hj.
      nat_cases; try reflexivity; try lia; f_equal; lia.
Qed.

Lemma splice_heap (h : Heap) (start deleteCount : Value) (relativeStart dc : Integer) :
  objects h !! a = Some (array_of l) ->
  A = next_address h ->
  host_ToInteger start = NormalCompletion relativeStart ->
  host_ToInteger deleteCount = NormalCompletion dc ->
  relative_to_absolute relativeStart (Z.of_nat len) = Z.of_nat s ->
  clamp_count dc (Z.of_nat len - Z.of_nat s) = Z.of_nat d ->
  runs_to host (ArrayProto_splice (start :: deleteCount :: items) (Obj a)) h (Obj A)
    (store_object (allocate h (array_of (take d (drop s l)))).2 a
       (array_of (take s l ++ items ++ drop (s + d) l))).
Proof.
  intros Ha HAnext Hstart Hdc Hs Hd.
  unfold ArrayProto_splice. cbv zeta. cbn [arg nth skipn].
  eapply (runs_to_read_length host); [reflexivity| |apply heap_ToLength_length|].
  { rewrite array_of_array_with in Ha. exact (heap_Get_length sortBody _ _ _ _ Ha). }
  { unfold MAX_SAFE_INTEGER. lia. }
  eapply runs_to_bind_Q; [rewrite heap_ToInteger, Hstart; reflexivity|].
  rewrite Hs. unfold splice_counts. cbn [length arg nth].
  eapply runs_to_bind.
  { eapply runs_to_bind_Q; [rewrite heap_ToInteger, Hdc; reflexivity|].
    apply runs_to_Ret. }
  rewrite Hd. cbv beta iota.
  replace (Z.of_nat (Datatypes.S (Datatypes.S ic)) - 2) with (Z.of_nat ic) by lia.
  destruct (Z.gtb_spec (Z.of_nat len + Z.of_nat ic - Z.of_nat d) MAX_SAFE_INTEGER)
    as [Hbig|_]; [unfold MAX_SAFE_INTEGER in Hbig; lia|].
  eapply runs_to_bind_Q; [apply heap_ArraySpeciesCreate; lia|].
  rewrite <- HAnext.
  set (h1 := (allocate h (array_with (Z.of_nat d) [])).2).
  assert (Ha1 : objects h1 !! a = Some (array_of l)).
  { unfold h1. cbn [allocate snd objects]. rewrite lookup_insert_ne by congruence.
    exact Ha. }
  assert (HA1 : objects h1 !! A = Some (array_with (Z.of_nat d) [])).
  { unfold h1. cbn [allocate snd objects]. rewrite HAnext. apply lookup_insert_eq. }
  rewrite Z.sub_0_r, Nat2Z.id.
  eapply runs_to_bind.
  { pose proof (splice_take_heap d 0%nat h1) as Hloop.
    rewrite take_0 in Hloop. change (Z.of_nat 0) with 0 in Hloop.
    apply Hloop; [lia|exact Ha1|exact HA1]. }
  set (h2 := store_object h1 A (array_with (Z.of_nat d) (take d (drop s l)))).
  assert (Ha2 : objects h2 !! a = Some (array_of l)).
  { unfold h2. rewrite store_object_other by exact HA. exact Ha1. }
  eapply runs_to_bind_Q.
  { unfold new_Value.
    rewrite (heap_Set_length sortBody h2 A (Z.of_nat d) (take d (drop s l))).
    - unfold h2 at 1. rewrite store_object_twice. fold h2. reflexivity.
    - apply store_object_lookup.
    - rewrite length_take, length_drop. lia. }
  destruct (splice_shift_heap h2 Ha2) as [L1 Hshift].
  eapply runs_to_bind; [exact Hshift|].
  set (h3 := store_object h2 a (sparse_array L1 (table size shifted))).
  set (G := fun j : nat => if (s <=? j)%nat && (j <? s + ic)%nat
                           then items !! (j - s)%nat else shifted j).
  destruct (store_loop_heap sortBody a size ltac:(lia) items shifted s items 0%nat h3 L1)
    as [L2 Hstore].
  { reflexivity. }
  { lia. }
  { lia. }
  { unfold h3. rewrite store_object_lookup. do 2 f_equal.
    apply table_ext. intros j Hj.
    destruct (s <=? j)%nat eqn:E1; [|reflexivity].
    destruct (j <? s + 0)%nat eqn:E2; [|reflexivity].
    apply Nat.leb_le in E1. apply Nat.ltb_lt in E2. lia. }
  rewrite Nat.add_0_r in Hstore. fold G in Hstore.
  eapply runs_to_bind; [exact Hstore|].
  eapply runs_to_bind_Q; [|apply runs_to_Ret]. unfold new_Value.
  change (drop 0 items) with items.
  replace (Z.of_nat len - Z.of_nat d + Z.of_nat ic) with (Z.of_nat newLen) by lia.
  rewrite (heap_Set_length_fits _ L2 (table size G) (Z.of_nat newLen)).
  - f_equal. unfold h3. rewrite !store_object_twice.
    rewrite (array_with_sparse _ (take s l ++ items ++ drop (s + d) l)%list).
    + unfold h2, h1, store_object, allocate. cbn [snd objects next_address].
      rewrite HAnext, insert_insert_eq. rewrite !array_of_array_with.
      rewrite !length_app, length_take, length_take, !length_drop.
      replace (Z.of_nat (d `min` (len - s))) with (Z.of_nat d) by lia.
      replace (Z.of_nat (s `min` len + (ic + (len - (s + d))))) with (Z.of_nat newLen)
        by lia.
      reflexivity.
    + intros j. rewrite table_lookup, spliced_lookup by exact Hrange. unfold G.
      nat_cases; cbn [andb mjoin option_join]; try reflexivity; try lia;
        try (f_equal; lia); try (symmetry; apply lookup_ge_None; lia).
  - apply store_object_lookup.
  - intros j v. rewrite table_lookup. unfold G.
    nat_cases; cbn [andb]; intros Hj; try discriminate; lia.
  - lia.
Qed.
End HeapSplice.

(** X22.  On the heap, splice replaces a range: for every array with
    elements [l], called with a start, a delete count and items, it returns
    a new array, at the next free address, holding the [d] elements of [l]
    from index [s] on, and the receiver becomes the elements before [s],
    then the items, then the elements of [l] from [s + d] on; [s] is the
    start, counted from the end when negative and clamped to [0, length l],
    and [d] the delete count clamped to [0, length l - s]. *)
Theorem splice_replaces_the_range :
  forall (sortBody : Value -> Z -> Value -> Heap -> Completion Value * Heap)
         (h : Heap) (a : N) (l items : list Value) (start deleteCount : Value)
         (relativeStart dc : Integer),
    objects h !! a = Some (array_of l) ->
    objects h !! next_address h = None ->
    Z.of_nat (length l) < 2 ^ 32 ->
    host_ToInteger start = NormalCompletion relativeStart ->
    host_ToInteger deleteCount = NormalCompletion dc ->
    let s := Z.to_nat (relative_to_absolute relativeStart (Z.of_nat (length l))) in
    let d := Z.to_nat (clamp_count dc (Z.of_nat (length l) - Z.of_nat s)) in
    Z.of_nat (length l - d + length items) < 2 ^ 32 ->
    let r := exec (heap_host sortBody)
               (ArrayProto_splice (start :: deleteCount :: items) (Obj a)) h in
    outcome r = Returned (Obj (next_address h)) /\
    final r =
      store_object (allocate h (array_of (take d (drop s l)))).2 a
        (array_of (take s l ++ items ++ drop (s + d) l)).
Proof.
  intros sortBody h a l items start deleteCount relativeStart dc
         Ha Hfree Hsize Hstart Hdc s d Hnew.
  pose proof (relative_to_absolute_range relativeStart (Z.of_nat (length l))
                ltac:(lia)) as Hs.
  fold s in Hs.
  assert (Hs' : relative_to_absolute relativeStart (Z.of_nat (length l)) = Z.of_nat s)
    by (unfold s; lia).
  pose proof (clamp_count_range dc (Z.of_nat (length l) - Z.of_nat s) ltac:(lia)) as Hd.
  assert (Hd' : clamp_count dc (Z.of_nat (length l) - Z.of_nat s) = Z.of_nat d)
    by (unfold d; lia).
  eapply (splice_heap sortBody a (next_address h)) with (relativeStart := relativeStart)
    (dc := dc); try eassumption; try reflexivity; try lia.
  intros ->. rewrite Hfree in Ha. discriminate.
Qed.

(** ** The heap theorems at work on [[1,2,3]] *)

(** [[1,2,3].push(4, 5)]. *)
Lemma push_appends_witness :
  let r := exec (heap_host no_sort) (ArrayProto_push [one 4; one 5] (Obj 0)) heap_123 in
  outcome r = Returned (new_Value (3 + 2)) /\
  final r = store_object heap_123 0 (array_of [one 1; one 2; one 3; one 4; one 5]).
Proof.
  apply (push_appends no_sort heap_123 0%N [one 1; one 2; one 3] [one 4; one 5]).
  - vm_compute. reflexivity.
  - vm_compute. reflexivity.
Defined.

(** [[1,2,3].pop()], then [push(3)]. *)
Lemma pop_removes_last_and_push_restores_witness :
  let popped := exec (heap_host no_sort) (ArrayProto_pop [] (Obj 0)) heap_123 in
  let pushed := exec (heap_host no_sort) (ArrayProto_push [one 3] (Obj 0)) (final popped) in
  (outcome popped = Returned (one 3) /\
   final popped = store_object heap_123 0 (array_of [one 1; one 2])) /\
  (outcome pushed = Returned (new_Value (2 + 1)) /\ final pushed = heap_123).
Proof.
  apply (pop_removes_last_and_push_restores no_sort heap_123 0%N [one 1; one 2] (one 3)).
  - vm_compute. reflexivity.
  - vm_compute. reflexivity.
Defined.

(** [[1,2,3].shift()]. *)
Lemma shift_removes_first_witness :
  let r := exec (heap_host no_sort) (ArrayProto_shift [] (Obj 0)) heap_123 in
  outcome r = Returned (one 1) /\
  final r = store_object heap_123 0 (array_of [one 2; one 3]).
Proof.
  apply (shift_removes_first no_sort heap_123 0%N (one 1) [one 2; one 3]).
  - vm_compute. reflexivity.
  - vm_compute. reflexivity.
Defined.

(** [[1,2,3].slice(1, -1)] is [[2]]. *)
Lemma slice_copies_the_range_witness :
  let r := exec (heap_host no_sort) (ArrayProto_slice [one 1; one (-1)] (Obj 0)) heap_123 in
  outcome r = Returned (Obj 1) /\
  final r = (allocate heap_123 (array_of [one 2])).2.
Proof.
  apply (slice_copies_the_range no_sort heap_123 0%N [one 1; one 2; one 3]
           (one 1) (one (-1)) (Fin 1) (Fin (-1))).
  - vm_compute. reflexivity.
  - vm_compute. reflexivity.
  - vm_compute. reflexivity.
  - reflexivity.
  - reflexivity.
Defined.

(** [[1,2,3].concat([1,2,3], 9)], the argument being the receiver. *)
Lemma concat_concatenates_witness :
  let r := exec (heap_host no_sort) (ArrayProto_concat [Obj 0; one 9] (Obj 0)) heap_123 in
  outcome r = Returned (Obj 1) /\
  final r =
    (allocate heap_123
       (array_of [one 1; one 2; one 3; one 1; one 2; one 3; one 9])).2.
Proof.
  apply (concat_concatenates no_sort heap_123 0%N [one 1; one 2; one 3]
           [Obj 0; one 9] [[one 1; one 2; one 3]; [one 9]]).
  - vm_compute. reflexivity.
  - vm_compute. reflexivity.
  - constructor; [vm_compute; reflexivity|].
    constructor; [reflexivity|constructor].
  - vm_compute. reflexivity.
Defined.

(** [[1,2,3].fill(0, 1)] is [[1,0,0]]. *)
Lemma fill_overwrites_the_range_witness :
  let r := exec (heap_host no_sort)
             (ArrayProto_fill [one 0; one 1; Undefined] (Obj 0)) heap_123 in
  outcome r = Returned (Obj 0) /\
  final r = store_object heap_123 0 (array_of [one 1; one 0; one 0]).
Proof.
  apply (fill_overwrites_the_range no_sort heap_123 0%N [one 1; one 2; one 3]
           (one 0) (one 1) Undefined (Fin 1) (Fin 3)).
  - vm_compute. reflexivity.
  - vm_compute. reflexivity.
  - reflexivity.
  - reflexivity.
Defined.

(** [[1,2,3].unshift(0)], then [shift()]. *)
Lemma unshift_prepends_and_shift_undoes_it_witness :
  let r := exec (heap_host no_sort) (ArrayProto_unshift [one 0] (Obj 0)) heap_123 in
  let shifted := exec (heap_host no_sort) (ArrayProto_shift [] (Obj 0)) (final r) in
  (outcome r = Returned (new_Value (3 + 1)) /\
   final r = store_object heap_123 0 (array_of [one 0; one 1; one 2; one 3])) /\
  (outcome shifted = Returned (one 0) /\ final shifted = heap_123).
Proof.
  destruct (unshift_prepends_and_shift_undoes_it no_sort heap_123 0%N
              [one 1; one 2; one 3] [one 0]) as [Hunshift Hshift].
  - vm_compute. reflexivity.
  - vm_compute. reflexivity.
  - split; [exact Hunshift|exact (Hshift (one 0) eq_refl)].
Defined.

(** [[1,2,3].copyWithin(0, 1)] is [[2,3,3]]. *)
Lemma copyWithin_copies_the_range_witness :
  let r := exec (heap_host no_sort)
             (ArrayProto_copyWithin [one 0; one 1; Undefined] (Obj 0)) heap_123 in
  outcome r = Returned (Obj 0) /\
  final r = store_object heap_123 0 (array_of [one 2; one 3; one 3]).
Proof.
  apply (copyWithin_copies_the_range no_sort heap_123 0%N [one 1; one 2; one 3]
           (one 0) (one 1) Undefined (Fin 0) (Fin 1) (Fin 3)).
  - vm_compute. reflexivity.
  - vm_compute. reflexivity.
  - reflexivity.
  - reflexivity.
  - reflexivity.
Defined.

(** [[1,2,3].splice(1, 1, 7, 8)] returns [[2]] and leaves [[1,7,8,3]]. *)
Lemma splice_replaces_the_range_witness :
  let r := exec (heap_host no_sort)
             (ArrayProto_splice [one 1; one 1; one 7; one 8] (Obj 0)) heap_123 in
  outcome r = Returned (Obj 1) /\
  final r =
    store_object (allocate heap_123 (array_of [one 2])).2 0
      (array_of [one 1; one 7; one 8; one 3]).
Proof.
  apply (splice_replaces_the_range no_sort heap_123 0%N [one 1; one 2; one 3]
           [one 7; one 8] (one 1) (one 1) (Fin 1) (Fin 1)).
  - vm_compute. reflexivity.
  - vm_compute. reflexivity.
  - vm_compute. reflexivity.
  - reflexivity.
  - reflexivity.
  - vm_compute. reflexivity.
Defined.
